(** * MoE router press: a shallow embedding of [kvpress/presses/moe_router_press.py]

    The development follows the Python module class by class.  Every class
    becomes a Rocq module holding a record for the instance attributes and one
    definition per method, under the method's own name.

    Numbers.
    - Tensor entries ([torch] floating-point tensors) and the Python floats
      that only ever flow into tensors or statistics are modelled by the
      canonical rationals [Qc]: rounding, infinities and NaN are abstracted
      away.  A division by zero inside a tensor expression (NaN or an infinity
      in torch) is [Qc]'s [x / 0 = 0].
    - Python floats that flow into [int(...)], and so decide sizes and
      counts, are IEEE-754 binary64 values ([PrimFloat.float]), which is what
      a Python [float] is; [py_int] is Python's truncating [int].
    - [torch.exp] and [torch.log] are not rational functions: they are the two
      fields of the class [Transcendental].

    Effects.  A method that may raise returns a [result]; a method that
    mutates [self] returns the new instance next to its value.  State reached
    at the moment an exception is raised is not observable in this model. *)

From Stdlib Require Import ZArith QArith Qcanon Qround Floats Lia.
From stdpp Require Import base option list sorting strings gmap numbers.

Set Warnings "-inexact-float".
Local Open Scope Qc_scope.

(** ** Exceptions and the error monad *)

Inductive exn : Set :=
  | KeyError | IndexError | RuntimeError | TypeError
  | ValueError | OverflowError | ZeroDivisionError.

Inductive result (A : Type) : Type :=
  | Ok (a : A)
  | Raise (e : exn).
Arguments Ok {A} a.
Arguments Raise {A} e.

Definition bind {A B : Type} (m : result A) (f : A → result B) : result B :=
  match m with
  | Ok a => f a
  | Raise e => Raise e
  end.

Notation "x <- y ; z" := (bind y (λ x, z))
  (at level 20, y at level 100, z at level 200, only parsing).
Notation "' x <- y ; z" := (bind y (λ x, z))
  (at level 20, x pattern, y at level 100, z at level 200, only parsing).

(** [for x in xs: body] over a state, stopping at the first exception. *)
Fixpoint for_each {A S : Type} (xs : list A) (body : A → S → result S) (st : S)
  : result S :=
  match xs with
  | [] => Ok st
  | x :: xs' => st' <- body x st; for_each xs' body st'
  end.

(** [range(n)] *)
Definition range (n : nat) : list nat := seq 0 n.

(** [[f(x) for x in xs]] where [f] may raise. *)
Fixpoint map_result {A B : Type} (f : A → result B) (xs : list A) : result (list B) :=
  match xs with
  | [] => Ok []
  | x :: xs' => y <- f x; ys <- map_result f xs'; Ok (y :: ys)
  end.

(** Indexing a Python list or a tensor axis: [IndexError] out of range. *)
Definition get {A : Type} (l : list A) (i : nat) : result A :=
  match l !! i with
  | Some a => Ok a
  | None => Raise IndexError
  end.

(** ** Scalars *)

Abbreviation qz := Qc_of_Z.
Definition qn (n : nat) : Qc := Qc_of_Z (Z.of_nat n).

#[global] Instance Qc_inhabited : Inhabited Qc := populate 0.

Definition qmax (x y : Qc) : Qc := if decide (x ≤ y) then y else x.
Definition qmin (x y : Qc) : Qc := if decide (x ≤ y) then x else y.

(** The conversion of a Python [int] operand in mixed [int]/[float]
    arithmetic.  Exact below 2^53; sizes of tensors stay far below 2^63. *)
Definition float_of_nat (n : nat) : float :=
  PrimFloat.of_uint63 (Uint63.of_Z (Z.of_nat n)).

(** Python's [int(x)] on a float: truncation toward zero; [ValueError] on a
    NaN, [OverflowError] on an infinity. *)
Definition py_int (x : float) : result Z :=
  match Prim2SF x with
  | S754_zero _ => Ok 0%Z
  | S754_finite s m e =>
      let a := if (0 <=? e)%Z then Z.shiftl (Z.pos m) e
               else Z.shiftr (Z.pos m) (- e) in
      Ok (if s then (- a)%Z else a)
  | S754_infinity _ => Raise OverflowError
  | S754_nan => Raise ValueError
  end.

(** [torch.exp] and [torch.log] on scalars. *)
Class Transcendental : Type := {
  exp : Qc → Qc;
  ln : Qc → Qc;
  exp_pos : ∀ x, 0 < exp x
}.

(** ** Tensors as nested lists *)

Abbreviation Tensor1 := (list Qc).
Abbreviation Tensor2 := (list (list Qc)).
Abbreviation Tensor3 := (list (list (list Qc))).
Abbreviation Tensor4 := (list (list (list (list Qc)))).

(** Sizes of the leading axes, read off the first entry.  A tensor with an
    empty leading axis reads as empty on the inner axes as well. *)
Definition dim0 {A} (t : list A) : nat := length t.
Definition dim1 {A} (t : list (list A)) : nat := length (hd [] t).
Definition dim2 {A} (t : list (list (list A))) : nat := dim1 (hd [] t).

Definition zeros1 (n : nat) : Tensor1 := replicate n 0.
Definition zeros2 (n m : nat) : Tensor2 := replicate n (zeros1 m).
Definition zeros3 (n m k : nat) : Tensor3 := replicate n (zeros2 m k).
Definition zeros4 (n m k l : nat) : Tensor4 := replicate n (zeros3 m k l).

Definition qsum (l : Tensor1) : Qc := foldr Qcplus 0 l.
Definition mean (l : Tensor1) : Qc := qsum l / qn (length l).
Definition dot (u v : Tensor1) : Qc := qsum (zip_with Qcmult u v).

(** Column [j] of a matrix given as a list of rows. *)
Definition column (j : nat) (rows : Tensor2) : Tensor1 :=
  (λ r, r !!! j) <$> rows.

(** [t.mean(dim=0)] of a matrix: one mean per column. *)
Definition mean_rows (rows : Tensor2) : Tensor1 :=
  (λ j, mean (column j rows)) <$> range (dim1 rows).

(** [t.mean(dim=[0, 1])] of a [[B, S, E]] tensor: one mean per entry of the
    last axis, over all tokens. *)
Definition mean_dim01 (t : Tensor3) : Tensor1 := mean_rows (concat t).

(** A function applied to every token of a [[B, S, ...]] tensor. *)
Definition map_tokens {A B : Type} (f : A → B) (t : list (list A)) : list (list B) :=
  (λ row : list A, f <$> row) <$> t.

(** [t[i] = x] on one axis and its nested forms. *)
Definition set1 {A} (i : nat) (x : A) (t : list A) : list A := <[i := x]> t.
Definition set3 {A} (b s e : nat) (x : A) (t : list (list (list A))) :=
  alter (alter (set1 e x) s) b t.
Definition set4 {A} (b s e p : nat) (x : A) (t : list (list (list (list A)))) :=
  alter (alter (alter (set1 p x) e) s) b t.

(** ** Sorting, top-k and arg-max *)

(** [torch.sort(t)[0]]: the values in ascending order. *)
Definition sort_asc (l : Tensor1) : Tensor1 := merge_sort Qcle l.
Definition sort_nat (l : list nat) : list nat := merge_sort le l.

(** The order [torch.topk] returns its entries in: larger value first.  Torch
    leaves the order of equal values open; here the lower index comes first. *)
Definition topk_le (x y : Qc * nat) : Prop :=
  y.1 < x.1 ∨ (x.1 = y.1 ∧ (x.2 ≤ y.2)%nat).

#[global] Instance topk_le_dec : RelDecision topk_le.
Proof. intros x y. unfold topk_le. apply _. Defined.

(** [torch.topk(t, k)] on the last axis: (values, indices);
    [RuntimeError] when [k] is out of range. *)
Definition topk (l : Tensor1) (k : nat) : result (Tensor1 * list nat) :=
  if decide (k ≤ length l)%nat then
    let best := take k (merge_sort topk_le (zip l (range (length l)))) in
    Ok (best.*1, best.*2)
  else Raise RuntimeError.

(** [torch.argmax(t).item()]: the first index of the largest entry;
    [RuntimeError] on an empty tensor. *)
Definition argmax (l : Tensor1) : result nat :=
  '(_, idx) <- topk l 1;
  get idx 0.

(** [[f(x) for x in xs]] from the list of the outcomes. *)
Definition sequence {A : Type} (xs : list (result A)) : result (list A) :=
  map_result id xs.

(** Entry [[b, s, k]] of a rank-3 tensor. *)
Definition get3 {A : Type} (t : list (list (list A))) (b s k : nat) : result A :=
  row <- get t b; tok <- get row s; get tok k.

(** ** The [torch.nn] layers the routers are built from *)

Module nn.

(** The random number generator behind the initialisers: entry [(i, j)] of
    the [k]-th array drawn. *)
Definition Rng : Type := nat → nat → nat → Qc.

Definition tabulate {A : Type} (n : nat) (f : nat → A) : list A := f <$> range n.

Record Linear : Type := {
  in_features : nat;
  out_features : nat;
  weight : Tensor2;       (* [out_features, in_features] *)
  bias : Tensor1          (* [out_features] *)
}.

(** [nn.Linear(in_features, out_features)]: weight and bias drawn at random. *)
Definition Linear_new (g : Rng) (k : nat) (n_in n_out : nat) : Linear :=
  {| in_features := n_in; out_features := n_out;
     weight := tabulate n_out (λ i, tabulate n_in (g k i));
     bias := tabulate n_out (g (S k) 0%nat) |}.

(** [nn.init.xavier_normal_(module.weight)]: a fresh random weight. *)
Definition xavier_normal_ (g : Rng) (k : nat) (l : Linear) : Linear :=
  {| in_features := in_features l; out_features := out_features l;
     weight := tabulate (out_features l) (λ i, tabulate (in_features l) (g k i));
     bias := bias l |}.

(** [nn.init.zeros_(module.bias)] *)
Definition zeros_ (l : Linear) : Linear :=
  {| in_features := in_features l; out_features := out_features l;
     weight := weight l;
     bias := zeros1 (length (bias l)) |}.

Inductive Layer : Type :=
  | LinearL (l : Linear)
  | ReLU
  | Dropout (p : Qc)
  | Sigmoid
  | Tanh
  | Softmax.

Abbreviation Sequential := (list Layer).

Definition qmaximum (x : Tensor1) : Qc := foldr qmax (hd 0 x) x.

(** [F.softmax(x, dim=-1)] on one vector, computed as torch does, after
    subtracting the largest entry. *)
Definition softmax `{!Transcendental} (x : Tensor1) : Tensor1 :=
  let es := (λ v, exp (v - qmaximum x)) <$> x in
  (λ e, e / qsum es) <$> es.

Definition sigmoid `{!Transcendental} (v : Qc) : Qc := 1 / (1 + exp (- v)).
Definition tanh `{!Transcendental} (v : Qc) : Qc :=
  (exp v - exp (- v)) / (exp v + exp (- v)).

(** One layer on one feature vector.  [keep j] is the dropout noise: whether
    unit [j] survives.  A [Linear] layer raises on an input of the wrong
    width. *)
Definition Layer_forward `{!Transcendental} (training : bool) (keep : nat → bool)
    (m : Layer) (x : Tensor1) : result Tensor1 :=
  match m with
  | LinearL l =>
      if decide (length x = in_features l) then
        Ok (zip_with (λ row b, dot row x + b) (weight l) (bias l))
      else Raise RuntimeError
  | ReLU => Ok (qmax 0 <$> x)
  | Dropout p =>
      if training && bool_decide (p ≠ 0) then
        Ok (imap (λ j v, if keep j then v / (1 - p) else 0) x)
      else Ok x
  | Sigmoid => Ok (sigmoid <$> x)
  | Tanh => Ok (tanh <$> x)
  | Softmax => Ok (softmax x)
  end.

(** [nn.Sequential.forward] on one feature vector. *)
Definition Sequential_forward `{!Transcendental} (training : bool) (keep : nat → bool)
    (net : Sequential) (x : Tensor1) : result Tensor1 :=
  for_each net (Layer_forward training keep) x.

(** The same on a [[B, S, H]] tensor, token by token; [keep b s] is the
    dropout noise of token [(b, s)]. *)
Definition Sequential_forward3 `{!Transcendental} (training : bool)
    (keep : nat → nat → nat → bool) (net : Sequential) (t : Tensor3) : result Tensor3 :=
  sequence (imap (λ b row,
    sequence (imap (λ s x, Sequential_forward training (keep b s) net x) row)) t).

End nn.

(** ** Helpers shared by the routers *)

(** [torch.finfo(torch.float32).min] *)
Definition finfo_min : Qc := qz (- (2 ^ 128 - 2 ^ 104)).

(** [router_logits + (1 - expert_mask) * mask_value], the mask broadcast over
    the tokens; a mask of the wrong length does not broadcast. *)
Definition apply_expert_mask (expert_mask : option Tensor1) (router_logits : Tensor3)
  : result Tensor3 :=
  match expert_mask with
  | None => Ok router_logits
  | Some mask =>
      sequence ((λ row : Tensor2, sequence ((λ logits : Tensor1,
        if decide (length mask = length logits) then
          Ok (zip_with (λ l m, l + (1 - m) * finfo_min) logits mask)
        else Raise RuntimeError) <$> row)) <$> router_logits)
  end.

(** [torch.topk(probs, k, dim=-1)] on a [[B, S, E]] tensor: the values and the
    indices, each [[B, S, k]]. *)
Definition topk3 (probs : Tensor3) (k : nat)
  : result (Tensor3 * list (list (list nat))) :=
  sel <- sequence ((λ row : Tensor2, sequence ((λ p, topk p k) <$> row)) <$> probs);
  Ok (map_tokens fst sel, map_tokens snd sel).

(** [top_k_probs / (top_k_probs.sum(dim=-1, keepdim=True) + 1e-8)] *)
Definition renormalize (top_k_probs : Tensor3) : Tensor3 :=
  map_tokens (λ p : Tensor1, (λ v, v / (qsum p + 1 / qz (10 ^ 8))) <$> p) top_k_probs.

(** [(top_k_indices == expert_idx).sum()] *)
Definition count_expert (top_k_indices : list (list (list nat))) (expert_idx : nat) : nat :=
  length (filter (λ i, i = expert_idx) (concat (concat top_k_indices))).

(** [buf[i] += x] on a buffer. *)
Definition add_at (i : nat) (x : Qc) (buf : Tensor1) : result Tensor1 :=
  v <- get buf i; Ok (<[i := v + x]> buf).

(** ** [class BaseMoERouter(nn.Module)] *)

Module BaseMoERouter.

Record t : Type := {
  training : bool;                (* [nn.Module.training] *)
  hidden_size : nat;
  num_experts : nat;
  top_k : nat;
  capacity_factor : float;
  dropout : Qc;
  router : nn.Sequential;
  (* registered buffers *)
  total_tokens : Qc;
  expert_usage_count : Tensor1;
  routing_decisions : Tensor1
}.

Definition with_top_k (k : nat) (self : t) : t :=
  {| training := training self; hidden_size := hidden_size self;
     num_experts := num_experts self; top_k := k;
     capacity_factor := capacity_factor self; dropout := dropout self;
     router := router self; total_tokens := total_tokens self;
     expert_usage_count := expert_usage_count self;
     routing_decisions := routing_decisions self |}.

Definition with_router (net : nn.Sequential) (self : t) : t :=
  {| training := training self; hidden_size := hidden_size self;
     num_experts := num_experts self; top_k := top_k self;
     capacity_factor := capacity_factor self; dropout := dropout self;
     router := net; total_tokens := total_tokens self;
     expert_usage_count := expert_usage_count self;
     routing_decisions := routing_decisions self |}.

Definition with_stats (tokens : Qc) (usage decisions : Tensor1) (self : t) : t :=
  {| training := training self; hidden_size := hidden_size self;
     num_experts := num_experts self; top_k := top_k self;
     capacity_factor := capacity_factor self; dropout := dropout self;
     router := router self; total_tokens := tokens;
     expert_usage_count := usage;
     routing_decisions := decisions |}.

(** [for module in net: if isinstance(module, nn.Linear): ...]: a fresh
    Xavier weight and a zero bias for every linear layer.  Draw [k0 + i] of
    the generator serves the layer at position [i]. *)
Definition init_linear_layers (g : nn.Rng) (k0 : nat) (net : nn.Sequential)
  : nn.Sequential :=
  imap (λ i m,
    match m with
    | nn.LinearL l => nn.LinearL (nn.zeros_ (nn.xavier_normal_ g (k0 + i) l))
    | _ => m
    end) net.

Definition _init_weights (g : nn.Rng) (self : t) : t :=
  with_router (init_linear_layers g 4 (router self)) self.

Definition __init__ (g : nn.Rng) (hidden_size num_experts top_k : nat)
    (capacity_factor : float) (dropout : Qc) : t :=
  _init_weights g
    {| training := true;
       hidden_size := hidden_size;
       num_experts := num_experts;
       top_k := Nat.min top_k num_experts;
       capacity_factor := capacity_factor;
       dropout := dropout;
       router := [ nn.LinearL (nn.Linear_new g 0 hidden_size hidden_size);
                   nn.ReLU;
                   nn.Dropout dropout;
                   nn.LinearL (nn.Linear_new g 2 hidden_size num_experts) ];
       total_tokens := 0;
       expert_usage_count := zeros1 num_experts;
       routing_decisions := zeros1 num_experts |}.

(** [int(total_tokens * self.capacity_factor * self.top_k / self.num_experts)] *)
Definition _compute_capacity (self : t) (batch_size seq_len : nat) : result Z :=
  let total_tokens := (batch_size * seq_len)%nat in
  if decide (num_experts self = 0%nat) then Raise ZeroDivisionError
  else py_int (float_of_nat total_tokens * capacity_factor self
               * float_of_nat (top_k self) / float_of_nat (num_experts self))%float.

(** The three locals the filling loop updates. *)
Record fill : Type := {
  dispatch_tensor : Tensor4;
  combine_tensor : Tensor4;
  expert_capacity_used : list nat
}.

(** The body of the innermost loop: the [k]-th choice of token [(b, s)]. *)
Definition assign (capacity : nat) (top_k_indices : list (list (list nat)))
    (top_k_probs : Tensor3) (b s k : nat) (st : fill) : result fill :=
  expert_idx <- get3 top_k_indices b s k;
  prob <- get3 top_k_probs b s k;
  used <- get (expert_capacity_used st) expert_idx;
  if decide (used < capacity)%nat then
    let pos := used in
    Ok {| dispatch_tensor := set4 b s expert_idx pos 1 (dispatch_tensor st);
          combine_tensor := set4 b s expert_idx pos prob (combine_tensor st);
          expert_capacity_used := <[expert_idx := S used]> (expert_capacity_used st) |}
  else Ok st.

Definition _create_dispatch_combine_tensors (self : t)
    (top_k_indices : list (list (list nat))) (top_k_probs : Tensor3)
    (batch_size seq_len : nat) : result (Tensor4 * Tensor4) :=
  capacity <- _compute_capacity self batch_size seq_len;
  (* [torch.zeros] refuses a negative dimension *)
  if decide (capacity < 0)%Z then Raise RuntimeError else
  let capacity := Z.to_nat capacity in
  let st0 :=
    {| dispatch_tensor := zeros4 batch_size seq_len (num_experts self) capacity;
       combine_tensor := zeros4 batch_size seq_len (num_experts self) capacity;
       expert_capacity_used := replicate (num_experts self) 0%nat |} in
  st <- for_each (range batch_size) (λ b,
         for_each (range seq_len) (λ s,
           for_each (range (top_k self)) (λ k,
             assign capacity top_k_indices top_k_probs b s k))) st0;
  Ok (dispatch_tensor st, combine_tensor st).

(** [F.one_hot(expert_indices, num_classes).float().mean(dim=[0, 1, 2])]: the
    share of the index entries that name each class.  [one_hot] refuses
    [None] and an index outside the classes. *)
Definition one_hot_mean (indices : option (list (list (list nat)))) (num_classes : nat)
  : result Tensor1 :=
  match indices with
  | None => Raise TypeError
  | Some idx =>
      let flat := concat (concat idx) in
      if decide (Forall (λ i, i < num_classes)%nat flat) then
        Ok ((λ e, qn (count_expert idx e) / qn (length flat)) <$> range num_classes)
      else Raise RuntimeError
  end.

Definition _compute_load_balancing_loss (self : t) (router_probs : Tensor3)
    (expert_indices : option (list (list (list nat)))) : result Qc :=
  let router_prob_per_expert := mean_dim01 router_probs in
  expert_usage_rate <- one_hot_mean expert_indices (num_experts self);
  let balance_loss := qsum (zip_with Qcmult router_prob_per_expert expert_usage_rate) in
  Ok (balance_loss * qn (num_experts self)).

(** The statistics update that ends [forward]. *)
Definition update_stats (self : t) (top_k_indices : list (list (list nat)))
    (batch_size seq_len : nat) : result t :=
  let tokens := total_tokens self + qn (batch_size * seq_len) in
  '(usage, decisions) <-
    for_each (range (num_experts self)) (λ expert_idx '(usage, decisions),
      let expert_count := qn (count_expert top_k_indices expert_idx) in
      usage <- add_at expert_idx expert_count usage;
      decisions <- add_at expert_idx expert_count decisions;
      Ok (usage, decisions))
      (expert_usage_count self, routing_decisions self);
  Ok (with_stats tokens usage decisions self).

Definition forward `{!Transcendental} (self : t) (hidden_states : Tensor3)
    (expert_mask : option Tensor1) (keep : nat → nat → nat → bool)
  : result (Tensor4 * Tensor4 * Tensor3 * Qc * t) :=
  let batch_size := dim0 hidden_states in
  let seq_len := dim1 hidden_states in
  router_logits <- nn.Sequential_forward3 (training self) keep (router self) hidden_states;
  router_logits <- apply_expert_mask expert_mask router_logits;
  let router_probs := map_tokens nn.softmax router_logits in
  '(top_k_probs, top_k_indices) <- topk3 router_probs (top_k self);
  let top_k_probs := renormalize top_k_probs in
  '(dispatch_tensor, combine_tensor) <-
    _create_dispatch_combine_tensors self top_k_indices top_k_probs batch_size seq_len;
  aux_loss <- _compute_load_balancing_loss self router_probs (Some top_k_indices);
  self <- update_stats self top_k_indices batch_size seq_len;
  Ok (dispatch_tensor, combine_tensor, router_probs, aux_loss, self).

(** What [get_routing_stats] returns. *)
Record routing_stats : Type := {
  stats_expert_usage_ratios : Tensor1;
  stats_expert_usage_count : Tensor1;
  stats_total_tokens : Qc;
  stats_routing_decisions : Tensor1
}.

Definition get_routing_stats (self : t) : routing_stats :=
  let expert_usage_ratios :=
    if decide (0 < total_tokens self) then
      (λ c, c / total_tokens self) <$> expert_usage_count self
    else zeros1 (length (expert_usage_count self)) in
  {| stats_expert_usage_ratios := expert_usage_ratios;
     stats_expert_usage_count := expert_usage_count self;
     stats_total_tokens := total_tokens self;
     stats_routing_decisions := routing_decisions self |}.

Definition reset_stats (self : t) : t :=
  with_stats 0 (zeros1 (length (expert_usage_count self)))
    (zeros1 (length (routing_decisions self))) self.

End BaseMoERouter.

(** ** [class TopKBalancedRouter(BaseMoERouter)] *)

Module TopKBalancedRouter.

Record t : Type := {
  base : BaseMoERouter.t;
  balance_coefficient : Qc;
  balance_mode : string;
  (* registered buffers *)
  balance_loss_history : Tensor1;     (* 100 entries *)
  balance_loss_idx : nat
}.

Definition __init__ (g : nn.Rng) (hidden_size num_experts top_k : nat)
    (capacity_factor : float) (dropout balance_coefficient : Qc)
    (balance_mode : string) : t :=
  {| base := BaseMoERouter.__init__ g hidden_size num_experts top_k capacity_factor dropout;
     balance_coefficient := balance_coefficient;
     balance_mode := balance_mode;
     balance_loss_history := zeros1 100;
     balance_loss_idx := 0%nat |}.

(** [torch.arange(1, n + 1)] *)
Definition arange1 (n : nat) : Tensor1 := (λ i, qn (S i)) <$> range n.

(** [torch.var(x)]: the unbiased sample variance. *)
Definition var (x : Tensor1) : Qc :=
  qsum ((λ v, (v - mean x) * (v - mean x)) <$> x) / qn (length x - 1).

(** The three penalties, each on the mean probability of every expert. *)
Definition entropy_loss `{!Transcendental} (num_experts : nat) (expert_probs : Tensor1) : Qc :=
  let entropy := - qsum ((λ p, p * ln (p + 1 / qz (10 ^ 8))) <$> expert_probs) in
  let max_entropy := ln (qn num_experts) in
  1 - entropy / max_entropy.

Definition variance_loss (num_experts : nat) (expert_probs : Tensor1) : Qc :=
  let target_prob := 1 / qn num_experts in
  var ((λ p, p - target_prob) <$> expert_probs).

Definition gini_loss (num_experts : nat) (expert_probs : Tensor1) : Qc :=
  let sorted_probs := sort_asc expert_probs in
  let index := arange1 num_experts in
  let gini := 2 * qsum (zip_with Qcmult index sorted_probs)
              / (qn num_experts * qsum sorted_probs) - 1 in
  gini.

Definition _compute_advanced_balance_loss `{!Transcendental} (self : t)
    (router_probs : Tensor3) : result Qc :=
  let expert_probs := mean_dim01 router_probs in
  let E := BaseMoERouter.num_experts (base self) in
  if decide (balance_mode self = "entropy") then Ok (entropy_loss E expert_probs)
  else if decide (balance_mode self = "variance") then Ok (variance_loss E expert_probs)
  else if decide (balance_mode self = "gini") then Ok (gini_loss E expert_probs)
  else BaseMoERouter._compute_load_balancing_loss (base self) router_probs None.

Definition forward `{!Transcendental} (self : t) (hidden_states : Tensor3)
    (expert_mask : option Tensor1) (keep : nat → nat → nat → bool)
  : result (Tensor4 * Tensor4 * Tensor3 * Qc * t) :=
  '(dispatch_tensor, combine_tensor, router_probs, base_aux_loss, base') <-
    BaseMoERouter.forward (base self) hidden_states expert_mask keep;
  advanced_balance_loss <- _compute_advanced_balance_loss self router_probs;
  let total_aux_loss := base_aux_loss + balance_coefficient self * advanced_balance_loss in
  let idx := (balance_loss_idx self mod 100)%nat in
  Ok (dispatch_tensor, combine_tensor, router_probs, total_aux_loss,
      {| base := base';
         balance_coefficient := balance_coefficient self;
         balance_mode := balance_mode self;
         balance_loss_history := <[idx := advanced_balance_loss]> (balance_loss_history self);
         balance_loss_idx := S (balance_loss_idx self) |}).

End TopKBalancedRouter.

(** ** [class AdaptiveRouter(BaseMoERouter)] *)

Module AdaptiveRouter.

Record t : Type := {
  base : BaseMoERouter.t;
  importance_threshold : Qc;
  adaptive_top_k : bool;
  importance_predictor : nn.Sequential;
  top_k_predictor : option nn.Sequential;   (* present iff built with [adaptive_top_k] *)
  (* registered buffers *)
  importance_history : Tensor1;             (* 1000 entries *)
  importance_idx : nat
}.

Definition with_base (b : BaseMoERouter.t) (self : t) : t :=
  {| base := b; importance_threshold := importance_threshold self;
     adaptive_top_k := adaptive_top_k self;
     importance_predictor := importance_predictor self;
     top_k_predictor := top_k_predictor self;
     importance_history := importance_history self;
     importance_idx := importance_idx self |}.

Definition with_history (h : Tensor1) (i : nat) (self : t) : t :=
  {| base := base self; importance_threshold := importance_threshold self;
     adaptive_top_k := adaptive_top_k self;
     importance_predictor := importance_predictor self;
     top_k_predictor := top_k_predictor self;
     importance_history := h;
     importance_idx := i |}.

Definition __init__ (g : nn.Rng) (hidden_size num_experts top_k : nat)
    (capacity_factor : float) (dropout importance_threshold : Qc)
    (adaptive_top_k : bool) : t :=
  {| base := BaseMoERouter.__init__ g hidden_size num_experts top_k capacity_factor dropout;
     importance_threshold := importance_threshold;
     adaptive_top_k := adaptive_top_k;
     importance_predictor :=
       [ nn.LinearL (nn.Linear_new g 8 hidden_size (hidden_size / 2));
         nn.ReLU;
         nn.Dropout dropout;
         nn.LinearL (nn.Linear_new g 10 (hidden_size / 2) 1);
         nn.Sigmoid ];
     top_k_predictor :=
       if adaptive_top_k then
         Some [ nn.LinearL (nn.Linear_new g 12 (hidden_size + 1) (hidden_size / 4));
                nn.ReLU;
                nn.LinearL (nn.Linear_new g 14 (hidden_size / 4) top_k);
                nn.Softmax ]
       else None;
     importance_history := zeros1 1000;
     importance_idx := 0%nat |}.

(** [self.importance_predictor(hidden_states).squeeze(-1)]: [[B, S]] *)
Definition _compute_importance `{!Transcendental} (self : t) (hidden_states : Tensor3)
    (keep : nat → nat → nat → bool) : result Tensor2 :=
  importance <- nn.Sequential_forward3 (BaseMoERouter.training (base self)) keep
                  (importance_predictor self) hidden_states;
  sequence ((λ row : Tensor2, sequence ((λ out : Tensor1, get out 0) <$> row))
            <$> importance).

Definition _adapt_top_k `{!Transcendental} (self : t) (hidden_states : Tensor3)
    (importance : Tensor2) : result nat :=
  match adaptive_top_k self, top_k_predictor self with
  | true, Some predictor =>
      let avg_features := mean_dim01 hidden_states in
      let avg_importance := [mean (concat importance)] in
      let combined_features := avg_features ++ avg_importance in
      top_k_probs <- nn.Sequential_forward (BaseMoERouter.training (base self))
                       (λ _, true) predictor combined_features;
      best <- argmax top_k_probs;
      let adaptive_k := (best + 1)%nat in
      Ok (Nat.min adaptive_k (BaseMoERouter.top_k (base self)))
  | _, _ => Ok (BaseMoERouter.top_k (base self))
  end.

(** [combine_tensor * (1.0 + importance_expanded)], the weight of a token
    broadcast over its experts and slots. *)
Definition scale_tokens (combine_tensor : Tensor4) (importance_weight : Tensor2) : Tensor4 :=
  zip_with (zip_with (λ (tok : Tensor2) (w : Qc),
    (λ slots : Tensor1, (λ v, v * (1 + w)) <$> slots) <$> tok))
    combine_tensor importance_weight.

(** [for imp_val in flat_importance: ...]: the circular history write. *)
Definition record_importance (flat_importance : Tensor1) (self : t) : t :=
  foldl (λ self imp_val,
    let idx := (importance_idx self mod 1000)%nat in
    with_history (<[idx := imp_val]> (importance_history self))
      (S (importance_idx self)) self) self flat_importance.

Definition forward `{!Transcendental} (self : t) (hidden_states : Tensor3)
    (expert_mask : option Tensor1) (keep keep_importance : nat → nat → nat → bool)
  : result (Tensor4 * Tensor4 * Tensor3 * Qc * Tensor2 * t) :=
  importance <- _compute_importance self hidden_states keep_importance;
  current_top_k <- _adapt_top_k self hidden_states importance;
  let original_top_k := BaseMoERouter.top_k (base self) in
  let self := with_base (BaseMoERouter.with_top_k current_top_k (base self)) self in
  '(dispatch_tensor, combine_tensor, router_probs, aux_loss, base') <-
    BaseMoERouter.forward (base self) hidden_states expert_mask keep;
  let self := with_base (BaseMoERouter.with_top_k original_top_k base') self in
  let importance_weight :=
    map_tokens (λ v, if decide (importance_threshold self < v) then 1 else 0) importance in
  let combine_tensor := scale_tokens combine_tensor importance_weight in
  let self := record_importance (concat importance) self in
  Ok (dispatch_tensor, combine_tensor, router_probs, aux_loss, importance, self).

End AdaptiveRouter.

(** ** [class PiKVMoERouter(AdaptiveRouter)] *)

Module PiKVMoERouter.

Record t : Type := {
  adaptive : AdaptiveRouter.t;
  cache_aware : bool;
  cache_update_interval : nat;
  cache_router_adjustment : option nn.Sequential;  (* present iff built [cache_aware] *)
  (* registered buffers *)
  cache_usage_history : Tensor2;     (* [num_experts, 100] *)
  cache_hit_rates : Tensor1;         (* [num_experts] *)
  cache_update_counter : nat
}.

Definition base (self : t) : BaseMoERouter.t := AdaptiveRouter.base (adaptive self).

Definition with_adaptive (a : AdaptiveRouter.t) (self : t) : t :=
  {| adaptive := a; cache_aware := cache_aware self;
     cache_update_interval := cache_update_interval self;
     cache_router_adjustment := cache_router_adjustment self;
     cache_usage_history := cache_usage_history self;
     cache_hit_rates := cache_hit_rates self;
     cache_update_counter := cache_update_counter self |}.

Definition with_cache (h : Tensor2) (r : Tensor1) (n : nat) (self : t) : t :=
  {| adaptive := adaptive self; cache_aware := cache_aware self;
     cache_update_interval := cache_update_interval self;
     cache_router_adjustment := cache_router_adjustment self;
     cache_usage_history := h;
     cache_hit_rates := r;
     cache_update_counter := n |}.

Definition __init__ (g : nn.Rng) (hidden_size num_experts top_k : nat)
    (capacity_factor : float) (dropout importance_threshold : Qc)
    (cache_aware : bool) (cache_update_interval : nat) : t :=
  {| adaptive := AdaptiveRouter.__init__ g hidden_size num_experts top_k
                   capacity_factor dropout importance_threshold true;
     cache_aware := cache_aware;
     cache_update_interval := cache_update_interval;
     cache_usage_history := zeros2 num_experts 100;
     cache_hit_rates := zeros1 num_experts;
     cache_update_counter := 0%nat;
     cache_router_adjustment :=
       if cache_aware then
         Some [ nn.LinearL (nn.Linear_new g 16 (hidden_size + num_experts) hidden_size);
                nn.ReLU;
                nn.LinearL (nn.Linear_new g 18 hidden_size num_experts);
                nn.Tanh ]
       else None |}.

Definition update_cache_usage (self : t) (expert_idx : nat) (cache_hit_rate : Qc) : t :=
  let self :=
    if decide (expert_idx < BaseMoERouter.num_experts (base self))%nat then
      let history_idx := (cache_update_counter self mod 100)%nat in
      with_cache
        (alter (set1 history_idx cache_hit_rate) expert_idx (cache_usage_history self))
        (<[expert_idx := cache_hit_rate]> (cache_hit_rates self))
        (cache_update_counter self) self
    else self in
  with_cache (cache_usage_history self) (cache_hit_rates self)
    (S (cache_update_counter self)) self.

(** The adjustment of each batch entry, repeated over its [seq_len] tokens. *)
Definition _compute_cache_aware_adjustment `{!Transcendental} (self : t)
    (hidden_states : Tensor3) (router_logits : Tensor3) : result Tensor3 :=
  match cache_aware self, cache_router_adjustment self with
  | true, Some net =>
      let seq_len := dim1 hidden_states in
      sequence ((λ tokens : Tensor2,
        let avg_features := mean_rows tokens in
        let combined_input := avg_features ++ cache_hit_rates self in
        adjustment_factors <- nn.Sequential_forward (BaseMoERouter.training (base self))
                                (λ _, true) net combined_input;
        Ok (replicate seq_len adjustment_factors)) <$> hidden_states)
  | _, _ => Ok (map_tokens (λ logits : Tensor1, zeros1 (length logits)) router_logits)
  end.

(** [a + b] on two [[B, S, E]] tensors of one shape. *)
Definition add3 (a b : Tensor3) : Tensor3 :=
  zip_with (zip_with (zip_with Qcplus)) a b.

Definition forward `{!Transcendental} (self : t) (hidden_states : Tensor3)
    (expert_mask : option Tensor1) (keep keep_importance : nat → nat → nat → bool)
  : result (Tensor4 * Tensor4 * Tensor3 * Qc * Tensor2 * t) :=
  let batch_size := dim0 hidden_states in
  let seq_len := dim1 hidden_states in
  router_logits <- nn.Sequential_forward3 (BaseMoERouter.training (base self)) keep
                     (BaseMoERouter.router (base self)) hidden_states;
  router_logits <-
    (if cache_aware self then
       cache_adjustments <- _compute_cache_aware_adjustment self hidden_states router_logits;
       Ok (add3 router_logits cache_adjustments)
     else Ok router_logits);
  router_logits <- apply_expert_mask expert_mask router_logits;
  let router_probs := map_tokens nn.softmax router_logits in
  importance <- AdaptiveRouter._compute_importance (adaptive self) hidden_states
                  keep_importance;
  current_top_k <- AdaptiveRouter._adapt_top_k (adaptive self) hidden_states importance;
  '(top_k_probs, top_k_indices) <- topk3 router_probs current_top_k;
  let top_k_probs := renormalize top_k_probs in
  let original_top_k := BaseMoERouter.top_k (base self) in
  let self := with_adaptive (AdaptiveRouter.with_base
                (BaseMoERouter.with_top_k current_top_k (base self)) (adaptive self)) self in
  '(dispatch_tensor, combine_tensor) <-
    BaseMoERouter._create_dispatch_combine_tensors (base self) top_k_indices top_k_probs
      batch_size seq_len;
  let self := with_adaptive (AdaptiveRouter.with_base
                (BaseMoERouter.with_top_k original_top_k (base self)) (adaptive self)) self in
  aux_loss <- BaseMoERouter._compute_load_balancing_loss (base self) router_probs
                (Some top_k_indices);
  (* the statistics update: the tokens and the usage counts only *)
  let tokens := BaseMoERouter.total_tokens (base self) + qn (batch_size * seq_len) in
  usage <- for_each (range (BaseMoERouter.num_experts (base self))) (λ expert_idx usage,
             add_at expert_idx (qn (count_expert top_k_indices expert_idx)) usage)
             (BaseMoERouter.expert_usage_count (base self));
  let self := with_adaptive (AdaptiveRouter.with_base
                (BaseMoERouter.with_stats tokens usage
                   (BaseMoERouter.routing_decisions (base self)) (base self))
                (adaptive self)) self in
  Ok (dispatch_tensor, combine_tensor, router_probs, aux_loss, importance, self).

End PiKVMoERouter.

(** ** [class EPLBRouter(BaseMoERouter)] *)

Module EPLBRouter.

Record t : Type := {
  base : BaseMoERouter.t;
  balance_coefficient : Qc;
  temperature : Qc;
  (* registered buffers *)
  expert_weights : Tensor1;          (* [num_experts], ones at first *)
  expert_load_history : Tensor2;     (* [num_experts, 50] *)
  load_history_idx : nat
}.

Definition __init__ (g : nn.Rng) (hidden_size num_experts top_k : nat)
    (capacity_factor : float) (dropout balance_coefficient temperature : Qc) : t :=
  {| base := BaseMoERouter.__init__ g hidden_size num_experts top_k capacity_factor dropout;
     balance_coefficient := balance_coefficient;
     temperature := temperature;
     expert_weights := replicate num_experts 1;
     expert_load_history := zeros2 num_experts 50;
     load_history_idx := 0%nat |}.

(** [torch.clamp(x, lo, hi)] *)
Definition clamp (lo hi x : Qc) : Qc := qmin hi (qmax lo x).

Definition _update_expert_weights (self : t) (expert_usage : Tensor1) : t :=
  let idx := (load_history_idx self mod 50)%nat in
  (* [self.expert_load_history[:, idx] = expert_usage] *)
  let history := zip_with (λ (row : Tensor1) u, <[idx := u]> row)
                   (expert_load_history self) expert_usage in
  let load_history_idx := S (load_history_idx self) in
  let valid_entries := Nat.min load_history_idx 50 in
  let weights :=
    if decide (0 < valid_entries)%nat then
      let avg_loads := (λ row : Tensor1, mean (take valid_entries row)) <$> history in
      let target_load := mean avg_loads in
      let weight_adjustments :=
        (λ a, 1 - (a - target_load) / (target_load + 1 / qz (10 ^ 8))) <$> avg_loads in
      let smoothed :=
        zip_with (λ w a, qz 9 / qz 10 * w + 1 / qz 10 * a)
          (expert_weights self) weight_adjustments in
      clamp (1 / qz 10) (qz 2) <$> smoothed
    else expert_weights self in
  {| base := base self; balance_coefficient := balance_coefficient self;
     temperature := temperature self;
     expert_weights := weights;
     expert_load_history := history;
     load_history_idx := load_history_idx |}.

(** The assignment count of every expert, as a tensor. *)
Definition expert_counts (num_experts : nat) (indices : list (list (list nat))) : Tensor1 :=
  (λ expert_idx, qn (count_expert indices expert_idx)) <$> range num_experts.

Definition _compute_exact_balance_loss (self : t) (router_probs : Tensor3)
    (expert_indices : list (list (list nat))) : Qc :=
  let counts := expert_counts (BaseMoERouter.num_experts (base self)) expert_indices in
  let total_assignments := qsum counts in
  let target_count := total_assignments / qn (BaseMoERouter.num_experts (base self)) in
  let balance_loss :=
    qsum ((λ c, (c - target_count) * (c - target_count)) <$> counts) / total_assignments in
  balance_coefficient self * balance_loss.

Definition forward `{!Transcendental} (self : t) (hidden_states : Tensor3)
    (expert_mask : option Tensor1) (keep : nat → nat → nat → bool)
  : result (Tensor4 * Tensor4 * Tensor3 * Qc * t) :=
  let batch_size := dim0 hidden_states in
  let seq_len := dim1 hidden_states in
  router_logits <- nn.Sequential_forward3 (BaseMoERouter.training (base self)) keep
                     (BaseMoERouter.router (base self)) hidden_states;
  let router_logits :=
    map_tokens (λ logits : Tensor1, zip_with Qcmult logits (expert_weights self))
      router_logits in
  let router_logits :=
    map_tokens (λ logits : Tensor1, (λ l, l / temperature self) <$> logits) router_logits in
  router_logits <- apply_expert_mask expert_mask router_logits;
  let router_probs := map_tokens nn.softmax router_logits in
  '(top_k_probs, top_k_indices) <- topk3 router_probs (BaseMoERouter.top_k (base self));
  let top_k_probs := renormalize top_k_probs in
  '(dispatch_tensor, combine_tensor) <-
    BaseMoERouter._create_dispatch_combine_tensors (base self) top_k_indices top_k_probs
      batch_size seq_len;
  let aux_loss := _compute_exact_balance_loss self router_probs top_k_indices in
  let expert_usage := expert_counts (BaseMoERouter.num_experts (base self)) top_k_indices in
  let self := _update_expert_weights self expert_usage in
  Ok (dispatch_tensor, combine_tensor, router_probs, aux_loss, self).

End EPLBRouter.

(** ** Boolean-mask indexing *)

(** The positions of [True] in a mask row, from column [i] on. *)
Fixpoint where_from (i : nat) (row : list bool) : list nat :=
  match row with
  | [] => []
  | m :: row' => (if m then [i] else []) ++ where_from (S i) row'
  end.

(** [torch.where(mask)] on a [[B, S]] mask: the [(b, s)] positions that hold,
    in row-major order; [where_rows b] numbers the rows from [b] on. *)
Fixpoint where_rows (b : nat) (mask : list (list bool)) : list (nat * nat) :=
  match mask with
  | [] => []
  | row :: mask' => ((λ s, (b, s)) <$> where_from 0 row) ++ where_rows (S b) mask'
  end.

Definition where2 (mask : list (list bool)) : list (nat * nat) := where_rows 0 mask.

(** [t[mask]]: the entries of [t] at the positions of the mask. *)
Definition gather {A : Type} (t : list (list A)) (positions : list (nat * nat))
  : result (list A) :=
  map_result (λ '(b, s), row <- get t b; get row s) positions.

(** [t[batch_indices, seq_indices, e] = values] *)
Definition scatter (t : Tensor3) (positions : list (nat * nat)) (e : nat)
    (values : Tensor1) : Tensor3 :=
  foldl (λ t '(b, s, v), set3 b s e v t) t (zip positions values).

(** [t[:, :, j]] of a [[B, S, K]] tensor. *)
Definition select_rank {A : Type} (t : list (list (list A))) (j : nat)
  : result (list (list A)) :=
  sequence ((λ row : list (list A), sequence ((λ tok : list A, get tok j) <$> row)) <$> t).

(** ** [class HierarchicalRouter(BaseMoERouter)] *)

Module HierarchicalRouter.

Record t : Type := {
  base : BaseMoERouter.t;
  num_groups : nat;
  group_top_k : nat;
  experts_per_group : nat;
  group_router : nn.Sequential;
  intra_group_routers : list nn.Sequential
}.

Definition _init_hierarchical_weights (g : nn.Rng) (self : t) : t :=
  {| base := base self; num_groups := num_groups self;
     group_top_k := group_top_k self;
     experts_per_group := experts_per_group self;
     group_router := BaseMoERouter.init_linear_layers g 12 (group_router self);
     intra_group_routers :=
       imap (λ j net, BaseMoERouter.init_linear_layers g (20 + 8 * j + 4) net)
         (intra_group_routers self) |}.

(** [num_experts // num_groups] raises on [num_groups = 0]. *)
Definition __init__ (g : nn.Rng) (hidden_size num_experts top_k : nat)
    (capacity_factor : float) (dropout : Qc) (num_groups group_top_k : nat) : result t :=
  let base := BaseMoERouter.__init__ g hidden_size num_experts top_k capacity_factor dropout in
  if decide (num_groups = 0%nat) then Raise ZeroDivisionError else
  let experts_per_group := (num_experts / num_groups)%nat in
  Ok (_init_hierarchical_weights g
    {| base := base;
       num_groups := num_groups;
       group_top_k := group_top_k;
       experts_per_group := experts_per_group;
       group_router :=
         [ nn.LinearL (nn.Linear_new g 8 hidden_size (hidden_size / 2));
           nn.ReLU;
           nn.Dropout dropout;
           nn.LinearL (nn.Linear_new g 10 (hidden_size / 2) num_groups) ];
       intra_group_routers :=
         (λ j, [ nn.LinearL (nn.Linear_new g (20 + 8 * j) hidden_size (hidden_size / 4));
                 nn.ReLU;
                 nn.LinearL (nn.Linear_new g (20 + 8 * j + 2) (hidden_size / 4)
                               experts_per_group) ])
         <$> range num_groups |}).

(** First stage: the group probabilities of every token and its
    [min(group_top_k, num_groups)] best groups. *)
Definition group_stage `{!Transcendental} (self : t) (hidden_states : Tensor3)
    (keep : nat → nat → nat → bool)
  : result (Tensor3 * Tensor3 * list (list (list nat))) :=
  group_logits <- nn.Sequential_forward3 (BaseMoERouter.training (base self)) keep
                    (group_router self) hidden_states;
  let group_probs := map_tokens nn.softmax group_logits in
  '(top_group_probs, top_group_indices) <-
    topk3 group_probs (Nat.min (group_top_k self) (num_groups self));
  Ok (group_probs, top_group_probs, top_group_indices).

(** The body of [for g in range(self.num_groups)]: the tokens whose current
    group is [g] are routed inside the group, and their composed
    probabilities are written at the experts of the group. *)
Definition route_group `{!Transcendental} (self : t) (hidden_states : Tensor3)
    (current_group_indices : list (list nat)) (current_group_probs : Tensor2)
    (g : nat) (final_expert_probs : Tensor3) : result Tensor3 :=
  let group_mask := map_tokens (λ i, bool_decide (i = g)) current_group_indices in
  let positions := where2 group_mask in
  (* [if not group_mask.any(): continue] *)
  if decide (positions = []) then Ok final_expert_probs else
  group_hidden <- gather hidden_states positions;
  if decide (length group_hidden = 0%nat) then Ok final_expert_probs else
  router_g <- get (intra_group_routers self) g;
  intra_group_logits <-
    map_result (nn.Sequential_forward (BaseMoERouter.training (base self)) (λ _, true)
                  router_g) group_hidden;
  let intra_group_probs := nn.softmax <$> intra_group_logits in
  group_prob_values <- gather current_group_probs positions;
  let final_intra_probs :=
    zip_with (λ (q : Tensor1) p, (λ v, v * p) <$> q) intra_group_probs group_prob_values in
  let expert_start_idx := (g * experts_per_group self)%nat in
  for_each (range (experts_per_group self)) (λ i final_expert_probs,
    let expert_idx := (expert_start_idx + i)%nat in
    if decide (expert_idx < BaseMoERouter.num_experts (base self))%nat then
      if decide (0 < length positions)%nat then
        values <- map_result (λ q : Tensor1, get q i) final_intra_probs;
        Ok (scatter final_expert_probs positions expert_idx values)
      else Ok final_expert_probs
    else Ok final_expert_probs) final_expert_probs.

(** Second stage: the composed probability of every expert for every token. *)
Definition compose `{!Transcendental} (self : t) (hidden_states : Tensor3)
    (top_group_probs : Tensor3) (top_group_indices : list (list (list nat)))
  : result Tensor3 :=
  let batch_size := dim0 hidden_states in
  let seq_len := dim1 hidden_states in
  for_each (range (Nat.min (group_top_k self) (num_groups self)))
    (λ group_idx final_expert_probs,
      current_group_indices <- select_rank top_group_indices group_idx;
      current_group_probs <- select_rank top_group_probs group_idx;
      for_each (range (num_groups self))
        (route_group self hidden_states current_group_indices current_group_probs)
        final_expert_probs)
    (zeros3 batch_size seq_len (BaseMoERouter.num_experts (base self))).

Definition _compute_group_balance_loss (self : t) (group_probs : Tensor3)
    (group_indices : list (list (list nat))) : result Qc :=
  let group_prob_per_group := mean_dim01 group_probs in
  group_usage_rate <- BaseMoERouter.one_hot_mean (Some group_indices) (num_groups self);
  let balance_loss := qsum (zip_with Qcmult group_prob_per_group group_usage_rate) in
  Ok (balance_loss * qn (num_groups self)).

Definition forward `{!Transcendental} (self : t) (hidden_states : Tensor3)
    (expert_mask : option Tensor1) (keep : nat → nat → nat → bool)
  : result (Tensor4 * Tensor4 * Tensor3 * Qc * t) :=
  let batch_size := dim0 hidden_states in
  let seq_len := dim1 hidden_states in
  '(group_probs, top_group_probs, top_group_indices) <-
    group_stage self hidden_states keep;
  final_expert_probs <- compose self hidden_states top_group_probs top_group_indices;
  '(top_k_probs, top_k_indices) <-
    topk3 final_expert_probs (BaseMoERouter.top_k (base self));
  let top_k_probs := renormalize top_k_probs in
  '(dispatch_tensor, combine_tensor) <-
    BaseMoERouter._create_dispatch_combine_tensors (base self) top_k_indices top_k_probs
      batch_size seq_len;
  group_balance_loss <- _compute_group_balance_loss self group_probs top_group_indices;
  expert_balance_loss <- BaseMoERouter._compute_load_balancing_loss (base self)
                           final_expert_probs (Some top_k_indices);
  let aux_loss := group_balance_loss + expert_balance_loss in
  Ok (dispatch_tensor, combine_tensor, final_expert_probs, aux_loss, self).

End HierarchicalRouter.

(** ** [class MoERouterPress(BasePress)] *)

Module MoERouterPress.

(** A router of any of the six classes. *)
Inductive Router : Type :=
  | Base (r : BaseMoERouter.t)
  | TopKBalanced (r : TopKBalancedRouter.t)
  | Adaptive (r : AdaptiveRouter.t)
  | PiKV (r : PiKVMoERouter.t)
  | EPLB (r : EPLBRouter.t)
  | Hierarchical (r : HierarchicalRouter.t).

(** The [BaseMoERouter] part every router inherits. *)
Definition base_of (router : Router) : BaseMoERouter.t :=
  match router with
  | Base r => r
  | TopKBalanced r => TopKBalancedRouter.base r
  | Adaptive r => AdaptiveRouter.base r
  | PiKV r => PiKVMoERouter.base r
  | EPLB r => EPLBRouter.base r
  | Hierarchical r => HierarchicalRouter.base r
  end.

Definition with_base_of (b : BaseMoERouter.t) (router : Router) : Router :=
  match router with
  | Base _ => Base b
  | TopKBalanced r =>
      TopKBalanced
        {| TopKBalancedRouter.base := b;
           TopKBalancedRouter.balance_coefficient := TopKBalancedRouter.balance_coefficient r;
           TopKBalancedRouter.balance_mode := TopKBalancedRouter.balance_mode r;
           TopKBalancedRouter.balance_loss_history := TopKBalancedRouter.balance_loss_history r;
           TopKBalancedRouter.balance_loss_idx := TopKBalancedRouter.balance_loss_idx r |}
  | Adaptive r => Adaptive (AdaptiveRouter.with_base b r)
  | PiKV r =>
      PiKV (PiKVMoERouter.with_adaptive
              (AdaptiveRouter.with_base b (PiKVMoERouter.adaptive r)) r)
  | EPLB r =>
      EPLB
        {| EPLBRouter.base := b;
           EPLBRouter.balance_coefficient := EPLBRouter.balance_coefficient r;
           EPLBRouter.temperature := EPLBRouter.temperature r;
           EPLBRouter.expert_weights := EPLBRouter.expert_weights r;
           EPLBRouter.expert_load_history := EPLBRouter.expert_load_history r;
           EPLBRouter.load_history_idx := EPLBRouter.load_history_idx r |}
  | Hierarchical r =>
      Hierarchical
        {| HierarchicalRouter.base := b;
           HierarchicalRouter.num_groups := HierarchicalRouter.num_groups r;
           HierarchicalRouter.group_top_k := HierarchicalRouter.group_top_k r;
           HierarchicalRouter.experts_per_group := HierarchicalRouter.experts_per_group r;
           HierarchicalRouter.group_router := HierarchicalRouter.group_router r;
           HierarchicalRouter.intra_group_routers :=
             HierarchicalRouter.intra_group_routers r |}
  end.

(** [router.get_routing_stats()] and [router.reset_stats()]: no subclass
    overrides them, so both are [BaseMoERouter]'s. *)
Definition router_get_routing_stats (router : Router) : BaseMoERouter.routing_stats :=
  BaseMoERouter.get_routing_stats (base_of router).

Definition router_reset_stats (router : Router) : Router :=
  with_base_of (BaseMoERouter.reset_stats (base_of router)) router.

(** One entry of [self.expert_compression_stats]. *)
Record compression_stats : Type := {
  expert_usage : Tensor1;
  compression_ratios : Tensor1;
  cache_hit_rates : Tensor1
}.

Record t : Type := {
  (* dataclass fields *)
  num_experts : nat;
  top_k : nat;
  capacity_factor : float;
  dropout : Qc;
  router_type : string;
  cache_aware : bool;
  compression_ratio : float;
  aux_loss_weight : Qc;
  balance_coefficient : Qc;
  balance_mode : string;
  importance_threshold : Qc;
  adaptive_top_k : bool;
  temperature : Qc;
  num_groups : nat;
  group_top_k : nat;
  (* set by [__post_init__] *)
  routers : gmap nat Router;
  expert_compression_stats : gmap nat compression_stats;
  total_aux_loss : Qc;
  forward_count : nat;
  expert_strategies : gmap nat string
}.

Definition with_state (rs : gmap nat Router) (cs : gmap nat compression_stats)
    (loss : Qc) (count : nat) (self : t) : t :=
  {| num_experts := num_experts self; top_k := top_k self;
     capacity_factor := capacity_factor self; dropout := dropout self;
     router_type := router_type self; cache_aware := cache_aware self;
     compression_ratio := compression_ratio self;
     aux_loss_weight := aux_loss_weight self;
     balance_coefficient := balance_coefficient self;
     balance_mode := balance_mode self;
     importance_threshold := importance_threshold self;
     adaptive_top_k := adaptive_top_k self; temperature := temperature self;
     num_groups := num_groups self; group_top_k := group_top_k self;
     routers := rs; expert_compression_stats := cs;
     total_aux_loss := loss; forward_count := count;
     expert_strategies := expert_strategies self |}.

Definition __post_init__ (self : t) : t :=
  {| num_experts := num_experts self; top_k := top_k self;
     capacity_factor := capacity_factor self; dropout := dropout self;
     router_type := router_type self; cache_aware := cache_aware self;
     compression_ratio := compression_ratio self;
     aux_loss_weight := aux_loss_weight self;
     balance_coefficient := balance_coefficient self;
     balance_mode := balance_mode self;
     importance_threshold := importance_threshold self;
     adaptive_top_k := adaptive_top_k self; temperature := temperature self;
     num_groups := num_groups self; group_top_k := group_top_k self;
     routers := ∅;
     expert_compression_stats := ∅;
     total_aux_loss := 0;
     forward_count := 0%nat;
     expert_strategies :=
       <[0%nat := "aggressive"]> (<[1%nat := "moderate"]>
         (<[2%nat := "conservative"]> (<[3%nat := "selective"]> ∅))) |}.

(** The dataclass constructor with its defaults, then [__post_init__]. *)
Definition defaults : t :=
  __post_init__
    {| num_experts := 4; top_k := 2; capacity_factor := 1.5%float;
       dropout := 1 / qz 10; router_type := "pikv"; cache_aware := true;
       compression_ratio := 0.5%float; aux_loss_weight := 1 / qz 100;
       balance_coefficient := 1 / qz 100; balance_mode := "entropy";
       importance_threshold := 1 / qz 2; adaptive_top_k := true;
       temperature := 1; num_groups := 4; group_top_k := 1;
       routers := ∅; expert_compression_stats := ∅;
       total_aux_loss := 0; forward_count := 0%nat; expert_strategies := ∅ |}.

(** The router of a layer, built on first use. *)
Definition _get_router (g : nn.Rng) (self : t) (layer_idx hidden_size : nat)
  : result (Router * t) :=
  match routers self !! layer_idx with
  | Some router => Ok (router, self)
  | None =>
      router <-
        (if decide (router_type self = "topk_balanced") then
           Ok (TopKBalanced (TopKBalancedRouter.__init__ g hidden_size (num_experts self)
                 (top_k self) (capacity_factor self) (dropout self)
                 (balance_coefficient self) (balance_mode self)))
         else if decide (router_type self = "adaptive") then
           Ok (Adaptive (AdaptiveRouter.__init__ g hidden_size (num_experts self)
                 (top_k self) (capacity_factor self) (dropout self)
                 (importance_threshold self) (adaptive_top_k self)))
         else if decide (router_type self = "pikv") then
           Ok (PiKV (PiKVMoERouter.__init__ g hidden_size (num_experts self)
                 (top_k self) (capacity_factor self) (dropout self)
                 (importance_threshold self) (cache_aware self) 100))
         else if decide (router_type self = "eplb") then
           Ok (EPLB (EPLBRouter.__init__ g hidden_size (num_experts self)
                 (top_k self) (capacity_factor self) (dropout self)
                 (balance_coefficient self) (temperature self)))
         else if decide (router_type self = "hierarchical") then
           r <- HierarchicalRouter.__init__ g hidden_size (num_experts self)
                  (top_k self) (capacity_factor self) (dropout self)
                  (num_groups self) (group_top_k self);
           Ok (Hierarchical r)
         else
           Ok (Base (BaseMoERouter.__init__ g hidden_size (num_experts self)
                 (top_k self) (capacity_factor self) (dropout self))));
      Ok (router,
          with_state (<[layer_idx := router]> (routers self))
            (<[layer_idx := {| expert_usage := zeros1 (num_experts self);
                               compression_ratios := zeros1 (num_experts self);
                               cache_hit_rates := zeros1 (num_experts self) |}]>
               (expert_compression_stats self))
            (total_aux_loss self) (forward_count self) self)
  end.

(** [keys[:, :, :n]], [keys[:, :, -n:]] (for [n >= 1]) and
    [torch.cat([a, b], dim=2)] on [[B, heads, S, D]] tensors. *)
Definition slice_front (n : nat) (t : Tensor4) : Tensor4 :=
  map_tokens (λ row : Tensor2, take n row) t.
Definition slice_back (n : nat) (t : Tensor4) : Tensor4 :=
  map_tokens (λ row : Tensor2, drop (length row - n) row) t.
Definition cat2 (a b : Tensor4) : Tensor4 := zip_with (zip_with app) a b.

(** [t[:, :, indices, :]]; [IndexError] on an index past the sequence. *)
Definition index_select (indices : list nat) (t : Tensor4) : result Tensor4 :=
  sequence ((λ heads : list Tensor2,
    sequence ((λ row : Tensor2, map_result (get row) indices) <$> heads)) <$> t).

(** [max(1, int(seq_len * fraction))] *)
Definition keep_count (seq_len : nat) (fraction : float) : result nat :=
  n <- py_int (float_of_nat seq_len * fraction)%float;
  Ok (Z.to_nat (Z.max 1 n)).

(** The three strategies that keep both ends of the sequence. *)
Definition keep_ends (keys values : Tensor4) (front back : float)
  : result (Tensor4 * Tensor4) :=
  let seq_len := dim2 keys in
  keep_front <- keep_count seq_len front;
  keep_back <- keep_count seq_len back;
  if decide (keep_front + keep_back < seq_len)%nat then
    Ok (cat2 (slice_front keep_front keys) (slice_back keep_back keys),
        cat2 (slice_front keep_front values) (slice_back keep_back values))
  else Ok (keys, values).

(** [t.mean(dim=0)] of a [[B, S, E]] tensor: [[S, E]]. *)
Definition mean_dim0 (t : Tensor3) : Tensor2 :=
  (λ s, mean_rows ((λ m : Tensor2, m !!! s) <$> t)) <$> range (dim1 t).

(** [torch.linspace(0, 1, n)] *)
Definition linspace01 (n : nat) : Tensor1 := (λ i, qn i / qn (n - 1)) <$> range n.

(** The scores the selective strategy ranks the positions by.  For the
    rank-3 [router_probs] of a router the two means leave a vector, so the
    branches on [importance_scores.dim()] do nothing. *)
Definition importance_scores (router_probs : Tensor3) (seq_len : nat) : Tensor1 :=
  let importance_scores := mean_dim0 router_probs in
  let importance_scores := mean <$> importance_scores in
  if decide (length importance_scores ≠ seq_len) then linspace01 seq_len
  else importance_scores.

(** [min(max(1, int(seq_len * (1 - self.compression_ratio))), seq_len)] *)
Definition num_keep (self : t) (seq_len : nat) : result nat :=
  n <- py_int (float_of_nat seq_len * (1 - compression_ratio self))%float;
  let num_keep := Z.to_nat (Z.max 1 n) in
  Ok (Nat.min num_keep seq_len).

(** The positions the selective strategy keeps, in ascending order. *)
Definition important_indices (self : t) (router_probs : Tensor3) (seq_len : nat)
  : result (list nat) :=
  num_keep <- num_keep self seq_len;
  '(_, important_indices) <- topk (importance_scores router_probs seq_len) num_keep;
  Ok (sort_nat important_indices).

Definition _apply_expert_compression (self : t) (keys values : Tensor4)
    (strategy : string) (router_probs : Tensor3) : result (Tensor4 * Tensor4) :=
  let seq_len := dim2 keys in
  if decide (strategy = "aggressive") then keep_ends keys values 0.2 0.1
  else if decide (strategy = "moderate") then keep_ends keys values 0.3 0.2
  else if decide (strategy = "conservative") then keep_ends keys values 0.5 0.3
  else if decide (strategy = "selective") then
    important_indices <- important_indices self router_probs seq_len;
    keys <- index_select important_indices keys;
    values <- index_select important_indices values;
    Ok (keys, values)
  else Ok (keys, values).

(** [min(1.0, keys.shape[2] / 1000.0)] *)
Definition _compute_cache_hit_rate (keys values : Tensor4) : Qc :=
  qmin 1 (qn (dim2 keys) / qz 1000).

(** The dropout noise of one call: of the scoring network and of the
    importance predictor. *)
Record Noise : Type := {
  keep_router : nat → nat → nat → bool;
  keep_importance : nat → nat → nat → bool
}.

(** [router(hidden_states, expert_mask=None)] by the class of the router:
    the routing probabilities, the auxiliary loss and the router after the
    call. *)
Definition route `{!Transcendental} (router : Router) (hidden_states : Tensor3)
    (noise : Noise) : result (Tensor3 * Qc * Router) :=
  match router with
  | Adaptive r =>
      '(_, _, router_probs, aux_loss, _, r') <-
        AdaptiveRouter.forward r hidden_states None (keep_router noise)
          (keep_importance noise);
      Ok (router_probs, aux_loss, Adaptive r')
  | PiKV r =>
      '(_, _, router_probs, aux_loss, _, r') <-
        PiKVMoERouter.forward r hidden_states None (keep_router noise)
          (keep_importance noise);
      Ok (router_probs, aux_loss, PiKV r')
  | Base r =>
      '(_, _, router_probs, aux_loss, r') <-
        BaseMoERouter.forward r hidden_states None (keep_router noise);
      Ok (router_probs, aux_loss, Base r')
  | TopKBalanced r =>
      '(_, _, router_probs, aux_loss, r') <-
        TopKBalancedRouter.forward r hidden_states None (keep_router noise);
      Ok (router_probs, aux_loss, TopKBalanced r')
  | EPLB r =>
      '(_, _, router_probs, aux_loss, r') <-
        EPLBRouter.forward r hidden_states None (keep_router noise);
      Ok (router_probs, aux_loss, EPLB r')
  | Hierarchical r =>
      '(_, _, router_probs, aux_loss, r') <-
        HierarchicalRouter.forward r hidden_states None (keep_router noise);
      Ok (router_probs, aux_loss, Hierarchical r')
  end.

Definition compress `{!Transcendental} (g : nn.Rng) (self : t) (layer_idx : nat)
    (hidden_states : Tensor3) (keys values : Tensor4) (noise : Noise)
  : result (Tensor4 * Tensor4 * t) :=
  let hidden_size := dim2 hidden_states in
  '(router, self) <- _get_router g self layer_idx hidden_size;
  '(router_probs, aux_loss, router) <- route router hidden_states noise;
  let total_aux_loss := total_aux_loss self + aux_loss in
  let forward_count := S (forward_count self) in
  let expert_probs := mean_dim01 router_probs in
  dominant_expert <- argmax expert_probs;
  strategy <- match expert_strategies self !! dominant_expert with
              | Some strategy => Ok strategy
              | None => Raise KeyError
              end;
  '(compressed_keys, compressed_values) <-
    _apply_expert_compression self keys values strategy router_probs;
  stats <- match expert_compression_stats self !! layer_idx with
           | Some stats => Ok stats
           | None => Raise KeyError
           end;
  usage <- add_at dominant_expert 1 (expert_usage stats);
  let original_size := dim2 keys in
  let compressed_size := dim2 compressed_keys in
  if decide (original_size = 0%nat) then Raise ZeroDivisionError else
  let compression_ratio := (qn original_size - qn compressed_size) / qn original_size in
  ratios <- add_at dominant_expert compression_ratio (compression_ratios stats);
  let cache_hit_rate := _compute_cache_hit_rate compressed_keys compressed_values in
  rates <- add_at dominant_expert cache_hit_rate (cache_hit_rates stats);
  let stats := {| expert_usage := usage; compression_ratios := ratios;
                  cache_hit_rates := rates |} in
  let router :=
    match router with
    | PiKV r => PiKV (PiKVMoERouter.update_cache_usage r dominant_expert cache_hit_rate)
    | _ => router
    end in
  Ok (compressed_keys, compressed_values,
      with_state (<[layer_idx := router]> (routers self))
        (<[layer_idx := stats]> (expert_compression_stats self))
        total_aux_loss forward_count self).

(** What [get_stats] returns. *)
Record layer_stats : Type := {
  router_stats : BaseMoERouter.routing_stats;
  layer_compression_stats : compression_stats
}.

Record stats : Type := {
  stats_total_aux_loss : Qc;
  stats_avg_aux_loss : Qc;
  stats_forward_count : nat;
  stats_layer_stats : gmap nat layer_stats
}.

Definition get_stats (self : t) : result stats :=
  layers <- map_result (λ '(layer_idx, router),
              match expert_compression_stats self !! layer_idx with
              | Some cs =>
                  Ok (layer_idx, {| router_stats := router_get_routing_stats router;
                                    layer_compression_stats := cs |})
              | None => Raise KeyError
              end) (map_to_list (routers self));
  Ok {| stats_total_aux_loss := total_aux_loss self;
        stats_avg_aux_loss := total_aux_loss self / qn (Nat.max 1 (forward_count self));
        stats_forward_count := forward_count self;
        stats_layer_stats := list_to_map layers |}.

Definition zero_ (stats : compression_stats) : compression_stats :=
  {| expert_usage := zeros1 (length (expert_usage stats));
     compression_ratios := zeros1 (length (compression_ratios stats));
     cache_hit_rates := zeros1 (length (cache_hit_rates stats)) |}.

Definition reset_stats (self : t) : t :=
  with_state (router_reset_stats <$> routers self)
    (zero_ <$> expert_compression_stats self) 0 0%nat self.

End MoERouterPress.

(** ** A computable instance of [Transcendental]

    The dyadic exponential [2 ^ floor x] and the tangent of the logarithm at
    1.  It makes every definition above run on concrete inputs; at the
    arguments 0 and 1 it agrees with [exp] and [log]. *)

Definition pow2 (z : Z) : Qc :=
  match z with
  | Z0 => 1
  | Zpos p => qz (2 ^ Zpos p)
  | Zneg p => 1 / qz (2 ^ Zpos p)
  end.

Definition dyadic : Transcendental.
Proof.
  refine {| exp := λ x, pow2 (Qfloor x); ln := λ x, x - 1 |}.
  assert (∀ p, 0 < qz (2 ^ Z.pos p)) as Hpos.
  { intros p. unfold Qclt. simpl. unfold Qlt. simpl.
    pose proof (Z.pow_pos_nonneg 2 (Z.pos p)). lia. }
  intros x. destruct (Qfloor x) as [|p|p]; simpl.
  - done.
  - apply Hpos.
  - unfold Qcdiv. rewrite Qcmult_1_l. apply Qcinv_pos, Hpos.
Defined.

(** ** Sample inputs *)

(** Two deterministic stand-ins for the random number generator. *)
Definition ramp_rng : nn.Rng := λ k i j, qn (k + i + 2 * j) / qz 7.
Definition mixed_rng : nn.Rng :=
  λ k i j, (qn ((k + 5 * i + 7 * j) mod 11) - qz 5) / qz 2.

(** No unit dropped. *)
Definition all_kept : nat → nat → nat → bool := λ _ _ _, true.
Definition no_noise : MoERouterPress.Noise :=
  {| MoERouterPress.keep_router := all_kept; MoERouterPress.keep_importance := all_kept |}.

(** Three tokens of hidden size 4, and a one-head cache of [n] positions whose
    entry at position [i] is [i]. *)
Definition sample_hidden : Tensor3 := [[ [1; 0; 0; 0]; [0; 1; 0; 0]; [0; 0; 0; 1] ]].
Definition sample_cache (n : nat) : Tensor4 := [[ (λ i, [qn i]) <$> range n ]].

(** The press with its defaults except for the router class and the number
    of experts. *)
Definition sample_press (router_type : string) (num_experts : nat) : MoERouterPress.t :=
  MoERouterPress.__post_init__
    {| MoERouterPress.num_experts := num_experts;
       MoERouterPress.top_k := 2;
       MoERouterPress.capacity_factor := 1.5%float;
       MoERouterPress.dropout := 1 / qz 10;
       MoERouterPress.router_type := router_type;
       MoERouterPress.cache_aware := true;
       MoERouterPress.compression_ratio := 0.5%float;
       MoERouterPress.aux_loss_weight := 1 / qz 100;
       MoERouterPress.balance_coefficient := 1 / qz 100;
       MoERouterPress.balance_mode := "entropy";
       MoERouterPress.importance_threshold := 1 / qz 2;
       MoERouterPress.adaptive_top_k := true;
       MoERouterPress.temperature := 1;
       MoERouterPress.num_groups := 4;
       MoERouterPress.group_top_k := 1;
       MoERouterPress.routers := ∅;
       MoERouterPress.expert_compression_stats := ∅;
       MoERouterPress.total_aux_loss := 0;
       MoERouterPress.forward_count := 0%nat;
       MoERouterPress.expert_strategies := ∅ |}.

(** The same press with another number of groups. *)
Definition with_num_groups (n : nat) (self : MoERouterPress.t) : MoERouterPress.t :=
  {| MoERouterPress.num_experts := MoERouterPress.num_experts self;
     MoERouterPress.top_k := MoERouterPress.top_k self;
     MoERouterPress.capacity_factor := MoERouterPress.capacity_factor self;
     MoERouterPress.dropout := MoERouterPress.dropout self;
     MoERouterPress.router_type := MoERouterPress.router_type self;
     MoERouterPress.cache_aware := MoERouterPress.cache_aware self;
     MoERouterPress.compression_ratio := MoERouterPress.compression_ratio self;
     MoERouterPress.aux_loss_weight := MoERouterPress.aux_loss_weight self;
     MoERouterPress.balance_coefficient := MoERouterPress.balance_coefficient self;
     MoERouterPress.balance_mode := MoERouterPress.balance_mode self;
     MoERouterPress.importance_threshold := MoERouterPress.importance_threshold self;
     MoERouterPress.adaptive_top_k := MoERouterPress.adaptive_top_k self;
     MoERouterPress.temperature := MoERouterPress.temperature self;
     MoERouterPress.num_groups := n;
     MoERouterPress.group_top_k := MoERouterPress.group_top_k self;
     MoERouterPress.routers := MoERouterPress.routers self;
     MoERouterPress.expert_compression_stats := MoERouterPress.expert_compression_stats self;
     MoERouterPress.total_aux_loss := MoERouterPress.total_aux_loss self;
     MoERouterPress.forward_count := MoERouterPress.forward_count self;
     MoERouterPress.expert_strategies := MoERouterPress.expert_strategies self |}.

(** Router probabilities for one batch entry of 10 tokens and 4 experts:
    token [s] has the value [7 s mod 10] at every expert. *)
Definition sample_probs : Tensor3 :=
  [ (λ s, replicate 4 (qn ((7 * s) mod 10))) <$> range 10 ].

(** A base router of 4 experts that routes every token to one expert. *)
Definition sample_router : BaseMoERouter.t :=
  BaseMoERouter.__init__ ramp_rng 4 4 1 1.5%float 0.

(** A hierarchical router of 8 experts in 4 groups. *)
Definition sample_hierarchical : result HierarchicalRouter.t :=
  HierarchicalRouter.__init__ mixed_rng 4 8 2 1.5%float 0 4 1.

Definition sample_adaptive : AdaptiveRouter.t :=
  AdaptiveRouter.__init__ mixed_rng 4 4 2 1.5%float 0 (1 / qz 2) true.
Definition sample_pikv : PiKVMoERouter.t :=
  PiKVMoERouter.__init__ mixed_rng 4 4 2 1.5%float 0 (1 / qz 2) true 100.

(** ** Observations used in the statements *)

(** Token [(b, s)] of a tensor, if there is one. *)
Definition tok_at {A : Type} (t : list (list A)) (b s : nat) : option A :=
  t !! b ≫= λ row, row !! s.

(** The number of non-zero slots of one expert row. *)
Fixpoint written (slots : Tensor1) : nat :=
  match slots with
  | [] => 0%nat
  | v :: slots' => ((if decide (v = 0%Qc) then 0 else 1) + written slots')%nat
  end.

(** The non-zero slots of expert [e] over all tokens of a
    [[B, S, E, capacity]] tensor. *)
Definition assigned (t : Tensor4) (e : nat) : nat :=
  sum_list ((λ row : list Tensor2,
    sum_list ((λ tok : Tensor2, from_option written 0%nat (tok !! e)) <$> row)) <$> t).

(** Entry [[b, s, e, p]] of a rank-4 tensor, if there is one. *)
Definition entry4 (t : Tensor4) (b s e p : nat) : option Qc :=
  tok_at t b s ≫= λ tok, tok !! e ≫= λ slots, slots !! p.

Module Dispatch.
Import BaseMoERouter.

(** What the filling loop maintains: no expert's counter is above the
    capacity, and an expert has at most as many written slots, in either
    tensor, as its counter says. *)
Record inv (capacity : nat) (st : fill) : Prop := {
  inv_used : Forall (λ u, u ≤ capacity)%nat (expert_capacity_used st);
  inv_dispatch : ∀ e,
    (assigned (dispatch_tensor st) e ≤ default 0 (expert_capacity_used st !! e))%nat;
  inv_combine : ∀ e,
    (assigned (combine_tensor st) e ≤ default 0 (expert_capacity_used st !! e))%nat
}.

(** The selections a filling loop can read: every choice [k] of every token
    names an expert of the router and has a probability. *)
Definition valid_choices (E B S K : nat) (idx : list (list (list nat)))
    (probs : Tensor3) : Prop :=
  ∀ b s k, (b < B)%nat → (s < S)%nat → (k < K)%nat →
    ∃ e p, get3 idx b s k = Ok e ∧ (e < E)%nat ∧ get3 probs b s k = Ok p.

(** How the entries of the two tensors of a filling state go together: both
    have an entry exactly at the positions of a [[B, S, E, C]] tensor, a
    dispatch entry is 0 or 1, and where it is 0 the combine entry is 0. *)
Record entries (B S E C : nat) (st : fill) : Prop := {
  entries_dispatch_shape : ∀ b s e p,
    is_Some (entry4 (dispatch_tensor st) b s e p) ↔ (b < B ∧ s < S ∧ e < E ∧ p < C)%nat;
  entries_combine_shape : ∀ b s e p,
    is_Some (entry4 (combine_tensor st) b s e p) ↔ (b < B ∧ s < S ∧ e < E ∧ p < C)%nat;
  entries_binary : ∀ b s e p v,
    entry4 (dispatch_tensor st) b s e p = Some v → v = 0 ∨ v = 1;
  entries_combine_zero : ∀ b s e p,
    entry4 (dispatch_tensor st) b s e p = Some 0 →
    entry4 (combine_tensor st) b s e p = Some 0
}.

(** The quotient [_compute_capacity] truncates. *)
Definition capacity_quotient (self : t) (batch_size seq_len : nat) : float :=
  (float_of_nat (batch_size * seq_len) * capacity_factor self
   * float_of_nat (top_k self) / float_of_nat (num_experts self))%float.

End Dispatch.

Module Observe.
Import MoERouterPress.

Definition option_list {A : Type} (o : option A) : list A :=
  match o with
  | Some a => [a]
  | None => []
  end.

(** The learned networks of a router. *)
Definition networks (router : Router) : list nn.Sequential :=
  match router with
  | Base r => [BaseMoERouter.router r]
  | TopKBalanced r => [BaseMoERouter.router (TopKBalancedRouter.base r)]
  | Adaptive r =>
      BaseMoERouter.router (AdaptiveRouter.base r)
      :: AdaptiveRouter.importance_predictor r
      :: option_list (AdaptiveRouter.top_k_predictor r)
  | PiKV r =>
      BaseMoERouter.router (PiKVMoERouter.base r)
      :: AdaptiveRouter.importance_predictor (PiKVMoERouter.adaptive r)
      :: option_list (AdaptiveRouter.top_k_predictor (PiKVMoERouter.adaptive r))
      ++ option_list (PiKVMoERouter.cache_router_adjustment r)
  | EPLB r => [BaseMoERouter.router (EPLBRouter.base r)]
  | Hierarchical r =>
      BaseMoERouter.router (HierarchicalRouter.base r)
      :: HierarchicalRouter.group_router r
      :: HierarchicalRouter.intra_group_routers r
  end.

(** The circular histories of a router, row by row, and their write
    cursors. *)
Definition histories (router : Router) : list Tensor1 * list nat :=
  match router with
  | Base _ => ([], [])
  | TopKBalanced r =>
      ([TopKBalancedRouter.balance_loss_history r], [TopKBalancedRouter.balance_loss_idx r])
  | Adaptive r =>
      ([AdaptiveRouter.importance_history r], [AdaptiveRouter.importance_idx r])
  | PiKV r =>
      (AdaptiveRouter.importance_history (PiKVMoERouter.adaptive r)
       :: PiKVMoERouter.cache_usage_history r,
       [AdaptiveRouter.importance_idx (PiKVMoERouter.adaptive r);
        PiKVMoERouter.cache_update_counter r])
  | EPLB r => (EPLBRouter.expert_load_history r, [EPLBRouter.load_history_idx r])
  | Hierarchical _ => ([], [])
  end.

(** A history is empty when nothing was written: cursor 0 and all entries 0. *)
Definition histories_empty (router : Router) : Prop :=
  Forall (Forall (λ v, v = 0)) (histories router).1 ∧
  Forall (λ i, i = 0%nat) (histories router).2.

Definition all_zero (t : Tensor1) : Prop := Forall (λ v, v = 0) t.

(** Every counter of a [get_stats] result is 0. *)
Definition stats_zero (s : stats) : Prop :=
  stats_total_aux_loss s = 0 ∧ stats_avg_aux_loss s = 0 ∧
  stats_forward_count s = 0%nat ∧
  ∀ layer_idx ls, stats_layer_stats s !! layer_idx = Some ls →
    BaseMoERouter.stats_total_tokens (router_stats ls) = 0 ∧
    all_zero (BaseMoERouter.stats_expert_usage_count (router_stats ls)) ∧
    all_zero (BaseMoERouter.stats_expert_usage_ratios (router_stats ls)) ∧
    all_zero (BaseMoERouter.stats_routing_decisions (router_stats ls)) ∧
    all_zero (expert_usage (layer_compression_stats ls)) ∧
    all_zero (compression_ratios (layer_compression_stats ls)) ∧
    all_zero (cache_hit_rates (layer_compression_stats ls)).

(** Every layer with a router has its statistics record, as [_get_router]
    leaves the two dictionaries. *)
Definition registered (self : t) : Prop :=
  ∀ layer_idx, is_Some (routers self !! layer_idx) →
    is_Some (expert_compression_stats self !! layer_idx).

(** The count of kept positions as the specification words it:
    [max(1, min(seq_len, int(seq_len * (1 - compression_ratio))))]. *)
Definition claimed_num_keep (self : t) (seq_len : nat) : result nat :=
  n <- py_int (float_of_nat seq_len * (1 - compression_ratio self))%float;
  Ok (Z.to_nat (Z.max 1 (Z.min (Z.of_nat seq_len) n))).

(** The row of a token after the experts of one group were written:
    [values] at the experts [start, start + experts_per_group) that exist. *)
Definition write_group (num_experts start experts_per_group : nat) (values row : Tensor1)
  : Tensor1 :=
  foldl (λ row i,
    if decide (start + i < num_experts)%nat then <[(start + i)%nat := values !!! i]> row
    else row) row (range experts_per_group).

(** All rows of a [[B, heads, S, D]] tensor have [seq_len] positions. *)
Definition rows_of_length (seq_len : nat) (t : Tensor4) : Prop :=
  Forall (Forall (λ row : Tensor2, length row = seq_len)) t.

End Observe.
(** * Properties *)

(** ** The error monad and loops *)

Lemma bind_Ok {A B : Type} (m : result A) (f : A → result B) (b : B) :
  bind m f = Ok b → ∃ a, m = Ok a ∧ f a = Ok b.
Proof. destruct m as [a|e]; simpl; [eauto | discriminate]. Qed.

Ltac inv_bind H :=
  let a := fresh "a" in
  let Ha := fresh "Ha" in
  apply bind_Ok in H as (a & Ha & H).

Lemma get_Ok {A : Type} (l : list A) (i : nat) (a : A) :
  get l i = Ok a ↔ l !! i = Some a.
Proof. unfold get. destruct (l !! i); split; congruence. Qed.

(** An invariant of the body is an invariant of the loop. *)
Lemma for_each_inv {A S : Type} (P : S → Prop) (xs : list A)
    (body : A → S → result S) (st st' : S) :
  (∀ x s s', x ∈ xs → P s → body x s = Ok s' → P s') →
  P st → for_each xs body st = Ok st' → P st'.
Proof.
  revert st. induction xs as [|x xs IH]; intros st Hbody HP Hrun; simpl in Hrun.
  - congruence.
  - inv_bind Hrun. eapply IH; [| |exact Hrun].
    + intros y s s' Hy. apply Hbody. by right.
    + eapply Hbody; [by left|exact HP|exact Ha].
Qed.

(** A body that cannot fail under the invariant gives a loop that cannot. *)
Lemma for_each_total {A S : Type} (P : S → Prop) (xs : list A)
    (body : A → S → result S) (st : S) :
  (∀ x s, x ∈ xs → P s → ∃ s', body x s = Ok s' ∧ P s') →
  P st → ∃ st', for_each xs body st = Ok st' ∧ P st'.
Proof.
  revert st. induction xs as [|x xs IH]; intros st Hbody HP; simpl.
  - eauto.
  - destruct (Hbody x st) as (s' & Hs' & HP'); [by left|done|].
    rewrite Hs'. simpl. apply IH; [|done].
    intros y s Hy. apply Hbody. by right.
Qed.

(** What a successful comprehension says about its elements. *)
Lemma map_result_Ok {A B : Type} (f : A → result B) (xs : list A) (ys : list B) :
  map_result f xs = Ok ys → Forall2 (λ x y, f x = Ok y) xs ys.
Proof.
  revert ys. induction xs as [|x xs IH]; intros ys H; simpl in H.
  - inversion H. constructor.
  - inv_bind H. inv_bind H. inversion H; subst. constructor; [done|]. by apply IH.
Qed.

Lemma map_result_total {A B : Type} (f : A → result B) (xs : list A) :
  Forall (λ x, ∃ y, f x = Ok y) xs → ∃ ys, map_result f xs = Ok ys.
Proof.
  induction 1 as [|x xs [y Hy] _ [ys IH]]; simpl; [by eexists|].
  rewrite Hy, IH. simpl. by eexists.
Qed.

Lemma elem_of_range (i n : nat) : i ∈ range n ↔ (i < n)%nat.
Proof. unfold range. rewrite elem_of_seq. lia. Qed.

(** ** Truncation of binary64 values *)

Lemma digits2_pos_bound (m : positive) : (Z.pos m < 2 ^ Z.pos (digits2_pos m))%Z.
Proof.
  induction m as [m IH|m IH|]; simpl digits2_pos.
  - rewrite Pos2Z.inj_succ, Z.pow_succ_r by lia. lia.
  - rewrite Pos2Z.inj_succ, Z.pow_succ_r by lia. lia.
  - done.
Qed.

Lemma valid_binary_mantissa (s : bool) (m : positive) (e : Z) :
  valid_binary (S754_finite s m e) = true → (Z.pos m < 2 ^ 53)%Z.
Proof.
  unfold valid_binary, bounded, canonical_mantissa, fexp, emin, emax, prec.
  intros H. apply andb_prop in H as [H _]. apply Z.eqb_eq in H.
  pose proof (digits2_pos_bound m).
  assert (Z.pos (digits2_pos m) ≤ 53)%Z by lia.
  eapply Z.lt_le_trans; [done|]. apply Z.pow_le_mono_r; lia.
Qed.

(** A float in [[0, 1)] truncates to 0. *)
Lemma py_int_below_one (x : float) :
  (0 <=? x)%float = true → (x <? 1)%float = true → py_int x = Ok 0%Z.
Proof.
  rewrite leb_spec, ltb_spec. unfold py_int.
  pose proof (Prim2SF_valid x) as Hv.
  change (Prim2SF 0) with (S754_zero false).
  change (Prim2SF 1) with (S754_finite false 4503599627370496 (-52)).
  destruct (Prim2SF x) as [s|s| |s m e]; [done|by destruct s|done|].
  apply valid_binary_mantissa in Hv.
  destruct s; [done|]. intros _.
  unfold SFltb, SFcompare. intros H.
  assert (e < -52 ∨ e = -52 ∧ Z.pos m < 2 ^ 52)%Z as He.
  { destruct (Z.compare_spec e (-52)) as [He|He|He].
    - right. split; [done|]. rewrite Pos.compare_cont_spec in H.
      by destruct (Pos.compare_spec m 4503599627370496).
    - by left.
    - done. }
  assert (e < 0)%Z as Hneg by lia.
  destruct (Z.leb_spec 0 e); [lia|]. f_equal.
  rewrite Z.shiftr_div_pow2 by lia. apply Z.div_small. split; [lia|].
  destruct He as [He|[-> Hm]]; [|done].
  eapply Z.lt_le_trans; [exact Hv|]. apply Z.pow_le_mono_r; lia.
Qed.
(** ** Counting what a filling loop wrote *)

Lemma written_replicate_0 (n : nat) : written (replicate n 0) = 0%nat.
Proof.
  induction n as [|n IH]; [done|]. cbn [replicate written]. rewrite IH.
  by destruct (decide (0 = 0)).
Qed.

Lemma written_set1 (p : nat) (x : Qc) (slots : Tensor1) :
  (written (set1 p x slots) ≤ written slots + 1)%nat.
Proof.
  unfold set1. revert p. induction slots as [|v slots IH]; intros p; [simpl; lia|].
  destruct p as [|p].
  - change (<[0%nat:=x]> (v :: slots)) with (x :: slots). cbn [written].
    repeat case_decide; lia.
  - change (<[S p:=x]> (v :: slots)) with (v :: <[p:=x]> slots). cbn [written].
    specialize (IH p). case_decide; lia.
Qed.

Lemma sum_list_fmap_alter_le {A : Type} (f : A → nat) (g : A → A) (c i : nat) (l : list A) :
  (∀ x, l !! i = Some x → (f (g x) ≤ f x + c)%nat) →
  (sum_list (f <$> alter g i l) ≤ sum_list (f <$> l) + c)%nat.
Proof.
  revert i. induction l as [|a l IH]; intros i Hg; [destruct i; simpl; lia|].
  destruct i as [|i]; csimpl.
  - specialize (Hg a eq_refl). lia.
  - specialize (IH i Hg). lia.
Qed.

Lemma sum_list_fmap_alter_eq {A : Type} (f : A → nat) (g : A → A) (i : nat) (l : list A) :
  (∀ x, l !! i = Some x → f (g x) = f x) →
  sum_list (f <$> alter g i l) = sum_list (f <$> l).
Proof.
  revert i. induction l as [|a l IH]; intros i Hg; [done|].
  destruct i as [|i]; csimpl.
  - by rewrite (Hg a eq_refl).
  - by rewrite (IH i Hg).
Qed.

Lemma assigned_zeros4 (B S E C e : nat) : assigned (zeros4 B S E C) e = 0%nat.
Proof.
  unfold assigned, zeros4, zeros3, zeros2, zeros1.
  rewrite fmap_replicate, sum_list_replicate, fmap_replicate, sum_list_replicate.
  destruct (replicate E (replicate C 0) !! e) as [slots|] eqn:He; simpl; [|lia].
  apply lookup_replicate in He as [-> _]. rewrite written_replicate_0. lia.
Qed.

(** One write adds at most one slot, and only to the written expert. *)
Lemma assigned_set4_same (b s e p : nat) (x : Qc) (t : Tensor4) :
  (assigned (set4 b s e p x t) e ≤ assigned t e + 1)%nat.
Proof.
  unfold assigned, set4. apply sum_list_fmap_alter_le. intros row _.
  apply sum_list_fmap_alter_le. intros tok _.
  rewrite list_lookup_alter_eq. destruct (tok !! e) as [slots|]; csimpl.
  - apply written_set1.
  - lia.
Qed.

Lemma assigned_set4_other (b s e e' p : nat) (x : Qc) (t : Tensor4) :
  e ≠ e' → assigned (set4 b s e p x t) e' = assigned t e'.
Proof.
  intros Hne. unfold assigned, set4. apply sum_list_fmap_alter_eq. intros row _.
  apply sum_list_fmap_alter_eq. intros tok _.
  by rewrite list_lookup_alter_ne.
Qed.

(** ** Capacity-limited dispatch *)

Module DispatchFacts.
Import BaseMoERouter Dispatch.

Lemma inv_initial (capacity B S E : nat) :
  inv capacity {| dispatch_tensor := zeros4 B S E capacity;
                  combine_tensor := zeros4 B S E capacity;
                  expert_capacity_used := replicate E 0%nat |}.
Proof.
  split; simpl.
  - apply Forall_replicate. lia.
  - intros e. rewrite assigned_zeros4. lia.
  - intros e. rewrite assigned_zeros4. lia.
Qed.

Lemma inv_assign (capacity : nat) (idx : list (list (list nat))) (probs : Tensor3)
    (b s k : nat) (st st' : fill) :
  inv capacity st → assign capacity idx probs b s k st = Ok st' → inv capacity st'.
Proof.
  intros [Hused Hd Hc] Hrun. unfold assign in Hrun.
  inv_bind Hrun. rename a into e. inv_bind Hrun. rename a into prob.
  inv_bind Hrun. rename a into used. apply get_Ok in Ha1.
  case_decide as Hlt; [|by inversion Hrun; subst].
  inversion Hrun; subst; clear Hrun. split; simpl.
  - apply Forall_insert; [done|lia].
  - intros e'. destruct (decide (e = e')) as [<-|Hne].
    + rewrite list_lookup_insert_eq by (by eapply lookup_lt_Some). simpl.
      specialize (Hd e). rewrite Ha1 in Hd. simpl in Hd.
      pose proof (assigned_set4_same b s e used 1 (dispatch_tensor st)). lia.
    + rewrite list_lookup_insert_ne by done. rewrite assigned_set4_other by done. apply Hd.
  - intros e'. destruct (decide (e = e')) as [<-|Hne].
    + rewrite list_lookup_insert_eq by (by eapply lookup_lt_Some). simpl.
      specialize (Hc e). rewrite Ha1 in Hc. simpl in Hc.
      pose proof (assigned_set4_same b s e used prob (combine_tensor st)). lia.
    + rewrite list_lookup_insert_ne by done. rewrite assigned_set4_other by done. apply Hc.
Qed.

(** An assignment to an expert whose counter has reached the capacity
    changes nothing and raises nothing. *)
Lemma assign_full (capacity : nat) (idx : list (list (list nat))) (probs : Tensor3)
    (b s k e used : nat) (prob : Qc) (st : fill) :
  get3 idx b s k = Ok e → get3 probs b s k = Ok prob →
  expert_capacity_used st !! e = Some used → (capacity ≤ used)%nat →
  assign capacity idx probs b s k st = Ok st.
Proof.
  intros He Hp Hu Hfull. unfold assign. rewrite He, Hp. simpl.
  apply get_Ok in Hu. rewrite Hu. simpl. case_decide; [lia|done].
Qed.

Lemma inv_bound (capacity : nat) (st : fill) (e : nat) :
  inv capacity st →
  (assigned (dispatch_tensor st) e ≤ capacity)%nat ∧
  (assigned (combine_tensor st) e ≤ capacity)%nat.
Proof.
  intros [Hused Hd Hc]. specialize (Hd e). specialize (Hc e).
  destruct (expert_capacity_used st !! e) as [u|] eqn:Hu; simpl in *; [|lia].
  rewrite Forall_lookup in Hused. specialize (Hused e u Hu). simpl in Hused. lia.
Qed.

Lemma fill_loop_inv (capacity : nat) (idx : list (list (list nat))) (probs : Tensor3)
    (B S K : nat) (st st' : fill) :
  inv capacity st →
  for_each (range B) (λ b, for_each (range S) (λ s, for_each (range K) (λ k,
    assign capacity idx probs b s k))) st = Ok st' →
  inv capacity st'.
Proof.
  intros Hinv. apply for_each_inv; [|done].
  intros b s1 s1' _ H1. apply for_each_inv; [|done].
  intros s s2 s2' _ H2. apply for_each_inv; [|done].
  intros k s3 s3' _ H3. by apply inv_assign.
Qed.

End DispatchFacts.

Module DispatchTheorems.
Import BaseMoERouter Dispatch DispatchFacts.

Lemma create_Ok_inv (self : t) (idx : list (list (list nat))) (probs : Tensor3)
    (B S : nat) (d c : Tensor4) :
  _create_dispatch_combine_tensors self idx probs B S = Ok (d, c) →
  ∃ capacity st, _compute_capacity self B S = Ok (Z.of_nat capacity) ∧
    inv capacity st ∧ d = dispatch_tensor st ∧ c = combine_tensor st.
Proof.
  unfold _create_dispatch_combine_tensors. intros H.
  inv_bind H. rename a into cap. case_decide as Hneg; [discriminate|].
  inv_bind H. rename a into st. inversion H; subst; clear H.
  exists (Z.to_nat cap), st. split; [by rewrite Z2Nat.id by lia|].
  split; [|done]. eapply fill_loop_inv; [|exact Ha0]. apply inv_initial.
Qed.

(** C3.  Whatever selection [_create_dispatch_combine_tensors] is called
    with, in every tensor it returns each expert has at most [capacity]
    written slots, where [capacity] is the value of [_compute_capacity] for
    the call; and an assignment that finds its expert full leaves the
    tensors and the counters as they are, without raising. *)
Theorem dispatch_within_capacity (self : t) (idx : list (list (list nat)))
    (probs : Tensor3) (B S : nat) (d c : Tensor4) :
  _create_dispatch_combine_tensors self idx probs B S = Ok (d, c) →
  (∃ capacity : nat,
     _compute_capacity self B S = Ok (Z.of_nat capacity) ∧
     ∀ e, (assigned d e ≤ capacity)%nat ∧ (assigned c e ≤ capacity)%nat) ∧
  (∀ capacity b s k e used prob st,
     get3 idx b s k = Ok e → get3 probs b s k = Ok prob →
     expert_capacity_used st !! e = Some used → (capacity ≤ used)%nat →
     assign capacity idx probs b s k st = Ok st).
Proof.
  intros H. split.
  - apply create_Ok_inv in H as (capacity & st & Hcap & Hinv & -> & ->).
    exists capacity. split; [done|]. intros e. by apply inv_bound.
  - intros. by eapply assign_full.
Qed.

(** Three tokens that all choose expert 0, at capacity
    [int(3 * 1.5 * 1 / 4) = 1]. *)
Lemma dispatch_within_capacity_witness :
  ∃ d c,
    _create_dispatch_combine_tensors sample_router [[[0]; [0]; [0]]]%nat
      [[[1]; [1]; [1]]] 1 3 = Ok (d, c) ∧
    _compute_capacity sample_router 1 3 = Ok 1%Z ∧
    ∀ e, (assigned d e ≤ 1)%nat ∧ (assigned c e ≤ 1)%nat.
Proof.
  destruct (_create_dispatch_combine_tensors sample_router [[[0]; [0]; [0]]]%nat
              [[[1]; [1]; [1]]] 1 3) as [[d c]|e] eqn:Hrun;
    [|vm_compute in Hrun; discriminate].
  assert (_compute_capacity sample_router 1 3 = Ok 1%Z) as Hone by (vm_compute; reflexivity).
  exists d, c. split; [reflexivity|]. split; [exact Hone|].
  destruct (dispatch_within_capacity _ _ _ _ _ _ _ Hrun) as [(capacity & Hcap & Hle) _].
  rewrite Hone in Hcap. inversion Hcap as [Hcap'].
  replace capacity with 1%nat in Hle by lia. exact Hle.
Defined.

(** The loop cannot fail on selections that are in range. *)
Lemma fill_loop_total (capacity E B S K : nat) (idx : list (list (list nat)))
    (probs : Tensor3) (st : fill) :
  valid_choices E B S K idx probs →
  length (expert_capacity_used st) = E →
  ∃ st', for_each (range B) (λ b, for_each (range S) (λ s, for_each (range K) (λ k,
    assign capacity idx probs b s k))) st = Ok st'.
Proof.
  intros Hvalid Hlen.
  set (P := λ st : fill, length (expert_capacity_used st) = E).
  assert (∃ st', for_each (range B) (λ b, for_each (range S) (λ s,
    for_each (range K) (λ k, assign capacity idx probs b s k))) st = Ok st' ∧ P st')
    as (st' & H & _); [|by eauto].
  apply for_each_total; [|done]. intros b s1 Hb%elem_of_range H1.
  apply for_each_total; [|done]. intros s s2 Hs%elem_of_range H2.
  apply for_each_total; [|done]. intros k s3 Hk%elem_of_range H3.
  destruct (Hvalid b s k Hb Hs Hk) as (e & p & He & HeE & Hp).
  unfold assign. rewrite He, Hp. simpl.
  destruct (lookup_lt_is_Some_2 (expert_capacity_used s3) e) as [u Hu]; [unfold P in H3; lia|].
  pose proof Hu as Hu'. apply get_Ok in Hu'. rewrite Hu'. simpl.
  case_decide; eexists; (split; [done|]); unfold P in *; simpl; [|done].
  by rewrite length_insert.
Qed.

Lemma create_total (self : t) (idx : list (list (list nat))) (probs : Tensor3)
    (B S : nat) (capacity : nat) :
  _compute_capacity self B S = Ok (Z.of_nat capacity) →
  valid_choices (num_experts self) B S (top_k self) idx probs →
  ∃ d c, _create_dispatch_combine_tensors self idx probs B S = Ok (d, c).
Proof.
  intros Hcap Hvalid. unfold _create_dispatch_combine_tensors. rewrite Hcap. simpl.
  case_decide; [lia|].
  edestruct (fill_loop_total (Z.to_nat (Z.of_nat capacity))) as [st' Hst']; [exact Hvalid| |].
  2:{ rewrite Hst'. simpl. eauto. }
  simpl. by rewrite length_replicate.
Qed.

Lemma fill_loop_zero_capacity (E B S K : nat) (idx : list (list (list nat)))
    (probs : Tensor3) (st : fill) :
  valid_choices E B S K idx probs →
  length (expert_capacity_used st) = E →
  for_each (range B) (λ b, for_each (range S) (λ s, for_each (range K) (λ k,
    assign 0 idx probs b s k))) st = Ok st.
Proof.
  intros Hvalid Hlen.
  assert (∀ {A} (xs : list A) (body : A → fill → result fill),
    (∀ x, x ∈ xs → body x st = Ok st) → for_each xs body st = Ok st) as Hloop.
  { intros A xs body. induction xs as [|x xs IH]; intros Hbody; [done|]. simpl.
    rewrite Hbody by (by left). simpl. apply IH. intros y Hy. apply Hbody. by right. }
  apply Hloop. intros b Hb%elem_of_range.
  apply Hloop. intros s Hs%elem_of_range.
  apply Hloop. intros k Hk%elem_of_range.
  destruct (Hvalid b s k Hb Hs Hk) as (e & p & He & HeE & Hp).
  destruct (lookup_lt_is_Some_2 (expert_capacity_used st) e) as [u Hu]; [lia|].
  eapply assign_full; [done..|lia].
Qed.

(** C10.  When the quotient [batch*seq_len * capacity_factor * top_k /
    num_experts] lies in [[0, 1)], the capacity is 0 and the call returns,
    without raising, a dispatch and a combine tensor of width 0 on the
    capacity axis: nothing is assigned and there is no non-zero weight. *)
Theorem zero_capacity_drops_all (self : t) (idx : list (list (list nat)))
    (probs : Tensor3) (B S : nat) :
  num_experts self ≠ 0%nat →
  (0 <=? capacity_quotient self B S)%float = true →
  (capacity_quotient self B S <? 1)%float = true →
  valid_choices (num_experts self) B S (top_k self) idx probs →
  _compute_capacity self B S = Ok 0%Z ∧
  ∃ d c,
    _create_dispatch_combine_tensors self idx probs B S = Ok (d, c) ∧
    d = replicate B (replicate S (replicate (num_experts self) [])) ∧
    c = replicate B (replicate S (replicate (num_experts self) [])) ∧
    ∀ e, assigned d e = 0%nat ∧ assigned c e = 0%nat.
Proof.
  intros HE H0 H1 Hvalid.
  assert (_compute_capacity self B S = Ok 0%Z) as Hcap.
  { unfold _compute_capacity. case_decide; [done|]. by apply py_int_below_one. }
  split; [done|].
  exists (zeros4 B S (num_experts self) 0), (zeros4 B S (num_experts self) 0).
  split; [|split; [done|split; [done|]]].
  - unfold _create_dispatch_combine_tensors. rewrite Hcap. simpl.
    rewrite (fill_loop_zero_capacity (num_experts self)); [done|done|].
    simpl. by rewrite length_replicate.
  - intros e. by rewrite assigned_zeros4.
Qed.

(** One token, four experts: the quotient is [1 * 1.5 * 1 / 4 = 0.375]. *)
Lemma zero_capacity_drops_all_witness :
  _compute_capacity sample_router 1 1 = Ok 0%Z ∧
  ∃ d c,
    _create_dispatch_combine_tensors sample_router [[[0%nat]]] [[[1]]] 1 1 = Ok (d, c) ∧
    d = [[[ []; []; []; [] ]]] ∧ c = [[[ []; []; []; [] ]]] ∧
    ∀ e, assigned d e = 0%nat ∧ assigned c e = 0%nat.
Proof.
  apply (zero_capacity_drops_all sample_router [[[0%nat]]] [[[1]]] 1 1).
  - vm_compute. discriminate.
  - vm_compute. reflexivity.
  - vm_compute. reflexivity.
  - intros b s k Hb Hs Hk. change (k < 1)%nat in Hk.
    replace b with 0%nat by lia. replace s with 0%nat by lia. replace k with 0%nat by lia.
    exists 0%nat, 1. split; [reflexivity|]. split; [change (0 < 4)%nat; lia|reflexivity].
Defined.

End DispatchTheorems.

(** ** The scoring network on an all-zero input *)

Lemma qsum_replicate_0 (n : nat) : qsum (replicate n 0) = 0.
Proof. induction n as [|n IH]; [done|]. simpl. by rewrite IH, Qcplus_0_l. Qed.

Lemma dot_zeros_r (row : Tensor1) (n : nat) : dot row (zeros1 n) = 0.
Proof.
  unfold dot, zeros1. revert n. induction row as [|w row IH]; intros [|n]; try done.
  simpl. rewrite Qcmult_0_r, Qcplus_0_l. apply IH.
Qed.

Lemma linear_zeros (W : Tensor2) (n : nat) :
  zip_with (λ (row : Tensor1) b, dot row (zeros1 n) + b) W (zeros1 (length W))
  = zeros1 (length W).
Proof.
  unfold zeros1 at 2 3. induction W as [|row W IH]; [done|]. simpl.
  by rewrite dot_zeros_r, Qcplus_0_l, IH.
Qed.

Lemma length_tabulate {A : Type} (n : nat) (f : nat → A) : length (nn.tabulate n f) = n.
Proof. unfold nn.tabulate, range. by rewrite length_fmap, length_seq. Qed.

(** A linear layer as [_init_weights] leaves it sends zeros to zeros. *)
Lemma init_linear_zero `{!Transcendental} (g : nn.Rng) (k : nat) (l : nn.Linear)
    (training : bool) (keep : nat → bool) :
  length (nn.bias l) = nn.out_features l →
  nn.Layer_forward training keep
    (nn.LinearL (nn.zeros_ (nn.xavier_normal_ g k l))) (zeros1 (nn.in_features l))
  = Ok (zeros1 (nn.out_features l)).
Proof.
  intros Hb. simpl. rewrite decide_True by (unfold zeros1; by rewrite length_replicate).
  f_equal. rewrite Hb.
  rewrite <-(length_tabulate (nn.out_features l)
               (λ i, nn.tabulate (nn.in_features l) (g k i))) at 2 3.
  apply linear_zeros.
Qed.

Lemma relu_zeros (n : nat) : qmax 0 <$> zeros1 n = zeros1 n.
Proof. unfold zeros1. rewrite fmap_replicate. done. Qed.

Lemma imap_zeros (f : nat → Qc → Qc) (n : nat) :
  (∀ j, f j 0 = 0) → imap f (zeros1 n) = zeros1 n.
Proof.
  unfold zeros1. revert f. induction n as [|n IH]; intros f Hf; [done|]. simpl.
  rewrite Hf, (IH (f ∘ S)); [done|]. intros j. apply Hf.
Qed.

Lemma dropout_zeros (p : Qc) (keep : nat → bool) (n : nat) :
  imap (λ j v, if keep j then v / (1 - p) else 0) (zeros1 n) = zeros1 n.
Proof.
  apply imap_zeros. intros j. destruct (keep j); [|done].
  unfold Qcdiv. apply Qcmult_0_l.
Qed.

Lemma router_init (g : nn.Rng) (hidden E k : nat) (cf : float) (p : Qc) :
  BaseMoERouter.router (BaseMoERouter.__init__ g hidden E k cf p)
  = [ nn.LinearL (nn.zeros_ (nn.xavier_normal_ g 4 (nn.Linear_new g 0 hidden hidden)));
      nn.ReLU;
      nn.Dropout p;
      nn.LinearL (nn.zeros_ (nn.xavier_normal_ g 7 (nn.Linear_new g 2 hidden E))) ].
Proof. reflexivity. Qed.

Lemma relu_forward_zeros `{!Transcendental} (training : bool) (keep : nat → bool)
    (n : nat) :
  nn.Layer_forward training keep nn.ReLU (zeros1 n) = Ok (zeros1 n).
Proof. simpl. by rewrite relu_zeros. Qed.

Lemma dropout_forward_zeros `{!Transcendental} (training : bool) (keep : nat → bool)
    (p : Qc) (n : nat) :
  nn.Layer_forward training keep (nn.Dropout p) (zeros1 n) = Ok (zeros1 n).
Proof.
  simpl. destruct (training && bool_decide (p ≠ 0)); [|done]. by rewrite dropout_zeros.
Qed.

Lemma router_zero_input `{!Transcendental} (g : nn.Rng) (hidden E k : nat) (cf : float)
    (p : Qc) (training : bool) (keep : nat → bool) :
  nn.Sequential_forward training keep
    (BaseMoERouter.router (BaseMoERouter.__init__ g hidden E k cf p)) (zeros1 hidden)
  = Ok (zeros1 E).
Proof.
  rewrite router_init. unfold nn.Sequential_forward. cbn [for_each].
  rewrite (init_linear_zero g _ (nn.Linear_new g 0 hidden hidden))
    by (simpl; apply length_tabulate).
  cbn [bind nn.Linear_new nn.out_features].
  rewrite relu_forward_zeros. cbn [bind].
  rewrite dropout_forward_zeros. cbn [bind].
  rewrite (init_linear_zero g _ (nn.Linear_new g 2 hidden E))
    by (simpl; apply length_tabulate).
  done.
Qed.

Lemma sequence_imap_const {A B : Type} (f : nat → A → result B) (x : A) (y : B) (n : nat) :
  (∀ i, f i x = Ok y) → sequence (imap f (replicate n x)) = Ok (replicate n y).
Proof.
  revert f. induction n as [|n IH]; intros f Hf; [done|].
  unfold sequence in *. simpl. rewrite Hf. simpl.
  rewrite (IH (f ∘ S)) by (intros i; apply Hf). done.
Qed.

Lemma forward3_const `{!Transcendental} (training : bool) (keep : nat → nat → nat → bool)
    (net : nn.Sequential) (x y : Tensor1) (B S : nat) :
  (∀ kp, nn.Sequential_forward training kp net x = Ok y) →
  nn.Sequential_forward3 training keep net (replicate B (replicate S x))
  = Ok (replicate B (replicate S y)).
Proof.
  intros Hx. unfold nn.Sequential_forward3.
  apply sequence_imap_const. intros b.
  apply sequence_imap_const. intros s. apply Hx.
Qed.

Lemma qn_S (n : nat) : qn (S n) = qn n + 1.
Proof.
  unfold qn. apply Qc_is_canon. rewrite Nat2Z.inj_succ. unfold Z.succ. simpl.
  rewrite Qred_correct. unfold Qeq. simpl. lia.
Qed.

Lemma qsum_replicate (n : nat) (e : Qc) : qsum (replicate n e) = qn n * e.
Proof.
  induction n as [|n IH]; simpl.
  - assert (qn 0 = 0) as -> by (by apply Qc_is_canon). by rewrite Qcmult_0_l.
  - rewrite IH, qn_S. ring.
Qed.

Lemma qn_pos (n : nat) : (0 < n)%nat → 0 < qn n.
Proof. intros Hn. unfold qn, Qclt. simpl. unfold Qlt. simpl. lia. Qed.

(** Equal logits give the uniform distribution. *)
Lemma softmax_zeros `{!Transcendental} (n : nat) :
  (0 < n)%nat → nn.softmax (zeros1 n) = replicate n (1 / qn n).
Proof.
  intros Hn. unfold nn.softmax, zeros1.
  assert (nn.qmaximum (replicate n 0) = 0) as ->.
  { unfold nn.qmaximum. destruct n as [|n]; [lia|]. simpl hd.
    generalize (S n). intros m. induction m as [|m IH]; [done|]. simpl. by rewrite IH. }
  rewrite !fmap_replicate, qsum_replicate. f_equal.
  pose proof (exp_pos (0 - 0)) as He. pose proof (qn_pos n Hn) as Hq.
  apply Qclt_not_eq in He, Hq. field. split; congruence.
Qed.

(** C7.  The base router built for hidden size 8, 4 experts and top-2, on an
    all-zero [[1, 10, 8]] input: whatever the random weights, the dropout rate
    and the dropout noise, [forward] returns, its [router_probs] are 1/4 for
    every token and expert, and the capacity of the call is 7. *)
Theorem zero_input_is_uniform `{!Transcendental} (g : nn.Rng) (p : Qc)
    (keep : nat → nat → nat → bool) :
  let r := BaseMoERouter.__init__ g 8 4 2 1.5%float p in
  (∃ d c aux r',
     BaseMoERouter.forward r (zeros3 1 10 8) None keep
     = Ok (d, c, replicate 1 (replicate 10 (replicate 4 (1 / qz 4))), aux, r')) ∧
  BaseMoERouter._compute_capacity r 1 10 = Ok 7%Z.
Proof.
  intros r. split; [|reflexivity].
  unfold BaseMoERouter.forward.
  change (zeros3 1 10 8) with (replicate 1 (replicate 10 (zeros1 8))).
  rewrite (forward3_const _ _ _ (zeros1 8) (zeros1 4))
    by (intros kp; apply router_zero_input).
  cbn [bind apply_expert_mask]. unfold map_tokens.
  rewrite fmap_replicate, fmap_replicate, softmax_zeros by lia.
  vm_compute. eauto.
Qed.

(** ** The Gini penalty of [TopKBalancedRouter] *)

Module GiniTheorems.
Import TopKBalancedRouter.

Lemma sort_replicate (n : nat) (c : Qc) : sort_asc (replicate n c) = replicate n c.
Proof.
  unfold sort_asc. symmetry. apply replicate_Permutation.
  symmetry. apply merge_sort_Permutation.
Qed.

Lemma qsum_app (u v : Tensor1) : qsum (u ++ v) = qsum u + qsum v.
Proof.
  induction u as [|x u IH]; simpl; [by rewrite Qcplus_0_l|]. rewrite IH. ring.
Qed.

Lemma arange1_S (n : nat) : arange1 (S n) = arange1 n ++ [qn (S n)].
Proof. unfold arange1, range. by rewrite seq_S, fmap_app. Qed.

Lemma length_arange1 (n : nat) : length (arange1 n) = n.
Proof. unfold arange1, range. by rewrite length_fmap, length_seq. Qed.

(** [1*c + 2*c + ... + n*c], twice. *)
Lemma weighted_sum_uniform (n : nat) (c : Qc) :
  (1 + 1) * qsum (zip_with Qcmult (arange1 n) (replicate n c)) = qn n * (qn n + 1) * c.
Proof.
  induction n as [|n IH].
  - simpl. assert (qn 0 = 0) as -> by (by apply Qc_is_canon). ring.
  - rewrite arange1_S, replicate_S_end.
    rewrite zip_with_app by (by rewrite length_arange1, length_replicate).
    rewrite qsum_app. simpl. rewrite Qcmult_plus_distr_r, IH, !qn_S. ring.
Qed.

(** On equal mean probabilities the code's penalty is [1/n], not 0. *)
Lemma gini_loss_uniform (n : nat) (c : Qc) :
  (0 < n)%nat → c ≠ 0 → gini_loss n (replicate n c) = 1 / qn n.
Proof.
  intros Hn Hc. unfold gini_loss. rewrite sort_replicate, qsum_replicate.
  change 2 with (1 + 1). rewrite weighted_sum_uniform.
  pose proof (qn_pos n Hn) as Hq. apply Qclt_not_eq in Hq.
  field. split; congruence.
Qed.

(** On a one-hot mean vector the penalty is 1. *)
Lemma sort_one_hot (n j : nat) :
  (j < n)%nat → sort_asc (<[j := 1]> (zeros1 n)) = replicate (n - 1) 0 ++ [1].
Proof.
  intros Hj. unfold sort_asc, zeros1.
  apply (Sorted_unique Qcle).
  - apply Sorted_merge_sort, _.
  - apply Sorted_snoc.
    + generalize (n - 1)%nat. intros m. induction m as [|m IH]; [constructor|].
      simpl. constructor; [done|]. destruct m; constructor. done.
    + destruct (n - 1)%nat as [|m]; [constructor|].
      rewrite replicate_S_end. constructor. done.
  - rewrite merge_sort_Permutation, insert_replicate_lt by done.
    rewrite <-Permutation_middle, <-Permutation_cons_append. simpl.
    rewrite <-replicate_add. by replace (j + (n - S j))%nat with (n - 1)%nat by lia.
Qed.

Lemma gini_loss_one_hot (n j : nat) :
  (j < n)%nat → gini_loss n (<[j := 1]> (zeros1 n)) = 1.
Proof.
  intros Hj. unfold gini_loss. rewrite sort_one_hot by done.
  destruct n as [|m]; [lia|]. replace (S m - 1)%nat with m by lia.
  rewrite arange1_S, zip_with_app by (by rewrite length_arange1, length_replicate).
  rewrite !qsum_app. fold (zeros1 m). fold (dot (arange1 m) (zeros1 m)).
  rewrite dot_zeros_r. unfold zeros1. rewrite qsum_replicate_0. simpl.
  pose proof (qn_pos (S m) ltac:(lia)) as Hq. apply Qclt_not_eq in Hq.
  change 2 with (1 + 1). field. congruence.
Qed.

Lemma mean_replicate (n : nat) (c : Qc) : (0 < n)%nat → mean (replicate n c) = c.
Proof.
  intros Hn. unfold mean. rewrite qsum_replicate, length_replicate.
  pose proof (qn_pos n Hn) as Hq. apply Qclt_not_eq in Hq. field. congruence.
Qed.

(** The mean over the tokens of a tensor whose tokens all carry [row]. *)
Lemma mean_dim01_const (B S : nat) (row : Tensor1) :
  (0 < B)%nat → (0 < S)%nat →
  mean_dim01 (replicate B (replicate S row)) = row.
Proof.
  intros HB HS. unfold mean_dim01, mean_rows, column.
  assert (concat (replicate B (replicate S row)) = replicate (B * S) row) as ->.
  { clear HB. induction B as [|B IH]; [done|]. simpl. by rewrite IH, replicate_add. }
  assert (0 < B * S)%nat as Hn by nia. revert Hn. generalize (B * S)%nat. intros n Hn.
  assert (dim1 (replicate n row) = length row) as ->. { by destruct n; [lia|]. }
  apply list_eq. intros j. unfold range. rewrite list_lookup_fmap.
  destruct (decide (j < length row)%nat) as [Hlt|Hge].
  - rewrite lookup_seq_lt by done. simpl. rewrite fmap_replicate, mean_replicate by done.
    destruct (lookup_lt_is_Some_2 row j Hlt) as [x Hx].
    rewrite Hx. f_equal. by rewrite (list_lookup_total_correct _ _ _ Hx).
  - rewrite lookup_seq_ge by lia. symmetry. apply lookup_ge_None. lia.
Qed.

(** C2.  Gini mode of [TopKBalancedRouter]: on router probabilities whose
    mean is the same non-zero value [c] for each of the [n] experts the
    penalty the code returns is [1/n], which is not 0; on a mean vector that
    puts all mass on one expert it is 1. *)
Theorem gini_penalty_of_uniform_is_not_zero `{!Transcendental} (g : nn.Rng)
    (hidden n k B S : nat) (cf : float) (p coeff c : Qc) :
  (0 < n)%nat → (0 < B)%nat → (0 < S)%nat → c ≠ 0 →
  let self := __init__ g hidden n k cf p coeff "gini" in
  _compute_advanced_balance_loss self (replicate B (replicate S (replicate n c)))
  = Ok (1 / qn n) ∧
  1 / qn n ≠ 0 ∧
  ∀ j, (j < n)%nat →
    _compute_advanced_balance_loss self (replicate B (replicate S (<[j := 1]> (zeros1 n))))
    = Ok 1.
Proof.
  intros Hn HB HS Hc self. unfold _compute_advanced_balance_loss.
  rewrite decide_False by done. rewrite decide_False by done. rewrite decide_True by done.
  split; [|split].
  - rewrite mean_dim01_const by done. f_equal. by apply gini_loss_uniform.
  - pose proof (qn_pos n Hn) as Hq. unfold Qcdiv. rewrite Qcmult_1_l.
    apply Qcinv_pos in Hq. apply Qclt_not_eq in Hq. congruence.
  - intros j Hj. rewrite mean_dim01_const by done. f_equal. by apply gini_loss_one_hot.
Qed.

(** The failing input of C2: four experts at mean probability 1/4. *)
Lemma gini_penalty_of_uniform_example :
  let self := __init__ (λ _ _ _, 0) 8 4 2 1.5%float 0 (1 / qz 100) "gini" in
  _compute_advanced_balance_loss (H:=dyadic) self
    (replicate 1 (replicate 10 (replicate 4 (1 / qz 4)))) = Ok (1 / qn 4) ∧
  1 / qn 4 ≠ 0.
Proof.
  intros self.
  destruct (gini_penalty_of_uniform_is_not_zero (H:=dyadic) (λ _ _ _, 0) 8 4 2 1 10
              1.5%float 0 (1 / qz 100) (1 / qz 4)) as (H1 & H2 & _);
    [lia|lia|lia|done|]. by split.
Defined.

End GiniTheorems.

(** ** The effective top-k of the adaptive routers *)

Module AdaptiveTheorems.

(** C8.  When [forward] of an [AdaptiveRouter] or of a [PiKVMoERouter]
    returns, the router's [top_k] is what it was before the call; the call
    itself routes with the value [_adapt_top_k] chose. *)
Theorem effective_top_k_is_call_scoped `{!Transcendental} :
  (∀ (self self' : AdaptiveRouter.t) hidden_states expert_mask keep keep_importance
     d c probs aux importance,
     AdaptiveRouter.forward self hidden_states expert_mask keep keep_importance
     = Ok (d, c, probs, aux, importance, self') →
     BaseMoERouter.top_k (AdaptiveRouter.base self')
     = BaseMoERouter.top_k (AdaptiveRouter.base self) ∧
     ∃ current_top_k c0 base',
       AdaptiveRouter._adapt_top_k self hidden_states importance = Ok current_top_k ∧
       BaseMoERouter.forward
         (BaseMoERouter.with_top_k current_top_k (AdaptiveRouter.base self))
         hidden_states expert_mask keep = Ok (d, c0, probs, aux, base')) ∧
  (∀ (self self' : PiKVMoERouter.t) hidden_states expert_mask keep keep_importance
     d c probs aux importance,
     PiKVMoERouter.forward self hidden_states expert_mask keep keep_importance
     = Ok (d, c, probs, aux, importance, self') →
     BaseMoERouter.top_k (PiKVMoERouter.base self')
     = BaseMoERouter.top_k (PiKVMoERouter.base self) ∧
     ∃ current_top_k top_k_probs top_k_indices,
       AdaptiveRouter._adapt_top_k (PiKVMoERouter.adaptive self) hidden_states importance
       = Ok current_top_k ∧
       topk3 probs current_top_k = Ok (top_k_probs, top_k_indices) ∧
       BaseMoERouter._create_dispatch_combine_tensors
         (BaseMoERouter.with_top_k current_top_k (PiKVMoERouter.base self))
         top_k_indices (renormalize top_k_probs)
         (dim0 hidden_states) (dim1 hidden_states) = Ok (d, c)).
Proof.
  split.
  - intros self self' hs mask keep keep_imp d c probs aux importance Hrun.
    unfold AdaptiveRouter.forward in Hrun.
    inv_bind Hrun. rename a into imp. inv_bind Hrun. rename a into k.
    inv_bind Hrun. destruct a as [[[[d0 c0] probs0] aux0] base'].
    inversion Hrun; subst; clear Hrun. split.
    + generalize (concat importance). intros flat.
      match goal with |- context [AdaptiveRouter.record_importance flat ?s] =>
        assert (∀ s0, BaseMoERouter.top_k (AdaptiveRouter.base
                  (AdaptiveRouter.record_importance flat s0))
                = BaseMoERouter.top_k (AdaptiveRouter.base s0)) as Hrec end.
      { unfold AdaptiveRouter.record_importance.
        induction flat as [|v flat IH]; intros s0; [done|]. simpl. by rewrite IH. }
      by rewrite Hrec.
    + exists k, c0, base'. done.
  - intros self self' hs mask keep keep_imp d c probs aux importance Hrun.
    unfold PiKVMoERouter.forward in Hrun.
    inv_bind Hrun. rename a into logits0. inv_bind Hrun. rename a into logits1.
    inv_bind Hrun. rename a into logits2. inv_bind Hrun. rename a into imp.
    inv_bind Hrun. rename a into k. inv_bind Hrun. destruct a as [tkp tki].
    inv_bind Hrun. destruct a as [d0 c0]. inv_bind Hrun. rename a into aux0.
    inv_bind Hrun. rename a into usage.
    inversion Hrun; subst; clear Hrun. split; [done|].
    exists k, tkp, tki. done.
Qed.

(** A call in which the predictor chooses 1 while the router is configured
    with 2. *)
Lemma effective_top_k_witness :
  ∃ out,
    AdaptiveRouter.forward (H:=dyadic) sample_adaptive sample_hidden None all_kept all_kept
    = Ok out ∧
    AdaptiveRouter._adapt_top_k (H:=dyadic) sample_adaptive sample_hidden out.1.2
    = Ok 1%nat ∧
    BaseMoERouter.top_k (AdaptiveRouter.base out.2) = 2%nat.
Proof.
  destruct (AdaptiveRouter.forward (H:=dyadic) sample_adaptive sample_hidden None
              all_kept all_kept) as [[[[[[d c] probs] aux] importance] self']|e] eqn:Hrun;
    [|vm_compute in Hrun; discriminate].
  exists (d, c, probs, aux, importance, self'). split; [done|].
  pose proof Hrun as Hk.
  apply (proj1 (effective_top_k_is_call_scoped (H:=dyadic))) in Hrun as [Htop _].
  split; [|cbn [snd]; rewrite Htop; reflexivity].
  vm_compute in Hk. inversion Hk. vm_compute. reflexivity.
Defined.

End AdaptiveTheorems.

(** ** The strategy table *)

Module StrategyTheorems.
Import MoERouterPress.

Lemma strategy_table (self : t) (e : nat) :
  expert_strategies (__post_init__ self) !! e =
    match e with
    | 0 => Some "aggressive"
    | 1 => Some "moderate"
    | 2 => Some "conservative"
    | 3 => Some "selective"
    | _ => None
    end%nat.
Proof.
  unfold __post_init__. cbn [expert_strategies].
  do 4 (destruct e as [|e]; [by simplify_map_eq|]). by simplify_map_eq.
Qed.

Lemma _get_router_strategies (g : nn.Rng) (self self' : t) (layer_idx hidden_size : nat)
    (router : Router) :
  _get_router g self layer_idx hidden_size = Ok (router, self') →
  expert_strategies self' = expert_strategies self.
Proof.
  unfold _get_router. destruct (routers self !! layer_idx); intros Hrun.
  - by inversion Hrun.
  - inv_bind Hrun. by inversion Hrun.
Qed.

(** C9.  The table [__post_init__] builds has the four entries 0..3 and no
    other; a [compress] call whose router returns and whose dominant expert
    is 4 or more therefore raises [KeyError]. *)
Theorem dominant_expert_beyond_table `{!Transcendental} :
  (∀ (self : t) (e : nat),
     is_Some (expert_strategies (__post_init__ self) !! e) ↔ (e < 4)%nat) ∧
  (∀ (g : nn.Rng) (self self1 : t) (layer_idx : nat) (hidden_states : Tensor3)
     (keys values : Tensor4) (noise : Noise) (router router' : Router)
     (router_probs : Tensor3) (aux_loss : Qc) (dominant_expert : nat),
     expert_strategies self = expert_strategies (__post_init__ self) →
     _get_router g self layer_idx (dim2 hidden_states) = Ok (router, self1) →
     route router hidden_states noise = Ok (router_probs, aux_loss, router') →
     argmax (mean_dim01 router_probs) = Ok dominant_expert →
     (4 ≤ dominant_expert)%nat →
     compress g self layer_idx hidden_states keys values noise = Raise KeyError).
Proof.
  split.
  - intros self e. rewrite strategy_table.
    do 4 (destruct e as [|e]; [split; [lia|by eauto]|]).
    split; [by intros [? ?]|lia].
  - intros g self self1 layer hs keys values noise router router' probs aux e
      Htable Hget Hroute Hdom He.
    unfold compress. rewrite Hget. cbn [bind]. rewrite Hroute. cbn [bind].
    rewrite Hdom. cbn [bind].
    rewrite (_get_router_strategies _ _ _ _ _ _ Hget), Htable, strategy_table.
    do 4 (destruct e as [|e]; [lia|]). done.
Qed.

(** Five experts, the last of them dominant. *)
Lemma dominant_expert_beyond_table_witness :
  compress (H:=dyadic) ramp_rng (sample_press "base" 5) 0 sample_hidden
    (sample_cache 10) (sample_cache 10) no_noise = Raise KeyError.
Proof.
  destruct (_get_router ramp_rng (sample_press "base" 5) 0 (dim2 sample_hidden))
    as [[router self1]|] eqn:Hget; [|vm_compute in Hget; discriminate].
  destruct (route (H:=dyadic) router sample_hidden no_noise)
    as [[[probs aux] router']|] eqn:Hroute;
    [|vm_compute in Hget; inversion Hget; subst; vm_compute in Hroute; discriminate].
  eapply (proj2 (dominant_expert_beyond_table (H:=dyadic)) _ _ _ _ _ _ _ _ _ _ _ _ 4%nat);
    [reflexivity|exact Hget|exact Hroute| |lia].
  vm_compute in Hget. inversion Hget; subst; clear Hget.
  vm_compute in Hroute. inversion Hroute; subst; clear Hroute.
  vm_compute. reflexivity.
Defined.

End StrategyTheorems.

(** ** The compression strategies *)

Module CompressionTheorems.
Import MoERouterPress Observe.

Lemma cat2_slices (kf kb : nat) (t : Tensor4) :
  cat2 (slice_front kf t) (slice_back kb t)
  = map_tokens (λ row : Tensor2, take kf row ++ drop (length row - kb) row) t.
Proof.
  unfold cat2, slice_front, slice_back, map_tokens.
  rewrite zip_with_fmap_l, zip_with_fmap_r, zip_with_diag.
  apply list_fmap_ext. intros _ heads _.
  by rewrite zip_with_fmap_l, zip_with_fmap_r, zip_with_diag.
Qed.

Lemma keep_ends_cut (keys values : Tensor4) (front back : float) (kf kb : nat) :
  keep_count (dim2 keys) front = Ok kf → keep_count (dim2 keys) back = Ok kb →
  (kf + kb < dim2 keys)%nat →
  keep_ends keys values front back
  = Ok (map_tokens (λ row : Tensor2, take kf row ++ drop (length row - kb) row) keys,
        map_tokens (λ row : Tensor2, take kf row ++ drop (length row - kb) row) values).
Proof.
  intros Hf Hb Hlt. unfold keep_ends. rewrite Hf, Hb. cbn [bind].
  rewrite decide_True by done. by rewrite !cat2_slices.
Qed.

Lemma keep_ends_unchanged (keys values : Tensor4) (front back : float) (kf kb : nat) :
  keep_count (dim2 keys) front = Ok kf → keep_count (dim2 keys) back = Ok kb →
  (dim2 keys ≤ kf + kb)%nat →
  keep_ends keys values front back = Ok (keys, values).
Proof.
  intros Hf Hb Hle. unfold keep_ends. rewrite Hf, Hb. cbn [bind].
  rewrite decide_False by lia. done.
Qed.

(** C6.  The aggressive strategy on a cache of 100 positions keeps, in every
    row of the keys and of the values, the positions [0, 20) followed by the
    positions [90, 100), 30 in all; and with any strategy that keeps both
    ends, a cache no longer than the two windows together comes back
    unchanged. *)
Theorem aggressive_keeps_both_ends (self : t) (keys values : Tensor4)
    (router_probs : Tensor3) :
  dim2 keys = 100%nat → rows_of_length 100 keys → rows_of_length 100 values →
  let kept (row : Tensor2) := take 20 row ++ drop 90 row in
  _apply_expert_compression self keys values "aggressive" router_probs
  = Ok (map_tokens kept keys, map_tokens kept values) ∧
  (∀ row : Tensor2, length row = 100%nat →
     length (kept row) = 30%nat ∧
     (∀ i, (i < 20)%nat → kept row !! i = row !! i) ∧
     (∀ j, (j < 10)%nat → kept row !! (20 + j)%nat = row !! (90 + j)%nat)) ∧
  (∀ (short_keys short_values : Tensor4) (kf kb : nat),
     keep_count (dim2 short_keys) 0.2 = Ok kf →
     keep_count (dim2 short_keys) 0.1 = Ok kb →
     (dim2 short_keys ≤ kf + kb)%nat →
     _apply_expert_compression self short_keys short_values "aggressive" router_probs
     = Ok (short_keys, short_values)).
Proof.
  intros Hdim Hk Hv kept. split; [|split].
  - unfold _apply_expert_compression. rewrite decide_True by done.
    rewrite (keep_ends_cut keys values _ _ 20 10); [|by rewrite Hdim..|rewrite Hdim; lia].
    f_equal. unfold map_tokens, kept. f_equal.
    + apply Forall_fmap_ext_1. eapply Forall_impl; [|exact Hk]. intros heads Hheads. simpl.
      apply Forall_fmap_ext_1. eapply Forall_impl; [|exact Hheads]. intros row Hrow. simpl.
      by rewrite Hrow.
    + apply Forall_fmap_ext_1. eapply Forall_impl; [|exact Hv]. intros heads Hheads. simpl.
      apply Forall_fmap_ext_1. eapply Forall_impl; [|exact Hheads]. intros row Hrow. simpl.
      by rewrite Hrow.
  - intros row Hrow. unfold kept. split; [|split].
    + rewrite length_app, length_take, length_drop. lia.
    + intros i Hi. rewrite lookup_app_l by (rewrite length_take; lia).
      by rewrite lookup_take_lt.
    + intros j Hj. rewrite lookup_app_r by (rewrite length_take; lia).
      rewrite length_take, lookup_drop. f_equal. lia.
  - intros sk sv kf kb Hf Hb Hle. unfold _apply_expert_compression.
    rewrite decide_True by done. by eapply keep_ends_unchanged.
Qed.

Lemma rows_of_length_sample_cache (n : nat) : rows_of_length n (sample_cache n).
Proof.
  unfold rows_of_length, sample_cache. repeat constructor.
  unfold range. by rewrite length_fmap, length_seq.
Qed.

(** A cache of 100 positions, and one of 2 positions that stays as it is. *)
Lemma aggressive_keeps_both_ends_witness :
  _apply_expert_compression (sample_press "base" 4) (sample_cache 100) (sample_cache 100)
    "aggressive" [] =
  Ok ([[ (λ i, [qn i]) <$> (seq 0 20 ++ seq 90 10) ]],
      [[ (λ i, [qn i]) <$> (seq 0 20 ++ seq 90 10) ]]) ∧
  _apply_expert_compression (sample_press "base" 4) (sample_cache 2) (sample_cache 2)
    "aggressive" [] = Ok (sample_cache 2, sample_cache 2).
Proof.
  destruct (aggressive_keeps_both_ends (sample_press "base" 4) (sample_cache 100)
              (sample_cache 100) []) as (Hcut & _ & Hshort);
    [reflexivity|apply rows_of_length_sample_cache..|].
  split.
  - rewrite Hcut. reflexivity.
  - apply (Hshort _ _ 1%nat 1%nat); [reflexivity|reflexivity|].
    change (dim2 (sample_cache 2)) with 2%nat. lia.
Defined.

End CompressionTheorems.

(** ** Top-k selection *)

Module TopkFacts.

#[local] Instance topk_le_total : Total topk_le.
Proof.
  intros [v i] [w j]. unfold topk_le. simpl.
  destruct (Qclt_le_dec w v) as [?|Hle]; [by left; left|].
  destruct (Qclt_le_dec v w) as [?|Hle']; [by right; left|].
  assert (v = w) as -> by (by apply Qcle_antisym).
  destruct (Nat.le_ge_cases i j); [left|right]; right; done.
Qed.

#[local] Instance topk_le_trans : Transitive topk_le.
Proof.
  intros [v i] [w j] [u k]. unfold topk_le. simpl.
  intros [H1|[-> H1]] [H2|[-> H2]].
  - left. by eapply Qclt_trans.
  - by left.
  - by left.
  - right. split; [done|lia].
Qed.

Section topk.
Context (l : Tensor1) (k : nat) (vals : Tensor1) (idx : list nat).
Hypothesis Hrun : topk l k = Ok (vals, idx).

Let sorted := merge_sort topk_le (zip l (range (length l))).

Lemma topk_inv : (k ≤ length l)%nat ∧ idx = (take k sorted).*2 ∧ vals = (take k sorted).*1.
Proof.
  unfold topk in Hrun. case_decide; [|discriminate]. by inversion Hrun.
Qed.

Lemma sorted_perm : sorted ≡ₚ zip l (range (length l)).
Proof. apply merge_sort_Permutation. Qed.

Lemma sorted_snd : sorted.*2 ≡ₚ range (length l).
Proof.
  rewrite sorted_perm. rewrite snd_zip; [done|]. unfold range. by rewrite length_seq.
Qed.

Lemma elem_of_zip_range (v : Qc) (i : nat) :
  (v, i) ∈ zip l (range (length l)) ↔ l !! i = Some v.
Proof.
  rewrite list_elem_of_lookup. split.
  - intros [n Hn]. apply lookup_zip_with_Some in Hn as (x & y & Heq & Hx & Hy).
    inversion Heq; subst. unfold range in Hy. apply lookup_seq in Hy as [-> _]. done.
  - intros Hi. exists i. apply lookup_zip_with_Some. exists v, i.
    split; [done|]. split; [done|]. unfold range. apply lookup_seq.
    split; [done|]. by eapply lookup_lt_Some.
Qed.

Lemma topk_length : length idx = k.
Proof.
  destruct topk_inv as (Hk & -> & _). rewrite length_fmap, length_take.
  rewrite (Permutation_length sorted_perm).
  rewrite length_zip_with. unfold range. rewrite length_seq. lia.
Qed.

Lemma topk_NoDup : NoDup idx.
Proof.
  destruct topk_inv as (_ & -> & _).
  assert (NoDup (sorted.*2)) as Hnd.
  { rewrite sorted_snd. apply NoDup_seq. }
  rewrite <-(take_drop k sorted), fmap_app in Hnd. by apply list.NoDup_app in Hnd as [? _].
Qed.

Lemma topk_in_range (i : nat) : i ∈ idx → (i < length l)%nat.
Proof.
  destruct topk_inv as (_ & -> & _). intros Hi.
  assert (i ∈ sorted.*2) as Hi'.
  { rewrite <-(take_drop k sorted), fmap_app. apply elem_of_app. by left. }
  rewrite sorted_snd in Hi'. unfold range in Hi'. apply elem_of_seq in Hi'. lia.
Qed.

(** No position left out scores above a selected one. *)
Lemma topk_best (i j : nat) :
  i ∈ idx → (j < length l)%nat → j ∉ idx → l !!! j ≤ l !!! i.
Proof.
  destruct topk_inv as (_ & -> & _). intros Hi Hj Hnot.
  apply list_elem_of_fmap in Hi as ([v i'] & -> & Hi). simpl.
  destruct (lookup_lt_is_Some_2 l j Hj) as [w Hw].
  assert ((w, j) ∈ drop k sorted) as Hdrop.
  { assert ((w, j) ∈ sorted) as Hin.
    { rewrite sorted_perm. by apply elem_of_zip_range. }
    rewrite <-(take_drop k sorted) in Hin. apply elem_of_app in Hin as [Hin|Hin]; [|done].
    exfalso. apply Hnot. apply list_elem_of_fmap. by exists (w, j). }
  assert ((v, i') ∈ sorted) as Hvi.
  { rewrite <-(take_drop k sorted). apply elem_of_app. by left. }
  rewrite sorted_perm in Hvi. apply elem_of_zip_range in Hvi.
  rewrite (list_lookup_total_correct _ _ _ Hw), (list_lookup_total_correct _ _ _ Hvi).
  assert (StronglySorted topk_le (take k sorted ++ drop k sorted)) as Hss.
  { rewrite take_drop. apply StronglySorted_merge_sort; apply _. }
  pose proof (StronglySorted_app_1_elem_of _ _ _ _ _ Hss Hi Hdrop) as Hrel.
  unfold topk_le in Hrel. simpl in Hrel. destruct Hrel as [Hlt|[Heq _]].
  - by apply Qclt_le_weak.
  - rewrite Heq. apply Qcle_refl.
Qed.
(** The value returned with a selected index is the entry at that index. *)
Lemma topk_value (n i : nat) :
  idx !! n = Some i → ∃ v, vals !! n = Some v ∧ l !! i = Some v.
Proof.
  destruct topk_inv as (_ & Hidx & Hvals). rewrite Hidx, Hvals. clear Hidx Hvals.
  intros Hi. rewrite list_lookup_fmap in Hi.
  destruct (take k sorted !! n) as [[v j]|] eqn:Hn; [|done].
  simpl in Hi. inversion Hi; subst. exists v. rewrite list_lookup_fmap, Hn. split; [done|].
  apply elem_of_zip_range. rewrite <-sorted_perm.
  apply list_elem_of_lookup_2 in Hn. rewrite <-(take_drop k sorted).
  apply elem_of_app. by left.
Qed.

End topk.

(** Sorting distinct indices gives a strictly ascending list. *)
Lemma sort_nat_ascending (idx : list nat) :
  NoDup idx → StronglySorted lt (sort_nat idx) ∧ sort_nat idx ≡ₚ idx.
Proof.
  intros Hnd. unfold sort_nat. split; [|apply merge_sort_Permutation].
  assert (NoDup (merge_sort le idx)) as Hnd' by (by rewrite merge_sort_Permutation).
  assert (StronglySorted le (merge_sort le idx)) as Hss
    by (apply StronglySorted_merge_sort; apply _).
  revert Hnd' Hss. generalize (merge_sort le idx). intros s Hnd' Hss.
  induction Hss as [|x s Hss IH Hx]; [constructor|].
  apply list.NoDup_cons in Hnd' as [Hx' Hnd']. constructor; [by apply IH|].
  rewrite list.Forall_forall in Hx |- *. intros y Hy. specialize (Hx y Hy).
  assert (x ≠ y) by (by intros ->). lia.
Qed.

End TopkFacts.

Module SelectiveTheorems.
Import MoERouterPress Observe TopkFacts.

Lemma sequence_fmap_Ok {A B : Type} (f : A → result B) (h : A → B) (xs : list A) :
  Forall (λ x, f x = Ok (h x)) xs → sequence (f <$> xs) = Ok (h <$> xs).
Proof.
  unfold sequence. induction 1 as [|x xs Hx _ IH]; [done|].
  rewrite !fmap_cons. cbn [map_result]. unfold id at 1. rewrite Hx. cbn [bind].
  by rewrite IH.
Qed.

Lemma map_result_get {A : Type} `{!Inhabited A} (row : list A) (idx : list nat) :
  (∀ i, i ∈ idx → (i < length row)%nat) →
  map_result (get row) idx = Ok ((λ i, row !!! i) <$> idx).
Proof.
  induction idx as [|i idx IH]; intros Hidx; [done|]. simpl.
  destruct (lookup_lt_is_Some_2 row i) as [x Hx]; [apply Hidx; by left|].
  pose proof Hx as Hg. apply get_Ok in Hg. rewrite Hg. simpl.
  rewrite IH by (intros j Hj; apply Hidx; by right). simpl.
  by rewrite (list_lookup_total_correct _ _ _ Hx).
Qed.

Lemma index_select_rows (idx : list nat) (seq_len : nat) (t : Tensor4) :
  rows_of_length seq_len t → (∀ i, i ∈ idx → (i < seq_len)%nat) →
  index_select idx t = Ok (map_tokens (λ row : Tensor2, (λ i, row !!! i) <$> idx) t).
Proof.
  intros Hrows Hidx. unfold index_select, map_tokens.
  apply (sequence_fmap_Ok _ (λ heads : list Tensor2,
           (λ row : Tensor2, (λ i, row !!! i) <$> idx) <$> heads)).
  eapply list.Forall_impl; [exact Hrows|]. intros heads Hheads. simpl.
  apply (sequence_fmap_Ok _ (λ row : Tensor2, (λ i, row !!! i) <$> idx)).
  eapply list.Forall_impl; [exact Hheads|]. intros row Hrow. simpl.
  apply map_result_get. intros i Hi. rewrite Hrow. by apply Hidx.
Qed.

Lemma length_mean_dim0 (router_probs : Tensor3) :
  length (mean <$> mean_dim0 router_probs) = dim1 router_probs.
Proof. unfold mean_dim0, range. by rewrite !length_fmap, length_seq. Qed.

Lemma length_importance_scores (router_probs : Tensor3) (seq_len : nat) :
  length (importance_scores router_probs seq_len) = seq_len.
Proof.
  unfold importance_scores. case_decide as Hlen.
  - unfold linspace01, range. by rewrite length_fmap, length_seq.
  - done.
Qed.

Lemma num_keep_le (self : t) (seq_len n : nat) :
  num_keep self seq_len = Ok n → (n ≤ seq_len)%nat.
Proof. unfold num_keep. intros H. inv_bind H. inversion H. lia. Qed.

(** C5, as the code has it.  The selective strategy keeps
    [min(seq_len, max(1, int(seq_len * (1 - compression_ratio))))] positions,
    which is the count the claim words whenever the cache is not empty.  The
    kept positions are in ascending order, no position left out scores above
    a kept one, and every row of the keys and of the values is cut to them.
    The scores are the means of the router probabilities over the batch and
    the experts when there is one per cache position, and the ramp
    [linspace(0, 1, seq_len)] otherwise.  With [compression_ratio = 0.5] and
    10 positions, 5 are kept. *)
Theorem selective_keeps_top_positions (self : t) (keys values : Tensor4)
    (router_probs : Tensor3) (n : nat) :
  let seq_len := dim2 keys in
  let scores := importance_scores router_probs seq_len in
  num_keep self seq_len = Ok n →
  rows_of_length seq_len keys → rows_of_length seq_len values →
  (∃ z, py_int (float_of_nat seq_len * (1 - compression_ratio self))%float = Ok z ∧
        n = Nat.min seq_len (Z.to_nat (Z.max 1 z)) ∧
        ((1 ≤ seq_len)%nat → claimed_num_keep self seq_len = Ok n)) ∧
  (compression_ratio self = 0.5%float → seq_len = 10%nat → n = 5%nat) ∧
  (dim1 router_probs = seq_len → scores = mean <$> mean_dim0 router_probs) ∧
  (dim1 router_probs ≠ seq_len → scores = linspace01 seq_len) ∧
  ∃ idx,
    _apply_expert_compression self keys values "selective" router_probs
    = Ok (map_tokens (λ row : Tensor2, (λ i, row !!! i) <$> idx) keys,
          map_tokens (λ row : Tensor2, (λ i, row !!! i) <$> idx) values) ∧
    length idx = n ∧
    StronglySorted lt idx ∧
    (∀ i, i ∈ idx → (i < seq_len)%nat) ∧
    (∀ i j, i ∈ idx → (j < seq_len)%nat → j ∉ idx → scores !!! j ≤ scores !!! i).
Proof.
  intros seq_len scores Hn Hk Hv. split; [|split; [|split; [|split]]].
  - unfold num_keep in Hn. inv_bind Hn. rename a into z. inversion Hn as [Hn'].
    exists z. split; [done|]. split; [lia|].
    intros Hpos. unfold claimed_num_keep. fold seq_len. rewrite Ha. simpl. f_equal. lia.
  - intros Hcr Hlen. unfold num_keep in Hn. rewrite Hcr, Hlen in Hn.
    vm_compute in Hn. by inversion Hn.
  - intros Hdim. unfold scores, importance_scores.
    rewrite decide_False; [done|]. rewrite length_mean_dim0. by intros ?.
  - intros Hdim. unfold scores, importance_scores.
    rewrite decide_True; [done|]. by rewrite length_mean_dim0.
  - destruct (topk scores n) as [[vals idx]|e] eqn:Htopk.
    2:{ unfold topk in Htopk. unfold scores in Htopk.
        rewrite length_importance_scores in Htopk.
        apply num_keep_le in Hn. by rewrite decide_True in Htopk. }
    pose proof (topk_length _ _ _ _ Htopk) as Hlen.
    pose proof (topk_NoDup _ _ _ _ Htopk) as Hnd.
    pose proof (topk_in_range _ _ _ _ Htopk) as Hrange.
    pose proof (topk_best _ _ _ _ Htopk) as Hbest.
    unfold scores in Hrange, Hbest. rewrite length_importance_scores in Hrange, Hbest.
    destruct (sort_nat_ascending idx Hnd) as [Hsorted Hperm].
    exists (sort_nat idx).
    assert (∀ i, i ∈ sort_nat idx → (i < seq_len)%nat) as Hrange'.
    { intros i Hi. rewrite Hperm in Hi. by apply Hrange. }
    split; [|split; [|split; [|split]]].
    + unfold _apply_expert_compression.
      rewrite decide_False by done. rewrite decide_False by done.
      rewrite decide_False by done. rewrite decide_True by done.
      unfold important_indices. fold seq_len. rewrite Hn. cbn [bind].
      fold scores. rewrite Htopk. cbn [bind].
      rewrite (index_select_rows _ seq_len) by done. cbn [bind].
      by rewrite (index_select_rows _ seq_len) by done.
    + by rewrite Hperm.
    + done.
    + done.
    + intros i j Hi Hj Hnot. rewrite Hperm in Hi, Hnot. by apply Hbest.
Qed.

(** Ten positions at [compression_ratio = 0.5]: five are kept, in ascending
    order. *)
Lemma selective_keeps_top_positions_witness :
  ∃ idx,
    _apply_expert_compression (sample_press "base" 4) (sample_cache 10) (sample_cache 10)
      "selective" sample_probs
    = Ok (map_tokens (λ row : Tensor2, (λ i, row !!! i) <$> idx) (sample_cache 10),
          map_tokens (λ row : Tensor2, (λ i, row !!! i) <$> idx) (sample_cache 10)) ∧
    length idx = 5%nat ∧ StronglySorted lt idx.
Proof.
  destruct (selective_keeps_top_positions (sample_press "base" 4) (sample_cache 10)
              (sample_cache 10) sample_probs 5)
    as (_ & _ & _ & _ & idx & Hrun & Hlen & Hsorted & _);
    [vm_compute; reflexivity| apply CompressionTheorems.rows_of_length_sample_cache..|].
  exists idx. split; [exact Hrun|]. split; [exact Hlen|exact Hsorted].
Defined.

(** The positions kept in that call are 1, 4, 5, 7 and 8, the five with the
    scores 7, 8, 5, 9 and 6. *)
Lemma selective_sample_kept :
  important_indices (sample_press "base" 4) sample_probs 10 = Ok [1; 4; 5; 7; 8]%nat.
Proof. vm_compute. reflexivity. Qed.

(** On a cache with no position the strategy keeps none, while the count as
    the claim words it is 1. *)
Lemma selective_count_counterexample :
  _apply_expert_compression (sample_press "base" 4) [[[]]] [[[]]] "selective" []
  = Ok ([[[]]], [[[]]]) ∧
  dim2 ([[[]]] : Tensor4) = 0%nat ∧
  num_keep (sample_press "base" 4) 0 = Ok 0%nat ∧
  claimed_num_keep (sample_press "base" 4) 0 = Ok 1%nat.
Proof. repeat split; vm_compute; reflexivity. Qed.

End SelectiveTheorems.

(** ** Statistics and their reset *)

Module StatsTheorems.
Import MoERouterPress Observe.

Lemma base_of_with_base_of (b : BaseMoERouter.t) (router : Router) :
  base_of (with_base_of b router) = b.
Proof. by destruct router. Qed.

Lemma all_zero_zeros1 (n : nat) : all_zero (zeros1 n).
Proof. unfold all_zero, zeros1. by apply Forall_replicate. Qed.

(** What a router reports after its own [reset_stats]. *)
Lemma router_reset_stats_zero (router : Router) :
  let rs := router_get_routing_stats (router_reset_stats router) in
  BaseMoERouter.stats_total_tokens rs = 0 ∧
  all_zero (BaseMoERouter.stats_expert_usage_count rs) ∧
  all_zero (BaseMoERouter.stats_expert_usage_ratios rs) ∧
  all_zero (BaseMoERouter.stats_routing_decisions rs).
Proof.
  unfold router_get_routing_stats, router_reset_stats. rewrite base_of_with_base_of.
  unfold BaseMoERouter.get_routing_stats, BaseMoERouter.reset_stats. simpl.
  repeat split; auto using all_zero_zeros1.
Qed.

(** [reset_stats] touches neither a network nor a history. *)
Lemma router_reset_stats_frame (router : Router) :
  networks (router_reset_stats router) = networks router ∧
  histories (router_reset_stats router) = histories router.
Proof. by destruct router. Qed.

Lemma zero__all_zero (cs : compression_stats) :
  all_zero (expert_usage (zero_ cs)) ∧ all_zero (compression_ratios (zero_ cs)) ∧
  all_zero (cache_hit_rates (zero_ cs)).
Proof. unfold zero_. simpl. auto using all_zero_zeros1. Qed.

(** C1, as the code has it.  After [reset_stats], [get_stats] returns, with
    every counter at 0: the total and the average auxiliary loss, the forward
    count, and for every layer the router's [total_tokens], usage counts,
    usage ratios and routing decisions and the three compression statistics.
    The learned networks are unchanged; so are the circular histories and
    their cursors, which [reset_stats] does not touch. *)
Theorem reset_stats_zeroes_counters (self : t) :
  registered self →
  (∃ s, get_stats (reset_stats self) = Ok s ∧ stats_zero s ∧
        ∀ layer_idx, is_Some (stats_layer_stats s !! layer_idx)
                     ↔ is_Some (routers self !! layer_idx)) ∧
  (∀ layer_idx router, routers self !! layer_idx = Some router →
     ∃ router', routers (reset_stats self) !! layer_idx = Some router' ∧
       networks router' = networks router ∧
       histories router' = histories router).
Proof.
  intros Hreg. split.
  - unfold get_stats.
    set (f := λ '(layer_idx, router),
      match expert_compression_stats (reset_stats self) !! layer_idx with
      | Some cs => Ok (layer_idx, {| router_stats := router_get_routing_stats router;
                                     layer_compression_stats := cs |})
      | None => Raise KeyError
      end).
    assert (∀ layer_idx router,
      routers (reset_stats self) !! layer_idx = Some router →
      ∃ router0 cs, routers self !! layer_idx = Some router0 ∧
        expert_compression_stats self !! layer_idx = Some cs ∧
        router = router_reset_stats router0 ∧
        f (layer_idx, router)
        = Ok (layer_idx, {| router_stats := router_get_routing_stats router;
                            layer_compression_stats := zero_ cs |})) as Hf.
    { intros l r Hl. unfold reset_stats in Hl. cbn [routers with_state] in Hl.
      rewrite lookup_fmap in Hl. destruct (routers self !! l) as [r0|] eqn:Hr0; [|done].
      inversion Hl; subst.
      destruct (Hreg l) as [cs Hcs]; [by rewrite Hr0|].
      exists r0, cs. repeat split; [done|]. unfold f, reset_stats.
      cbn [expert_compression_stats with_state]. by rewrite lookup_fmap, Hcs. }
    destruct (map_result_total f (map_to_list (routers (reset_stats self)))) as [layers Hlayers].
    { apply list.Forall_forall. intros [l r] Hin. apply elem_of_map_to_list in Hin.
      destruct (Hf l r Hin) as (r0 & cs & _ & _ & _ & Heq). eauto. }
    rewrite Hlayers. cbn [bind]. eexists. split; [done|].
    apply map_result_Ok in Hlayers.
    assert (layers.*1 = (map_to_list (routers (reset_stats self))).*1) as Hkeys.
    { assert (Forall (λ x, routers (reset_stats self) !! x.1 = Some x.2)
                (map_to_list (routers (reset_stats self)))) as Hall.
      { apply list.Forall_forall. intros [l r] Hin. by apply elem_of_map_to_list in Hin. }
      revert Hall Hlayers. generalize (map_to_list (routers (reset_stats self))).
      intros xs Hall Hlayers.
      induction Hlayers as [|[l r] y xs ys Hxy _ IH]; [done|].
      inversion Hall as [|? ? Hlr Hall']; subst. simpl in Hlr.
      destruct (Hf l r Hlr) as (r0 & cs & _ & _ & _ & Heq).
      rewrite Heq in Hxy. inversion Hxy; subst. simpl. f_equal. by apply IH. }
    assert (∀ l ls, (list_to_map layers : gmap nat layer_stats) !! l = Some ls →
      ∃ r0 cs, routers self !! l = Some r0 ∧
        ls = {| router_stats := router_get_routing_stats (router_reset_stats r0);
                layer_compression_stats := zero_ cs |}) as Hlookup.
    { intros l ls Hl. apply elem_of_list_to_map_2 in Hl.
      apply list_elem_of_lookup in Hl as [i Hi].
      destruct (Forall2_lookup_r _ _ _ _ _ Hlayers Hi) as ([l' r] & Hx & Hfx).
      assert (routers (reset_stats self) !! l' = Some r) as Hr.
      { apply elem_of_map_to_list. apply list_elem_of_lookup. eauto. }
      destruct (Hf l' r Hr) as (r0 & cs & Hr0 & _ & -> & Heq).
      rewrite Heq in Hfx. inversion Hfx; subst. eauto. }
    split.
    + unfold stats_zero. cbn [stats_total_aux_loss stats_avg_aux_loss
        stats_forward_count stats_layer_stats].
      unfold reset_stats. cbn [total_aux_loss forward_count with_state].
      split; [done|]. split; [done|]. split; [done|].
      intros l ls Hl. apply Hlookup in Hl as (r0 & cs & _ & ->).
      cbn [router_stats layer_compression_stats].
      destruct (router_reset_stats_zero r0) as (? & ? & ? & ?).
      destruct (zero__all_zero cs) as (? & ? & ?). done.
    + intros l. cbn [stats_layer_stats]. split.
      * intros [ls Hl]. apply Hlookup in Hl as (r0 & cs & Hr0 & _). by rewrite Hr0.
      * intros [r0 Hr0].
        assert (l ∈ layers.*1) as Hin.
        { rewrite Hkeys. apply list_elem_of_fmap.
          exists (l, router_reset_stats r0). split; [done|].
          apply elem_of_map_to_list. unfold reset_stats. cbn [routers with_state].
          by rewrite lookup_fmap, Hr0. }
        apply list_elem_of_fmap in Hin as ([l' ls] & -> & Hin).
        exists ls. apply elem_of_list_to_map_1; [|done].
        rewrite Hkeys. apply NoDup_fst_map_to_list.
  - intros l r Hr. exists (router_reset_stats r).
    unfold reset_stats. cbn [routers with_state]. rewrite lookup_fmap, Hr.
    split; [done|]. apply router_reset_stats_frame.
Qed.

(** The two dictionaries stay in step. *)
Lemma registered_post_init (self : t) : registered (__post_init__ self).
Proof. intros l [r Hr]. unfold __post_init__ in Hr. by simplify_map_eq. Qed.

Lemma registered_insert (self : t) (rs : gmap nat Router) (cs : gmap nat compression_stats)
    (l : nat) (r : Router) (c : compression_stats) (loss : Qc) (count : nat) :
  (∀ l', is_Some (rs !! l') → is_Some (cs !! l')) →
  registered (with_state (<[l := r]> rs) (<[l := c]> cs) loss count self).
Proof.
  intros Hreg l' Hl'. cbn [routers expert_compression_stats with_state] in *.
  destruct (decide (l = l')) as [<-|Hne]; [by simplify_map_eq|].
  rewrite lookup_insert_ne in Hl' by done. rewrite lookup_insert_ne by done. by apply Hreg.
Qed.

Lemma registered_get_router (g : nn.Rng) (self self' : t) (layer_idx hidden_size : nat)
    (router : Router) :
  registered self → _get_router g self layer_idx hidden_size = Ok (router, self') →
  registered self'.
Proof.
  intros Hreg Hrun. unfold _get_router in Hrun.
  destruct (routers self !! layer_idx); [by inversion Hrun; subst|].
  inv_bind Hrun. inversion Hrun; subst. by apply registered_insert.
Qed.

Lemma registered_compress `{!Transcendental} (g : nn.Rng) (self self' : t)
    (layer_idx : nat) (hidden_states : Tensor3) (keys values keys' values' : Tensor4)
    (noise : Noise) :
  registered self →
  compress g self layer_idx hidden_states keys values noise = Ok (keys', values', self') →
  registered self'.
Proof.
  intros Hreg Hrun. unfold compress in Hrun.
  inv_bind Hrun. destruct a as [router self1]. apply registered_get_router in Ha; [|done].
  inv_bind Hrun. destruct a as [[probs aux] router']. inv_bind Hrun. inv_bind Hrun.
  inv_bind Hrun. destruct a1 as [ck cv]. inv_bind Hrun. inv_bind Hrun.
  case_decide; [discriminate|]. inv_bind Hrun. inv_bind Hrun.
  inversion Hrun; subst. by apply registered_insert.
Qed.

(** One [compress] call on the default press, then a reset. *)
Lemma reset_stats_zeroes_counters_witness :
  ∃ keys' values' self s,
    compress (H:=dyadic) mixed_rng (sample_press "pikv" 4) 0 sample_hidden
      (sample_cache 10) (sample_cache 10) no_noise = Ok (keys', values', self) ∧
    get_stats (reset_stats self) = Ok s ∧ stats_zero s.
Proof.
  destruct (compress (H:=dyadic) mixed_rng (sample_press "pikv" 4) 0 sample_hidden
              (sample_cache 10) (sample_cache 10) no_noise)
    as [[[keys' values'] self]|] eqn:Hrun; [|vm_compute in Hrun; discriminate].
  apply registered_compress in Hrun; [|apply registered_post_init].
  destruct (reset_stats_zeroes_counters self Hrun) as [(s & Hs & Hzero & _) _].
  by exists keys', values', self, s.
Defined.

(** The same call and reset: the cache-usage history of the layer's router
    still holds the hit rate of the call, and its cursor is at 1. *)
Lemma reset_keeps_histories_counterexample :
  ∃ keys' values' self router,
    compress (H:=dyadic) mixed_rng (sample_press "pikv" 4) 0 sample_hidden
      (sample_cache 10) (sample_cache 10) no_noise = Ok (keys', values', self) ∧
    routers (reset_stats self) !! 0%nat = Some router ∧
    (histories router).2 = [0; 1]%nat ∧
    ¬ histories_empty router.
Proof.
  eexists _, _, _, _. split; [vm_compute; reflexivity|].
  split; [vm_compute; reflexivity|].
  split; [vm_compute; reflexivity|].
  intros [_ Hcursors]. vm_compute in Hcursors.
  inversion Hcursors as [|? ? _ Hrest]. inversion Hrest as [|? ? Hone _]. discriminate.
Qed.

End StatsTheorems.

(** ** Boolean masks, gather and scatter *)

Module MaskFacts.

Lemma elem_of_where_from (i s : nat) (row : list bool) :
  s ∈ where_from i row ↔ (i ≤ s)%nat ∧ row !! (s - i)%nat = Some true.
Proof.
  revert i. induction row as [|m row IH]; intros i; simpl.
  - split; [by intros ?%elem_of_nil|by intros [_ ?]].
  - rewrite elem_of_app, IH. destruct m; simpl.
    + rewrite list_elem_of_singleton. split.
      * intros [->|[Hle Hs]].
        -- split; [lia|]. by replace (i - i)%nat with 0%nat by lia.
        -- split; [lia|]. by replace (s - i)%nat with (S (s - S i)) by lia.
      * intros [Hle Hs]. destruct (decide (s = i)) as [->|Hne]; [by left|right].
        split; [lia|]. by replace (s - i)%nat with (S (s - S i)) in Hs by lia.
    + rewrite elem_of_nil. split.
      * intros [[]|[Hle Hs]]. split; [lia|].
        by replace (s - i)%nat with (S (s - S i)) by lia.
      * intros [Hle Hs]. right. destruct (decide (s = i)) as [->|Hne].
        -- by replace (i - i)%nat with 0%nat in Hs by lia.
        -- split; [lia|]. by replace (s - i)%nat with (S (s - S i)) in Hs by lia.
Qed.

Lemma NoDup_where_from (i : nat) (row : list bool) : NoDup (where_from i row).
Proof.
  revert i. induction row as [|m row IH]; intros i; simpl; [constructor|].
  destruct m; simpl; [|apply IH]. constructor; [|apply IH].
  rewrite elem_of_where_from. lia.
Qed.

Lemma elem_of_where_rows (b0 b s : nat) (mask : list (list bool)) :
  (b, s) ∈ where_rows b0 mask ↔
  (b0 ≤ b)%nat ∧ tok_at mask (b - b0) s = Some true.
Proof.
  unfold tok_at. revert b0. induction mask as [|row mask IH]; intros b0; simpl.
  - split; [by intros ?%elem_of_nil|by intros [_ ?]].
  - rewrite elem_of_app, IH, list_elem_of_fmap. split.
    + intros [(s' & Heq & Hs')|[Hle Hs]].
      * inversion Heq; subst. apply elem_of_where_from in Hs' as [_ Hs'].
        split; [lia|]. replace (b0 - b0)%nat with 0%nat by lia. simpl.
        by replace (s' - 0)%nat with s' in Hs' by lia.
      * split; [lia|]. by replace (b - b0)%nat with (S (b - S b0)) by lia.
    + intros [Hle Hs]. destruct (decide (b = b0)) as [->|Hne].
      * left. exists s. split; [done|]. apply elem_of_where_from.
        replace (b0 - b0)%nat with 0%nat in Hs by lia. simpl in Hs.
        split; [lia|]. by replace (s - 0)%nat with s by lia.
      * right. split; [lia|]. by replace (b - b0)%nat with (S (b - S b0)) in Hs by lia.
Qed.

Lemma NoDup_where_rows (b0 : nat) (mask : list (list bool)) : NoDup (where_rows b0 mask).
Proof.
  revert b0. induction mask as [|row mask IH]; intros b0; simpl; [constructor|].
  apply list.NoDup_app. split; [|split; [|apply IH]].
  - apply (NoDup_fmap_2 _). apply NoDup_where_from.
  - intros [b s] (s' & Heq & _)%list_elem_of_fmap [Hle _]%elem_of_where_rows.
    inversion Heq; subst. lia.
Qed.

Lemma elem_of_where2 (b s : nat) (mask : list (list bool)) :
  (b, s) ∈ where2 mask ↔ tok_at mask b s = Some true.
Proof.
  unfold where2. rewrite elem_of_where_rows. replace (b - 0)%nat with b by lia.
  split; [by intros [_ ?]|]. split; [lia|done].
Qed.

Lemma tok_at_map_tokens {A B : Type} (f : A → B) (t : list (list A)) (b s : nat) :
  tok_at (map_tokens f t) b s = f <$> tok_at t b s.
Proof.
  unfold tok_at, map_tokens. rewrite list_lookup_fmap.
  destruct (t !! b) as [row|]; simpl; [|done]. by rewrite list_lookup_fmap.
Qed.

Lemma tok_at_set3 {A : Type} (t : list (list (list A))) (b s e b' s' : nat) (x : A) :
  tok_at (set3 b s e x t) b' s' =
    if decide (b = b' ∧ s = s') then set1 e x <$> tok_at t b' s' else tok_at t b' s'.
Proof.
  unfold tok_at, set3. destruct (decide (b = b')) as [<-|Hb].
  - rewrite list_lookup_alter_eq. destruct (t !! b) as [row|]; simpl.
    + destruct (decide (s = s')) as [<-|Hs].
      * rewrite list_lookup_alter_eq. by rewrite decide_True.
      * rewrite list_lookup_alter_ne by done. rewrite decide_False; [done|]. by intros [_ ?].
    + by case_decide.
  - rewrite list_lookup_alter_ne by done. rewrite decide_False; [done|]. by intros [? _].
Qed.

(** A scatter leaves the tokens outside its positions alone, and writes the
    value that goes with a position at that position. *)
Lemma scatter_notin (t : Tensor3) (positions : list (nat * nat)) (e : nat)
    (values : Tensor1) (b s : nat) :
  (b, s) ∉ positions → tok_at (scatter t positions e values) b s = tok_at t b s.
Proof.
  unfold scatter. revert t values.
  induction positions as [|[b' s'] ps IH]; intros t values Hnot; [done|].
  destruct values as [|v values]; [done|]. simpl.
  rewrite IH by (intros ?; apply Hnot; by right).
  rewrite tok_at_set3, decide_False; [done|].
  intros [-> ->]. apply Hnot. by left.
Qed.

Lemma scatter_in (t : Tensor3) (positions : list (nat * nat)) (e : nat)
    (values : Tensor1) (b s n : nat) (v : Qc) :
  NoDup positions → positions !! n = Some (b, s) → values !! n = Some v →
  tok_at (scatter t positions e values) b s = set1 e v <$> tok_at t b s.
Proof.
  unfold scatter. revert t values n.
  induction positions as [|[b' s'] ps IH]; intros t values n Hnd Hn Hv; [done|].
  apply list.NoDup_cons in Hnd as [Hnot Hnd].
  destruct values as [|v' values]; [by destruct n|]. simpl.
  destruct n as [|n]; simpl in *.
  - inversion Hn; inversion Hv; subst.
    fold (scatter (set3 b s e v t) ps e values). rewrite scatter_notin by done.
    rewrite tok_at_set3. by rewrite decide_True.
  - rewrite (IH _ _ n) by done. rewrite tok_at_set3, decide_False; [done|].
    intros [-> ->]. apply Hnot. by eapply list_elem_of_lookup_2.
Qed.

Lemma gather_Ok {A : Type} (t : list (list A)) (positions : list (nat * nat))
    (xs : list A) :
  gather t positions = Ok xs →
  Forall2 (λ p x, tok_at t p.1 p.2 = Some x) positions xs.
Proof.
  intros H. apply map_result_Ok in H.
  eapply Forall2_impl; [|exact H]. intros [b s] x Hx. simpl in *.
  inv_bind Hx. apply get_Ok in Ha, Hx. unfold tok_at. by rewrite Ha.
Qed.

Lemma sequence_fmap_inv {A B : Type} (f : A → result B) (xs : list A) (ys : list B) :
  sequence (f <$> xs) = Ok ys → Forall2 (λ x y, f x = Ok y) xs ys.
Proof.
  unfold sequence. intros H. apply map_result_Ok in H.
  apply Forall2_fmap_l in H. eapply Forall2_impl; [|exact H]. by intros x y.
Qed.

Lemma select_rank_Ok {A : Type} (t : list (list (list A))) (j : nat)
    (r : list (list A)) (b s : nat) (tok : list A) :
  select_rank t j = Ok r → tok_at t b s = Some tok →
  ∃ a, tok !! j = Some a ∧ tok_at r b s = Some a.
Proof.
  unfold select_rank, tok_at. intros H Htok.
  apply sequence_fmap_inv in H.
  destruct (t !! b) as [row|] eqn:Hrow; [|done]. simpl in Htok.
  destruct (Forall2_lookup_l _ _ _ _ _ H Hrow) as (row' & Hrow' & Hseq).
  apply sequence_fmap_inv in Hseq.
  destruct (Forall2_lookup_l _ _ _ _ _ Hseq Htok) as (a & Ha & Hget).
  apply get_Ok in Hget. exists a. split; [done|]. by rewrite Hrow'.
Qed.

(** A token of a [topk3] result is the [topk] of the token. *)
Lemma topk3_Ok (probs : Tensor3) (k : nat) (vals : Tensor3) (idx : list (list (list nat)))
    (b s : nat) (ids : list nat) :
  topk3 probs k = Ok (vals, idx) → tok_at idx b s = Some ids →
  ∃ p v, tok_at probs b s = Some p ∧ topk p k = Ok (v, ids) ∧ tok_at vals b s = Some v.
Proof.
  unfold topk3. intros H Hids. inv_bind H. rename a into sel. inversion H; subst; clear H.
  rewrite tok_at_map_tokens in Hids.
  destruct (tok_at sel b s) as [[v ids']|] eqn:Hsel; [|done]. simpl in Hids.
  inversion Hids; subst. pose proof Hsel as Hsel0. unfold tok_at in Hsel.
  destruct (sel !! b) as [row'|] eqn:Hrow'; [|done]. simpl in Hsel.
  apply sequence_fmap_inv in Ha.
  destruct (Forall2_lookup_r _ _ _ _ _ Ha Hrow') as (row & Hrow & Hseq).
  apply sequence_fmap_inv in Hseq.
  destruct (Forall2_lookup_r _ _ _ _ _ Hseq Hsel) as (p & Hp & Htopk).
  exists p, v. rewrite tok_at_map_tokens, Hsel0. unfold tok_at. rewrite Hrow. simpl. done.
Qed.

Lemma tok_at_zeros3 (B S E b s : nat) :
  (b < B)%nat → (s < S)%nat → tok_at (zeros3 B S E) b s = Some (replicate E 0).
Proof.
  intros Hb Hs. unfold tok_at, zeros3, zeros2, zeros1.
  rewrite lookup_replicate_2 by done. simpl. by rewrite lookup_replicate_2.
Qed.

Lemma lookup_total_scale (q : Tensor1) (p : Qc) (i : nat) :
  ((λ v, v * p) <$> q) !!! i = q !!! i * p.
Proof.
  rewrite !list_lookup_total_alt, list_lookup_fmap.
  destruct (q !! i); simpl; [done|]. symmetry. apply Qcmult_0_l.
Qed.

End MaskFacts.

(** ** Hierarchical routing *)

Module HierarchicalTheorems.
Import HierarchicalRouter Observe MaskFacts TopkFacts.

Section route_group.
Context `{!Transcendental}.
Context (self : t) (hidden_states : Tensor3).
Context (current_group_indices : list (list nat)) (current_group_probs : Tensor2).
Context (g : nat) (final final' : Tensor3).
Hypothesis Hrun :
  route_group self hidden_states current_group_indices current_group_probs g final
  = Ok final'.

Let positions := where2 (map_tokens (λ i, bool_decide (i = g)) current_group_indices).

Lemma in_positions (b s : nat) :
  (b, s) ∈ positions ↔ tok_at current_group_indices b s = Some g.
Proof.
  unfold positions. rewrite elem_of_where2, tok_at_map_tokens.
  destruct (tok_at current_group_indices b s) as [i|]; simpl; [|done].
  split.
  - intros Heq. inversion Heq as [Hb]. apply bool_decide_eq_true in Hb. by subst.
  - intros Heq. inversion Heq; subst. by rewrite bool_decide_eq_true_2.
Qed.

(** A token of another group keeps its row. *)
Lemma route_group_other (b s : nat) :
  tok_at current_group_indices b s ≠ Some g → tok_at final' b s = tok_at final b s.
Proof.
  intros Hother. assert ((b, s) ∉ positions) as Hnot by (by rewrite in_positions).
  unfold route_group in Hrun. fold positions in Hrun.
  case_decide; [by inversion Hrun|].
  inv_bind Hrun. case_decide; [by inversion Hrun|].
  inv_bind Hrun. inv_bind Hrun. inv_bind Hrun.
  revert Hrun. generalize (range (experts_per_group self)). intros ids. revert final.
  induction ids as [|i ids IH]; intros f Hrun; simpl in Hrun; [by inversion Hrun|].
  inv_bind Hrun. rewrite (IH _ Hrun). clear IH Hrun.
  case_decide; [|by inversion Ha3]. case_decide; [|by inversion Ha3].
  inv_bind Ha3. inversion Ha3; subst. by apply scatter_notin.
Qed.

(** A token of group [g] gets, at the experts of the group, its
    intra-group probabilities times the probability of the group. *)
Lemma route_group_same (b s : nat) (row : Tensor1) :
  tok_at current_group_indices b s = Some g → tok_at final b s = Some row →
  ∃ x router_g logits p,
    tok_at hidden_states b s = Some x ∧
    intra_group_routers self !! g = Some router_g ∧
    nn.Sequential_forward (BaseMoERouter.training (base self)) (λ _, true) router_g x
    = Ok logits ∧
    tok_at current_group_probs b s = Some p ∧
    tok_at final' b s =
      Some (write_group (BaseMoERouter.num_experts (base self))
              (g * experts_per_group self) (experts_per_group self)
              ((λ v, v * p) <$> nn.softmax logits) row).
Proof.
  intros Hg Hrow. assert ((b, s) ∈ positions) as Hin by (by rewrite in_positions).
  apply list_elem_of_lookup in Hin as [n Hn].
  assert (NoDup positions) as Hnd by apply NoDup_where_rows.
  unfold route_group in Hrun. fold positions in Hrun.
  case_decide as Hnil; [by rewrite Hnil in Hn|].
  inv_bind Hrun. rename a into group_hidden.
  case_decide as Hlen0.
  { apply gather_Ok, Forall2_length in Ha. apply lookup_lt_Some in Hn. lia. }
  inv_bind Hrun. rename a into router_g. apply get_Ok in Ha0.
  inv_bind Hrun. rename a into intra_logits.
  inv_bind Hrun. rename a into gpv.
  apply gather_Ok in Ha, Ha2. apply map_result_Ok in Ha1.
  destruct (Forall2_lookup_l _ _ _ _ _ Ha Hn) as (x & Hx & Hxtok).
  destruct (Forall2_lookup_l _ _ _ _ _ Ha1 Hx) as (logits & Hlogits & Hfwd).
  destruct (Forall2_lookup_l _ _ _ _ _ Ha2 Hn) as (p & Hp & Hptok).
  simpl in Hxtok, Hptok.
  exists x, router_g, logits, p. do 4 (split; [done|]).
  set (fip := zip_with (λ (q : Tensor1) p0, (λ v, v * p0) <$> q)
                (nn.softmax <$> intra_logits) gpv) in *.
  assert (fip !! n = Some ((λ v, v * p) <$> nn.softmax logits)) as Hfip.
  { unfold fip. rewrite lookup_zip_with, list_lookup_fmap, Hlogits. simpl.
    by rewrite Hp. }
  unfold write_group. revert Hrun Hrow.
  generalize (range (experts_per_group self)). intros ids. revert final row.
  induction ids as [|i ids IH]; intros f row Hrun Hrow; simpl in Hrun.
  { inversion Hrun; subst. done. }
  inv_bind Hrun. rename a into f1. simpl. eapply IH; [exact Hrun|]. clear IH Hrun.
  case_decide; [|by inversion Ha3; subst].
  case_decide as Hlen; [|exfalso; apply Hlen; apply lookup_lt_Some in Hn; lia].
  inv_bind Ha3. rename a into values. inversion Ha3; subst. clear Ha3.
  apply map_result_Ok in Ha4.
  destruct (Forall2_lookup_l _ _ _ _ _ Ha4 Hfip) as (v & Hv & Hget).
  apply get_Ok in Hget.
  rewrite (scatter_in _ _ _ _ _ _ n v) by done. rewrite Hrow. simpl. unfold set1.
  by rewrite (list_lookup_total_correct _ _ _ Hget).
Qed.
End route_group.

(** C4.  With 4 groups and 8 experts, 2 to a group: a token whose selected
    group is group 2 has, in the probabilities [forward] returns, zero at
    every expert but 4 and 5, and at these two the probability of group 2
    times the probability the router of group 2 gives, inside the group, to
    the first and to the second of its experts. *)
Theorem group_two_reaches_experts_4_and_5 `{!Transcendental} (self self' : t)
    (hidden_states : Tensor3) (expert_mask : option Tensor1)
    (keep : nat → nat → nat → bool) (d c : Tensor4) (final : Tensor3) (aux : Qc)
    (group_probs top_group_probs : Tensor3) (top_group_indices : list (list (list nat)))
    (b s : nat) :
  num_groups self = 4%nat →
  BaseMoERouter.num_experts (base self) = 8%nat →
  experts_per_group self = 2%nat →
  forward self hidden_states expert_mask keep = Ok (d, c, final, aux, self') →
  group_stage self hidden_states keep = Ok (group_probs, top_group_probs, top_group_indices) →
  tok_at top_group_indices b s = Some [2%nat] →
  (s < dim1 hidden_states)%nat →
  ∃ x router_2 logits gp,
    tok_at hidden_states b s = Some x ∧
    intra_group_routers self !! 2%nat = Some router_2 ∧
    nn.Sequential_forward (BaseMoERouter.training (base self)) (λ _, true) router_2 x
    = Ok logits ∧
    tok_at group_probs b s = Some gp ∧
    tok_at final b s =
      Some [0; 0; 0; 0;
            nn.softmax logits !!! 0%nat * gp !!! 2%nat;
            nn.softmax logits !!! 1%nat * gp !!! 2%nat;
            0; 0].
Proof.
  intros Hng HE Hepg Hfwd Hgs Htok Hs.
  unfold forward in Hfwd. rewrite Hgs in Hfwd. cbn [bind] in Hfwd.
  apply bind_Ok in Hfwd as (final0 & Hcompose & Hfwd).
  apply bind_Ok in Hfwd as ([tkp tki] & _ & Hfwd).
  apply bind_Ok in Hfwd as ([d0 c0] & _ & Hfwd).
  apply bind_Ok in Hfwd as (gl & _ & Hfwd).
  apply bind_Ok in Hfwd as (el & _ & Hfwd).
  inversion Hfwd; subst; clear Hfwd.
  (* the first stage *)
  unfold group_stage in Hgs.
  apply bind_Ok in Hgs as (group_logits & Hlogits & Hgs).
  apply bind_Ok in Hgs as ([tgp tgi] & Htopk3 & Hgs).
  inversion Hgs; subst; clear Hgs.
  destruct (topk3_Ok _ _ _ _ _ _ _ Htopk3 Htok) as (gp & v & Hgp & Htopk & Hv).
  pose proof (topk_length _ _ _ _ Htopk) as Hk. simpl in Hk.
  destruct (topk_value _ _ _ _ Htopk 0 2 eq_refl) as (p & Hp & Hgp2).
  assert (b < dim0 hidden_states)%nat as Hb.
  { rewrite tok_at_map_tokens in Hgp. unfold tok_at in Hgp.
    destruct (group_logits !! b) as [row|] eqn:Hrow; [|done].
    apply lookup_lt_Some in Hrow. unfold nn.Sequential_forward3, sequence in Hlogits.
    apply map_result_Ok, Forall2_length in Hlogits. rewrite length_imap in Hlogits.
    unfold dim0. lia. }
  (* the second stage: one rank, four groups *)
  unfold compose in Hcompose. rewrite <-Hk, Hng, HE in Hcompose. simpl in Hcompose.
  apply bind_Ok in Hcompose as (f4 & Hrank & Hcompose).
  inversion Hcompose; subst; clear Hcompose.
  apply bind_Ok in Hrank as (cgi & Hcgi & Hrank).
  apply bind_Ok in Hrank as (cgp & Hcgp & Hrank).
  apply bind_Ok in Hrank as (f0 & Hg0 & Hrank).
  apply bind_Ok in Hrank as (f1 & Hg1 & Hrank).
  apply bind_Ok in Hrank as (f2 & Hg2 & Hrank).
  apply bind_Ok in Hrank as (f3 & Hg3 & Hrank).
  inversion Hrank; subst; clear Hrank.
  destruct (select_rank_Ok _ _ _ _ _ _ Hcgi Htok) as (g' & Hg' & Hcgi').
  inversion Hg'; subst; clear Hg'.
  destruct (select_rank_Ok _ _ _ _ _ _ Hcgp Hv) as (p' & Hp' & Hcgp').
  rewrite Hp in Hp'. inversion Hp'; subst; clear Hp'.
  pose proof (tok_at_zeros3 _ _ 8 _ _ Hb Hs) as H0.
  rewrite <-(route_group_other _ _ _ _ _ _ _ Hg0 b s) in H0 by (rewrite Hcgi'; congruence).
  rewrite <-(route_group_other _ _ _ _ _ _ _ Hg1 b s) in H0 by (rewrite Hcgi'; congruence).
  destruct (route_group_same _ _ _ _ _ _ _ Hg2 b s _ Hcgi' H0)
    as (x & router_2 & logits & p0 & Hx & Hr & Hl & Hp0 & Hrow).
  rewrite Hcgp' in Hp0. inversion Hp0; subst; clear Hp0.
  rewrite <-(route_group_other _ _ _ _ _ _ _ Hg3 b s) in Hrow by (rewrite Hcgi'; congruence).
  exists x, router_2, logits, gp. do 4 (split; [done|]).
  rewrite Hrow, HE, Hepg. unfold write_group. simpl.
  rewrite (list_lookup_total_correct _ _ _ Hgp2).
  by rewrite !lookup_total_scale.
Qed.

(** The first token of [sample_hidden] is routed to group 2. *)
Lemma group_two_reaches_experts_4_and_5_witness :
  ∃ self out v4 v5,
    __init__ mixed_rng 4 8 2 1.5%float 0 4 1 = Ok self ∧
    forward (H:=dyadic) self sample_hidden None all_kept = Ok out ∧
    tok_at out.1.1.2 0 0 = Some [0; 0; 0; 0; v4; v5; 0; 0].
Proof.
  destruct (__init__ mixed_rng 4 8 2 1.5%float 0 4 1) as [self|e] eqn:Hself;
    [|vm_compute in Hself; discriminate].
  assert (num_groups self = 4%nat ∧ BaseMoERouter.num_experts (base self) = 8%nat ∧
          experts_per_group self = 2%nat) as (Hng & HE & Hepg).
  { unfold __init__ in Hself. rewrite decide_False in Hself by done.
    inversion Hself; subst. done. }
  destruct (forward (H:=dyadic) self sample_hidden None all_kept)
    as [[[[[d c] final] aux] self']|e] eqn:Hfwd;
    [|vm_compute in Hself; inversion Hself; subst; vm_compute in Hfwd; discriminate].
  destruct (group_stage (H:=dyadic) self sample_hidden all_kept)
    as [[[gp tgp] tgi]|e] eqn:Hgs;
    [|vm_compute in Hself; inversion Hself; subst; vm_compute in Hgs; discriminate].
  destruct (group_two_reaches_experts_4_and_5 (H:=dyadic) self self' sample_hidden None
              all_kept d c final aux gp tgp tgi 0 0 Hng HE Hepg Hfwd Hgs)
    as (x & router_2 & logits & p & _ & _ & _ & _ & Hrow).
  - vm_compute in Hself. inversion Hself; subst. vm_compute in Hgs.
    inversion Hgs; subst. reflexivity.
  - vm_compute. lia.
  - exists self, (d, c, final, aux, self'). eexists _, _.
    split; [reflexivity|]. split; [exact Hfwd|]. exact Hrow.
Defined.

End HierarchicalTheorems.

(** ** Routing probabilities *)

Module ProbabilityTheorems.
Import MoERouterPress MaskFacts.

Lemma qsum_scale (l : Tensor1) (s : Qc) : qsum ((λ e, e / s) <$> l) = qsum l / s.
Proof.
  induction l as [|x l IH]; csimpl.
  - unfold Qcdiv. by rewrite Qcmult_0_l.
  - rewrite IH. unfold Qcdiv. ring.
Qed.







End ProbabilityTheorems.

(** ** The usage counters *)

Module CounterTheorems.
Import BaseMoERouter.

Lemma for_each_snoc {A S : Type} (xs : list A) (x : A) (body : A → S → result S) (st : S) :
  for_each (xs ++ [x]) body st = bind (for_each xs body st) (body x).
Proof.
  revert st. induction xs as [|y xs IH]; intros st; simpl.
  - by destruct (body x st).
  - destruct (body y st) as [st'|e]; simpl; [apply IH|done].
Qed.

Lemma range_S (n : nat) : range (S n) = range n ++ [n].
Proof. unfold range. by rewrite seq_S. Qed.

Lemma add_at_Ok (i : nat) (x : Qc) (buf buf' : Tensor1) :
  add_at i x buf = Ok buf' →
  length buf' = length buf ∧ (i < length buf)%nat ∧
  ∀ e, buf' !! e = if decide (e = i) then (λ v, v + x) <$> buf !! e else buf !! e.
Proof.
  unfold add_at. intros H. inv_bind H. apply get_Ok in Ha. inversion H; subst.
  pose proof (lookup_lt_Some _ _ _ Ha) as Hlt.
  split; [by rewrite length_insert|]. split; [done|].
  intros e. case_decide as He.
  - subst. rewrite list_lookup_insert_eq by done. by rewrite Ha.
  - by rewrite list_lookup_insert_ne.
Qed.

(** The loop [for expert_idx in range(n): buf[expert_idx] += f(expert_idx)]. *)
Lemma add_counts_loop (f : nat → Qc) (n : nat) (u u' : Tensor1) :
  for_each (range n) (λ e u, add_at e (f e) u) u = Ok u' →
  length u' = length u ∧ (n ≤ length u)%nat ∧
  ∀ e, u' !! e = if decide (e < n)%nat then (λ v, v + f e) <$> u !! e else u !! e.
Proof.
  revert u'. induction n as [|n IH]; intros u' Hrun.
  - inversion Hrun; subst. split; [done|]. split; [lia|]. intros e. by rewrite decide_False by lia.
  - rewrite range_S, for_each_snoc in Hrun. inv_bind Hrun.
    destruct (IH _ Ha) as (Hlen & Hn & Hu). apply add_at_Ok in Hrun as (Hlen' & Hlt & Hu').
    split; [congruence|]. split; [lia|]. intros e. rewrite Hu', Hu.
    destruct (decide (e = n)) as [->|Hne].
    + rewrite decide_False by lia. by rewrite decide_True by lia.
    + destruct (decide (e < n)%nat).
      * by rewrite decide_True by lia.
      * by rewrite decide_False by lia.
Qed.

(** The loop of [forward], on its two buffers. *)
Lemma add_counts_loop2 (f : nat → Qc) (n : nat) (u d u' d' : Tensor1) :
  for_each (range n) (λ e '(u, d),
    u <- add_at e (f e) u; d <- add_at e (f e) d; Ok (u, d)) (u, d) = Ok (u', d') →
  for_each (range n) (λ e u, add_at e (f e) u) u = Ok u' ∧
  for_each (range n) (λ e d, add_at e (f e) d) d = Ok d'.
Proof.
  revert u' d'. induction n as [|n IH]; intros u' d' Hrun.
  - by inversion Hrun.
  - rewrite range_S, for_each_snoc in Hrun. inv_bind Hrun. destruct a as [u1 d1].
    destruct (IH _ _ Ha) as [Hu Hd]. inv_bind Hrun. inv_bind Hrun. inversion Hrun; subst.
    rewrite range_S, !for_each_snoc, Hu, Hd. simpl. by rewrite Ha0, Ha1.
Qed.

Lemma update_stats_Ok (self self' : t) (top_k_indices : list (list (list nat)))
    (batch_size seq_len : nat) :
  update_stats self top_k_indices batch_size seq_len = Ok self' →
  total_tokens self' = total_tokens self + qn (batch_size * seq_len) ∧
  router self' = router self ∧ top_k self' = top_k self ∧
  num_experts self' = num_experts self ∧
  (∀ e, expert_usage_count self' !! e =
        if decide (e < num_experts self)%nat
        then (λ v, v + qn (count_expert top_k_indices e)) <$> expert_usage_count self !! e
        else expert_usage_count self !! e) ∧
  (∀ e, routing_decisions self' !! e =
        if decide (e < num_experts self)%nat
        then (λ v, v + qn (count_expert top_k_indices e)) <$> routing_decisions self !! e
        else routing_decisions self !! e).
Proof.
  unfold update_stats. intros H. inv_bind H. destruct a as [u d]. inversion H; subst.
  apply (add_counts_loop2 (λ e, qn (count_expert top_k_indices e))) in Ha as [Hu Hd].
  apply add_counts_loop in Hu as (_ & _ & Hu). apply add_counts_loop in Hd as (_ & _ & Hd).
  by repeat split.
Qed.

(** X2.  A [forward] call that returns has added the number of tokens to
    [total_tokens] and, for every expert, the number of selections of that
    expert in the call to both [expert_usage_count] and [routing_decisions];
    the scoring network and [top_k] are as before.  So the two buffers hold
    the same numbers after the call if they did before it. *)
Theorem forward_counts_selections `{!Transcendental} (self self' : t)
    (hidden_states : Tensor3) (expert_mask : option Tensor1)
    (keep : nat → nat → nat → bool) (d c : Tensor4) (probs : Tensor3) (aux : Qc) :
  forward self hidden_states expert_mask keep = Ok (d, c, probs, aux, self') →
  total_tokens self' = total_tokens self + qn (dim0 hidden_states * dim1 hidden_states) ∧
  router self' = router self ∧ top_k self' = top_k self ∧
  (∃ top_k_probs top_k_indices,
     topk3 probs (top_k self) = Ok (top_k_probs, top_k_indices) ∧
     ∀ e, (e < num_experts self)%nat →
       expert_usage_count self' !! e =
         (λ v, v + qn (count_expert top_k_indices e)) <$> expert_usage_count self !! e ∧
       routing_decisions self' !! e =
         (λ v, v + qn (count_expert top_k_indices e)) <$> routing_decisions self !! e) ∧
  (expert_usage_count self = routing_decisions self →
   expert_usage_count self' = routing_decisions self').
Proof.
  unfold forward. intros Hrun.
  apply bind_Ok in Hrun as (logits0 & _ & Hrun).
  apply bind_Ok in Hrun as (logits & _ & Hrun).
  apply bind_Ok in Hrun as ([tkp tki] & Htopk & Hrun).
  apply bind_Ok in Hrun as ([d0 c0] & _ & Hrun).
  apply bind_Ok in Hrun as (aux0 & _ & Hrun).
  apply bind_Ok in Hrun as (self0 & Hstats & Hrun).
  inversion Hrun; subst; clear Hrun.
  apply update_stats_Ok in Hstats as (Htok & Hnet & Hk & HE & Hu & Hd).
  split; [done|]. split; [done|]. split; [done|]. split.
  - exists tkp, tki. split; [done|]. intros e He.
    specialize (Hu e). specialize (Hd e). by rewrite decide_True in Hu, Hd by done.
  - intros Heq. apply list_eq. intros e. rewrite Hu, Hd, Heq. done.
Qed.

(** One call of the sample router on [sample_hidden]: three tokens, one
    selection each. *)
Lemma forward_counts_selections_witness :
  ∃ out,
    forward (H:=dyadic) sample_router sample_hidden None all_kept = Ok out ∧
    total_tokens out.2 = qn 3 ∧
    expert_usage_count out.2 = routing_decisions out.2.
Proof.
  destruct (forward (H:=dyadic) sample_router sample_hidden None all_kept)
    as [[[[[d c] probs] aux] self']|e] eqn:Hrun; [|vm_compute in Hrun; discriminate].
  exists (d, c, probs, aux, self'). split; [reflexivity|].
  destruct (forward_counts_selections (H:=dyadic) _ _ _ _ _ _ _ _ _ Hrun)
    as (Htok & _ & _ & _ & Heq).
  split; [|apply Heq; reflexivity].
  cbn [snd]. rewrite Htok. apply Qc_is_canon. vm_compute. reflexivity.
Defined.

(** X11.  [PiKVMoERouter.forward] counts the tokens and the selections in
    [total_tokens] and [expert_usage_count] as the base class does, but it
    never writes [routing_decisions]; the cache buffers, which only
    [update_cache_usage] writes, and the configured [top_k] are as before
    the call too. *)
Theorem pikv_forward_leaves_routing_decisions `{!Transcendental}
    (self self' : PiKVMoERouter.t) (hidden_states : Tensor3)
    (expert_mask : option Tensor1) (keep keep_importance : nat → nat → nat → bool)
    (d c : Tensor4) (probs : Tensor3) (aux : Qc) (importance : Tensor2) :
  PiKVMoERouter.forward self hidden_states expert_mask keep keep_importance
  = Ok (d, c, probs, aux, importance, self') →
  routing_decisions (PiKVMoERouter.base self') = routing_decisions (PiKVMoERouter.base self) ∧
  total_tokens (PiKVMoERouter.base self')
  = total_tokens (PiKVMoERouter.base self)
    + qn (dim0 hidden_states * dim1 hidden_states) ∧
  length (expert_usage_count (PiKVMoERouter.base self'))
  = length (expert_usage_count (PiKVMoERouter.base self)) ∧
  PiKVMoERouter.cache_usage_history self' = PiKVMoERouter.cache_usage_history self ∧
  PiKVMoERouter.cache_hit_rates self' = PiKVMoERouter.cache_hit_rates self ∧
  PiKVMoERouter.cache_update_counter self' = PiKVMoERouter.cache_update_counter self ∧
  AdaptiveRouter.importance_idx (PiKVMoERouter.adaptive self')
  = AdaptiveRouter.importance_idx (PiKVMoERouter.adaptive self).
Proof.
  unfold PiKVMoERouter.forward. intros Hrun.
  apply bind_Ok in Hrun as (l0 & _ & Hrun).
  apply bind_Ok in Hrun as (l1 & _ & Hrun).
  apply bind_Ok in Hrun as (l2 & _ & Hrun).
  apply bind_Ok in Hrun as (imp & _ & Hrun).
  apply bind_Ok in Hrun as (k & _ & Hrun).
  apply bind_Ok in Hrun as ([tkp tki] & _ & Hrun).
  apply bind_Ok in Hrun as ([d0 c0] & _ & Hrun).
  apply bind_Ok in Hrun as (a0 & _ & Hrun).
  apply bind_Ok in Hrun as (u & Hu & Hrun).
  inversion Hrun; subst; clear Hrun. cbn.
  apply add_counts_loop in Hu as (Hlen & _ & _). done.
Qed.

(** One call of the sample PiKV router: three tokens counted, no routing
    decision recorded. *)
Lemma pikv_forward_leaves_routing_decisions_witness :
  ∃ out,
    PiKVMoERouter.forward (H:=dyadic) sample_pikv sample_hidden None all_kept all_kept
    = Ok out ∧
    routing_decisions (PiKVMoERouter.base out.2) = zeros1 4 ∧
    total_tokens (PiKVMoERouter.base out.2) = qn 3.
Proof.
  destruct (PiKVMoERouter.forward (H:=dyadic) sample_pikv sample_hidden None all_kept
              all_kept) as [[[[[[d c] probs] aux] importance] self']|e] eqn:Hrun;
    [|vm_compute in Hrun; discriminate].
  exists (d, c, probs, aux, importance, self'). split; [reflexivity|].
  destruct (pikv_forward_leaves_routing_decisions (H:=dyadic) _ _ _ _ _ _ _ _ _ _ _ Hrun)
    as (Hdec & Htok & _).
  cbn [snd]. rewrite Hdec, Htok. split; [reflexivity|].
  apply Qc_is_canon. vm_compute. reflexivity.
Defined.

End CounterTheorems.

(** ** The load-balancing losses *)

Module BalanceLossTheorems.
Import CounterTheorems.

Lemma qn_plus (a b : nat) : qn (a + b) = qn a + qn b.
Proof.
  induction a as [|a IH]; simpl.
  - assert (qn 0 = 0) as -> by (by apply Qc_is_canon). by rewrite Qcplus_0_l.
  - rewrite !qn_S, IH. ring.
Qed.

Lemma count_below_S (E : nat) (flat : list nat) :
  length (filter (λ i, i < S E)%nat flat)
  = (length (filter (λ i, i < E)%nat flat) + length (filter (λ i, i = E) flat))%nat.
Proof.
  induction flat as [|x flat IH]; [done|]. rewrite !filter_cons.
  destruct (decide (x < S E)%nat), (decide (x < E)%nat), (decide (x = E)); simpl; lia.
Qed.

(** The counts of the experts below [E] add up to the selections below [E]. *)
Lemma count_expert_sum (E : nat) (idx : list (list (list nat))) :
  qsum ((λ e, qn (count_expert idx e)) <$> range E)
  = qn (length (filter (λ i, i < E)%nat (concat (concat idx)))).
Proof.
  unfold count_expert. generalize (concat (concat idx)). intros flat.
  induction E as [|E IH].
  - simpl. replace (filter (λ i, i < 0)%nat flat) with (@nil nat); [by apply Qc_is_canon|].
    symmetry. induction flat as [|x flat IHf]; [done|].
    rewrite filter_cons, decide_False by lia. done.
  - rewrite range_S, fmap_app, GiniTheorems.qsum_app, IH, count_below_S, qn_plus. simpl. ring.
Qed.

Lemma filter_all {A : Type} (P : A → Prop) `{!∀ x, Decision (P x)} (l : list A) :
  Forall P l → filter P l = l.
Proof.
  induction 1 as [|x l Hx _ IH]; [done|]. by rewrite filter_cons, decide_True, IH.
Qed.

Lemma qsum_scale_l (c : Qc) (f : nat → Qc) (l : list nat) :
  qsum ((λ e, c * f e) <$> l) = c * qsum (f <$> l).
Proof. induction l as [|x l IH]; csimpl; [ring|]. rewrite IH. ring. Qed.

Lemma zip_with_replicate_range (c : Qc) (f : nat → Qc) (E : nat) :
  zip_with Qcmult (replicate E c) (f <$> range E) = (λ e, c * f e) <$> range E.
Proof.
  unfold range. generalize 0%nat. induction E as [|E IH]; intros a; [done|].
  simpl. by rewrite IH.
Qed.

(** The sum of products the two losses share, on a uniform distribution. *)
Lemma uniform_balance (E : nat) (idx : list (list (list nat))) :
  (0 < E)%nat → concat (concat idx) ≠ [] →
  Forall (λ i, i < E)%nat (concat (concat idx)) →
  ∃ usage, BaseMoERouter.one_hot_mean (Some idx) E = Ok usage ∧
    qsum (zip_with Qcmult (replicate E (1 / qn E)) usage) * qn E = 1.
Proof.
  intros HE Hne Hall. unfold BaseMoERouter.one_hot_mean. rewrite decide_True by done.
  eexists. split; [done|].
  rewrite zip_with_replicate_range.
  rewrite (qsum_scale_l (1 / qn E)
             (λ e, qn (count_expert idx e) / qn (length (concat (concat idx))))).
  replace ((λ e, qn (count_expert idx e) / qn (length (concat (concat idx)))) <$> range E)
    with ((λ v, v / qn (length (concat (concat idx))))
            <$> ((λ e, qn (count_expert idx e)) <$> range E))
    by (by rewrite <-list_fmap_compose).
  rewrite ProbabilityTheorems.qsum_scale, count_expert_sum, filter_all by done.
  assert (0 < length (concat (concat idx)))%nat as Hlen
    by (destruct (concat (concat idx)); [done|simpl; lia]).
  pose proof (qn_pos _ Hlen) as HN. pose proof (qn_pos _ HE) as HqE.
  apply Qclt_not_eq in HN, HqE. field. split; congruence.
Qed.

(** X3.  On router probabilities that are uniform over the experts the
    load-balancing loss is 1, whatever experts the tokens selected. *)
Theorem uniform_probs_give_loss_one (self : BaseMoERouter.t) (B S : nat)
    (idx : list (list (list nat))) :
  (0 < B)%nat → (0 < S)%nat → (0 < BaseMoERouter.num_experts self)%nat →
  concat (concat idx) ≠ [] →
  Forall (λ i, i < BaseMoERouter.num_experts self)%nat (concat (concat idx)) →
  BaseMoERouter._compute_load_balancing_loss self
    (replicate B (replicate S (replicate (BaseMoERouter.num_experts self)
                                 (1 / qn (BaseMoERouter.num_experts self)))))
    (Some idx) = Ok 1.
Proof.
  intros HB HS HE Hne Hall. unfold BaseMoERouter._compute_load_balancing_loss.
  rewrite GiniTheorems.mean_dim01_const by done.
  destruct (uniform_balance _ idx HE Hne Hall) as (usage & -> & Hloss).
  simpl. by rewrite Hloss.
Qed.

(** Three tokens that all select expert 0. *)
Lemma uniform_probs_give_loss_one_witness :
  BaseMoERouter._compute_load_balancing_loss sample_router
    (replicate 1 (replicate 3 (replicate 4 (1 / qn 4)))) (Some [[[0]; [0]; [0]]]%nat)
  = Ok 1.
Proof.
  apply (uniform_probs_give_loss_one sample_router 1 3 [[[0]; [0]; [0]]]%nat).
  - lia.
  - lia.
  - vm_compute. lia.
  - discriminate.
  - vm_compute. repeat constructor.
Defined.

(** X4.  The group-level loss of the hierarchical router behaves the same
    way: on group probabilities that are uniform over the groups it is 1,
    whatever groups the tokens selected. *)
Theorem uniform_group_probs_give_loss_one (self : HierarchicalRouter.t) (B S : nat)
    (group_indices : list (list (list nat))) :
  (0 < B)%nat → (0 < S)%nat → (0 < HierarchicalRouter.num_groups self)%nat →
  concat (concat group_indices) ≠ [] →
  Forall (λ i, i < HierarchicalRouter.num_groups self)%nat (concat (concat group_indices)) →
  HierarchicalRouter._compute_group_balance_loss self
    (replicate B (replicate S (replicate (HierarchicalRouter.num_groups self)
                                 (1 / qn (HierarchicalRouter.num_groups self)))))
    group_indices = Ok 1.
Proof.
  intros HB HS HG Hne Hall. unfold HierarchicalRouter._compute_group_balance_loss.
  rewrite GiniTheorems.mean_dim01_const by done.
  destruct (uniform_balance _ group_indices HG Hne Hall) as (usage & -> & Hloss).
  simpl. by rewrite Hloss.
Qed.

(** Three tokens that select the groups 2, 1 and 0 of 4. *)
Lemma uniform_group_probs_give_loss_one_witness :
  ∃ self,
    sample_hierarchical = Ok self ∧
    HierarchicalRouter._compute_group_balance_loss self
      (replicate 1 (replicate 3 (replicate 4 (1 / qn 4)))) [[[2]; [1]; [0]]]%nat = Ok 1.
Proof.
  destruct sample_hierarchical as [self|e] eqn:Hself; [|vm_compute in Hself; discriminate].
  assert (HierarchicalRouter.num_groups self = 4%nat) as Hng.
  { unfold sample_hierarchical, HierarchicalRouter.__init__ in Hself.
    rewrite decide_False in Hself by done. inversion Hself; subst. done. }
  exists self. split; [reflexivity|].
  pose proof (uniform_group_probs_give_loss_one self 1 3 [[[2]; [1]; [0]]]%nat) as Hloss.
  rewrite Hng in Hloss. apply Hloss.
  - lia.
  - lia.
  - lia.
  - discriminate.
  - vm_compute. repeat constructor.
Defined.

End BalanceLossTheorems.

(** ** The entries of the dispatch and combine tensors *)

Module DispatchEntryTheorems.
Import BaseMoERouter Dispatch.

Lemma tok_at_alter2 {A : Type} (f : A → A) (t : list (list A)) (b s b' s' : nat) :
  tok_at (alter (alter f s) b t) b' s' =
    if decide (b = b' ∧ s = s') then f <$> tok_at t b' s' else tok_at t b' s'.
Proof.
  unfold tok_at. destruct (decide (b = b')) as [<-|Hb].
  - rewrite list_lookup_alter_eq. destruct (t !! b) as [row|]; simpl.
    + destruct (decide (s = s')) as [<-|Hs].
      * rewrite list_lookup_alter_eq. by rewrite decide_True.
      * rewrite list_lookup_alter_ne by done. rewrite decide_False; [done|]. by intros [_ ?].
    + by case_decide.
  - rewrite list_lookup_alter_ne by done. rewrite decide_False; [done|]. by intros [? _].
Qed.

(** Writing one entry changes that entry, if it is there, and no other. *)
Lemma entry4_set4 (t : Tensor4) (b s e p b' s' e' p' : nat) (x : Qc) :
  entry4 (set4 b s e p x t) b' s' e' p' =
    if decide (b = b' ∧ s = s' ∧ e = e' ∧ p = p')
    then (λ _, x) <$> entry4 t b' s' e' p'
    else entry4 t b' s' e' p'.
Proof.
  unfold entry4, set4. rewrite tok_at_alter2.
  destruct (decide (b = b' ∧ s = s')) as [[<- <-]|Hbs].
  - destruct (tok_at t b s) as [tok|]; simpl; [|by case_decide].
    destruct (decide (e = e')) as [<-|He].
    + rewrite list_lookup_alter_eq. destruct (tok !! e) as [slots|]; simpl; [|by case_decide].
      unfold set1. rewrite list_lookup_insert.
      destruct (decide (p = p')) as [<-|Hp].
      * rewrite (decide_True (P := b = b ∧ s = s ∧ e = e ∧ p = p)) by done.
        destruct (slots !! p) as [v|] eqn:Hv; simpl.
        -- rewrite decide_True; [done|]. split; [done|]. by eapply lookup_lt_Some.
        -- rewrite decide_False; [done|]. intros [_ Hlt].
           apply lookup_lt_is_Some_2 in Hlt as [? ?]. congruence.
      * rewrite (decide_False (P := p = p' ∧ (p < length slots)%nat)) by (by intros [? _]).
        rewrite decide_False; [done|]. by intros (_ & _ & _ & ?).
    + rewrite list_lookup_alter_ne by done.
      rewrite decide_False; [done|]. by intros (_ & _ & ? & _).
  - rewrite decide_False; [done|]. intros (? & ? & _). by apply Hbs.
Qed.

Lemma entry4_zeros4 (B S E C b s e p : nat) :
  entry4 (zeros4 B S E C) b s e p =
    if decide (b < B ∧ s < S ∧ e < E ∧ p < C)%nat then Some 0 else None.
Proof.
  unfold entry4, tok_at, zeros4, zeros3, zeros2, zeros1.
  destruct (decide (b < B)%nat) as [Hb|Hb].
  2:{ rewrite (proj1 (lookup_replicate_None _ _ _)) by lia. rewrite decide_False; [done|lia]. }
  rewrite lookup_replicate_2 by done. simpl.
  destruct (decide (s < S)%nat) as [Hs|Hs].
  2:{ rewrite (proj1 (lookup_replicate_None _ _ _)) by lia. rewrite decide_False; [done|lia]. }
  rewrite lookup_replicate_2 by done. simpl.
  destruct (decide (e < E)%nat) as [He|He].
  2:{ rewrite (proj1 (lookup_replicate_None _ _ _)) by lia. rewrite decide_False; [done|lia]. }
  rewrite lookup_replicate_2 by done. simpl.
  destruct (decide (p < C)%nat) as [Hp|Hp].
  2:{ rewrite (proj1 (lookup_replicate_None _ _ _)) by lia. rewrite decide_False; [done|lia]. }
  rewrite lookup_replicate_2 by done. by rewrite decide_True.
Qed.

Lemma entries_initial (B S E C : nat) :
  entries B S E C {| dispatch_tensor := zeros4 B S E C;
                     combine_tensor := zeros4 B S E C;
                     expert_capacity_used := replicate E 0%nat |}.
Proof.
  split; simpl.
  - intros b s e p. rewrite entry4_zeros4. case_decide as Hin.
    + split; [done|by eauto].
    + split; [by intros [? ?]|]. intros Hin'. by destruct Hin.
  - intros b s e p. rewrite entry4_zeros4. case_decide as Hin.
    + split; [done|by eauto].
    + split; [by intros [? ?]|]. intros Hin'. by destruct Hin.
  - intros b s e p v. rewrite entry4_zeros4. case_decide; [|done]. intros [= <-]. by left.
  - intros b s e p. rewrite !entry4_zeros4. by case_decide.
Qed.

Lemma entries_assign (B S E C capacity : nat) (idx : list (list (list nat)))
    (probs : Tensor3) (b s k : nat) (st st' : fill) :
  entries B S E C st → assign capacity idx probs b s k st = Ok st' → entries B S E C st'.
Proof.
  intros [Hd Hc Hbin Hzero] Hrun. unfold assign in Hrun.
  inv_bind Hrun. rename a into e. inv_bind Hrun. rename a into prob.
  inv_bind Hrun. rename a into used.
  case_decide as Hlt; [|by inversion Hrun; subst].
  inversion Hrun; subst; clear Hrun. split; simpl.
  - intros b' s' e' p'. rewrite entry4_set4, <-Hd. case_decide; [|done].
    by rewrite fmap_is_Some.
  - intros b' s' e' p'. rewrite entry4_set4, <-Hc. case_decide; [|done].
    by rewrite fmap_is_Some.
  - intros b' s' e' p' v. rewrite entry4_set4. case_decide; [|by apply Hbin].
    destruct (entry4 (dispatch_tensor st) b' s' e' p'); [|done]. intros [= <-]. by right.
  - intros b' s' e' p'. rewrite !entry4_set4. case_decide; [|by apply Hzero].
    destruct (entry4 (dispatch_tensor st) b' s' e' p'); [|done]. simpl. intros Heq.
    by inversion Heq.
Qed.

Lemma fill_loop_preserves (P : fill → Prop) (capacity : nat)
    (idx : list (list (list nat))) (probs : Tensor3) (B S K : nat) (st st' : fill) :
  (∀ b s k st0 st1, P st0 → assign capacity idx probs b s k st0 = Ok st1 → P st1) →
  P st →
  for_each (range B) (λ b, for_each (range S) (λ s, for_each (range K) (λ k,
    assign capacity idx probs b s k))) st = Ok st' →
  P st'.
Proof.
  intros Hstep Hinv. apply for_each_inv; [|done].
  intros b s1 s1' _ H1. apply for_each_inv; [|done].
  intros s s2 s2' _ H2. apply for_each_inv; [|done].
  intros k s3 s3' _ H3. by apply Hstep.
Qed.

(** X5.  The two tensors [_create_dispatch_combine_tensors] returns have the
    shape [[batch_size, seq_len, num_experts, capacity]]; every dispatch
    entry is 0 or 1; and a combine entry is 0 wherever the dispatch entry
    is: a combine weight stands only in a dispatched slot. *)
Theorem combine_weights_only_where_dispatched (self : t) (idx : list (list (list nat)))
    (probs : Tensor3) (B S : nat) (d c : Tensor4) :
  _create_dispatch_combine_tensors self idx probs B S = Ok (d, c) →
  ∃ capacity : nat,
    _compute_capacity self B S = Ok (Z.of_nat capacity) ∧
    (∀ b s e p, is_Some (entry4 d b s e p)
                ↔ (b < B ∧ s < S ∧ e < num_experts self ∧ p < capacity)%nat) ∧
    (∀ b s e p, is_Some (entry4 c b s e p)
                ↔ (b < B ∧ s < S ∧ e < num_experts self ∧ p < capacity)%nat) ∧
    (∀ b s e p v, entry4 d b s e p = Some v → v = 0 ∨ v = 1) ∧
    (∀ b s e p, entry4 d b s e p = Some 0 → entry4 c b s e p = Some 0).
Proof.
  unfold _create_dispatch_combine_tensors. intros H.
  inv_bind H. rename a into cap. case_decide as Hneg; [discriminate|].
  inv_bind H. rename a into st. inversion H; subst; clear H.
  exists (Z.to_nat cap). split; [by rewrite Z2Nat.id by lia|].
  assert (entries B S (num_experts self) (Z.to_nat cap) st) as [Hd Hc Hbin Hzero].
  { eapply (fill_loop_preserves (entries B S (num_experts self) (Z.to_nat cap)));
      [|apply entries_initial|exact Ha0].
    intros b s k st0 st1. apply entries_assign. }
  done.
Qed.

(** Three tokens that all choose expert 0 at capacity 1: the first gets the
    slot, with its weight. *)
Lemma combine_weights_only_where_dispatched_witness :
  ∃ d c,
    _create_dispatch_combine_tensors sample_router [[[0]; [0]; [0]]]%nat
      [[[1]; [1]; [1]]] 1 3 = Ok (d, c) ∧
    entry4 d 0 0 0 0 = Some 1 ∧ entry4 d 0 1 0 0 = Some 0 ∧ entry4 c 0 1 0 0 = Some 0.
Proof.
  destruct (_create_dispatch_combine_tensors sample_router [[[0]; [0]; [0]]]%nat
              [[[1]; [1]; [1]]] 1 3) as [[d c]|e] eqn:Hrun;
    [|vm_compute in Hrun; discriminate].
  destruct (combine_weights_only_where_dispatched _ _ _ _ _ _ _ Hrun)
    as (capacity & _ & _ & _ & _ & Hzero).
  assert (entry4 d 0 0 0 0 = Some 1 ∧ entry4 d 0 1 0 0 = Some 0) as [H1 H0].
  { vm_compute in Hrun. inversion Hrun; subst. split; reflexivity. }
  exists d, c. split; [reflexivity|]. split; [exact H1|]. split; [exact H0|].
  apply Hzero. exact H0.
Defined.

(** X6.  A call with a capacity that is defined and not negative, on
    selections that name an expert of the router and a probability for every
    choice of every token, returns: it raises nothing. *)
Theorem dispatch_returns_on_valid_choices (self : t) (idx : list (list (list nat)))
    (probs : Tensor3) (B S : nat) (capacity : Z) :
  _compute_capacity self B S = Ok capacity → (0 ≤ capacity)%Z →
  valid_choices (num_experts self) B S (top_k self) idx probs →
  ∃ d c, _create_dispatch_combine_tensors self idx probs B S = Ok (d, c).
Proof.
  intros Hcap Hpos Hvalid. unfold _create_dispatch_combine_tensors. rewrite Hcap. simpl.
  case_decide; [lia|].
  edestruct (DispatchTheorems.fill_loop_total (Z.to_nat capacity)) as [st' Hst'];
    [exact Hvalid| |].
  2:{ rewrite Hst'. simpl. eauto. }
  simpl. by rewrite length_replicate.
Qed.

Lemma dispatch_returns_on_valid_choices_witness :
  ∃ d c, _create_dispatch_combine_tensors sample_router [[[0%nat]]] [[[1]]] 1 1 = Ok (d, c).
Proof.
  apply (dispatch_returns_on_valid_choices sample_router [[[0%nat]]] [[[1]]] 1 1 0).
  - vm_compute. reflexivity.
  - lia.
  - intros b s k Hb Hs Hk. change (k < 1)%nat in Hk.
    replace b with 0%nat by lia. replace s with 0%nat by lia. replace k with 0%nat by lia.
    exists 0%nat, 1. split; [reflexivity|]. split; [change (0 < 4)%nat; lia|reflexivity].
Defined.

End DispatchEntryTheorems.

(** ** The balance modes of [TopKBalancedRouter] *)

Module BalanceModeTheorems.
Import TopKBalancedRouter.







(** X8.  With a [balance_mode] that is none of "entropy", "variance" and
    "gini" the penalty falls back to the base loss called without expert
    indices, which raises [TypeError]; so [forward] of such a router never
    returns. *)
Theorem unknown_balance_mode_raises `{!Transcendental} (self : t) :
  balance_mode self ≠ "entropy" → balance_mode self ≠ "variance" →
  balance_mode self ≠ "gini" →
  (∀ router_probs, _compute_advanced_balance_loss self router_probs = Raise TypeError) ∧
  (∀ hidden_states expert_mask keep out,
     BaseMoERouter.forward (base self) hidden_states expert_mask keep = Ok out →
     forward self hidden_states expert_mask keep = Raise TypeError) ∧
  (∀ hidden_states expert_mask keep out,
     forward self hidden_states expert_mask keep ≠ Ok out).
Proof.
  intros He Hv Hg.
  assert (∀ probs, _compute_advanced_balance_loss self probs = Raise TypeError) as Hraise.
  { intros probs. unfold _compute_advanced_balance_loss.
    by rewrite !decide_False by done. }
  split; [done|]. split.
  - intros hs mask keep [[[[d c] probs] aux] base'] Hbase.
    unfold forward. rewrite Hbase. cbn [bind]. by rewrite Hraise.
  - intros hs mask keep out Hrun. unfold forward in Hrun.
    apply bind_Ok in Hrun as ([[[[d c] probs] aux] base'] & _ & Hrun).
    by rewrite Hraise in Hrun.
Qed.

Lemma unknown_balance_mode_raises_witness :
  forward (H:=dyadic) (__init__ ramp_rng 4 4 1 1.5%float 0 (1 / qz 100) "l2")
    sample_hidden None all_kept = Raise TypeError.
Proof.
  destruct (BaseMoERouter.forward (H:=dyadic)
              (base (__init__ ramp_rng 4 4 1 1.5%float 0 (1 / qz 100) "l2"))
              sample_hidden None all_kept) as [out|e] eqn:Hbase;
    [|vm_compute in Hbase; discriminate].
  apply (proj1 (proj2 (unknown_balance_mode_raises (H:=dyadic)
           (__init__ ramp_rng 4 4 1 1.5%float 0 (1 / qz 100) "l2")
           ltac:(discriminate) ltac:(discriminate) ltac:(discriminate)))
           sample_hidden None all_kept out Hbase).
Defined.

End BalanceModeTheorems.

(** ** The adaptive router *)

Module AdaptiveFacts.
Import AdaptiveRouter.

Lemma record_importance_Ok (flat : Tensor1) (self : t) :
  importance_idx (record_importance flat self) = (importance_idx self + length flat)%nat ∧
  length (importance_history (record_importance flat self))
  = length (importance_history self) ∧
  base (record_importance flat self) = base self ∧
  importance_predictor (record_importance flat self) = importance_predictor self ∧
  top_k_predictor (record_importance flat self) = top_k_predictor self ∧
  importance_threshold (record_importance flat self) = importance_threshold self.
Proof.
  unfold record_importance. revert self.
  induction flat as [|v flat IH]; intros self; cbn [foldl].
  - repeat split. simpl. lia.
  - destruct (IH (with_history
      (<[(importance_idx self mod 1000)%nat := v]> (importance_history self))
      (S (importance_idx self)) self)) as (Hi & Hl & Hb & Hp & Hk & Ht).
    rewrite Hi, Hl, Hb, Hp, Hk, Ht. simpl. rewrite length_insert. repeat split. lia.
Qed.

(** X9.  The top-k [_adapt_top_k] chooses never exceeds the configured
    [top_k], is at least 1 when the configured one is, and is the configured
    one when the router was built without [adaptive_top_k]. *)
Theorem adapted_top_k_within_bounds `{!Transcendental} (self : t) (hidden_states : Tensor3)
    (importance : Tensor2) (k : nat) :
  _adapt_top_k self hidden_states importance = Ok k →
  (k ≤ BaseMoERouter.top_k (base self))%nat ∧
  ((1 ≤ BaseMoERouter.top_k (base self))%nat → (1 ≤ k)%nat) ∧
  (adaptive_top_k self = false → k = BaseMoERouter.top_k (base self)).
Proof.
  unfold _adapt_top_k. intros Hrun.
  destruct (adaptive_top_k self), (top_k_predictor self) as [predictor|];
    try (inversion Hrun; subst; repeat split; (lia || done)).
  inv_bind Hrun. inv_bind Hrun. inversion Hrun; subst. repeat split; (lia || done).
Qed.

Lemma adapted_top_k_within_bounds_witness :
  ∃ importance k,
    _compute_importance (H:=dyadic) sample_adaptive sample_hidden all_kept = Ok importance ∧
    _adapt_top_k (H:=dyadic) sample_adaptive sample_hidden importance = Ok k ∧
    (1 ≤ k ≤ 2)%nat.
Proof.
  destruct (_compute_importance (H:=dyadic) sample_adaptive sample_hidden all_kept)
    as [importance|e] eqn:Himp; [|vm_compute in Himp; discriminate].
  destruct (_adapt_top_k (H:=dyadic) sample_adaptive sample_hidden importance)
    as [k|e] eqn:Hk;
    [|vm_compute in Himp; inversion Himp; subst; vm_compute in Hk; discriminate].
  exists importance, k. split; [reflexivity|]. split; [exact Hk|].
  destruct (adapted_top_k_within_bounds (H:=dyadic) _ _ _ _ Hk) as (Hle & Hge & _).
  change (BaseMoERouter.top_k (base sample_adaptive)) with 2%nat in Hle, Hge. lia.
Defined.

(** X10.  A [forward] call of the adaptive router that returns has written
    one history entry per token: the cursor [importance_idx] has advanced by
    the number of importance scores, and the history has kept its length.
    The importance network, the top-k predictor and the threshold are as
    before. *)
Theorem adaptive_forward_records_every_token `{!Transcendental} (self self' : t)
    (hidden_states : Tensor3) (expert_mask : option Tensor1)
    (keep keep_importance : nat → nat → nat → bool) (d c : Tensor4) (probs : Tensor3)
    (aux : Qc) (importance : Tensor2) :
  forward self hidden_states expert_mask keep keep_importance
  = Ok (d, c, probs, aux, importance, self') →
  _compute_importance self hidden_states keep_importance = Ok importance ∧
  importance_idx self' = (importance_idx self + length (concat importance))%nat ∧
  length (importance_history self') = length (importance_history self) ∧
  importance_predictor self' = importance_predictor self ∧
  top_k_predictor self' = top_k_predictor self ∧
  importance_threshold self' = importance_threshold self.
Proof.
  unfold forward. intros Hrun.
  apply bind_Ok in Hrun as (imp & Himp & Hrun).
  apply bind_Ok in Hrun as (k & _ & Hrun).
  apply bind_Ok in Hrun as ([[[[d0 c0] p0] a0] base'] & _ & Hrun).
  inversion Hrun; subst; clear Hrun. split; [done|].
  match goal with |- context [record_importance ?flat ?s] =>
    destruct (record_importance_Ok flat s) as (Hi & Hl & _ & Hp & Hk & Ht) end.
  rewrite Hi, Hl, Hp, Hk, Ht. done.
Qed.

Lemma adaptive_forward_records_every_token_witness :
  ∃ out,
    forward (H:=dyadic) sample_adaptive sample_hidden None all_kept all_kept = Ok out ∧
    importance_idx out.2 = 3%nat ∧ length (importance_history out.2) = 1000%nat.
Proof.
  destruct (forward (H:=dyadic) sample_adaptive sample_hidden None all_kept all_kept)
    as [[[[[[d c] probs] aux] importance] self']|e] eqn:Hrun;
    [|vm_compute in Hrun; discriminate].
  exists (d, c, probs, aux, importance, self'). split; [reflexivity|].
  destruct (adaptive_forward_records_every_token (H:=dyadic) _ _ _ _ _ _ _ _ _ _ _ Hrun)
    as (Himp & Hidx & Hlen & _).
  cbn [snd]. rewrite Hidx, Hlen. split; [|reflexivity].
  vm_compute in Himp. inversion Himp; subst. reflexivity.
Defined.

End AdaptiveFacts.

(** ** The cache buffers of [PiKVMoERouter] *)

Module CacheUsageTheorems.
Import PiKVMoERouter.

(** X12.  [update_cache_usage] always advances the update counter by one.
    For an expert index outside the router it writes nothing else; for one
    inside it records the hit rate as the current rate of that expert and
    at the slot [counter mod 100] of that expert's history, and leaves the
    rates and histories of all other experts, and the networks, alone. *)
Theorem update_cache_usage_writes_one_expert (self : t) (expert_idx : nat)
    (cache_hit_rate : Qc) :
  let self' := update_cache_usage self expert_idx cache_hit_rate in
  cache_update_counter self' = S (cache_update_counter self) ∧
  adaptive self' = adaptive self ∧
  cache_router_adjustment self' = cache_router_adjustment self ∧
  ((BaseMoERouter.num_experts (base self) ≤ expert_idx)%nat →
     cache_hit_rates self' = cache_hit_rates self ∧
     cache_usage_history self' = cache_usage_history self) ∧
  ((expert_idx < BaseMoERouter.num_experts (base self))%nat →
     (∀ e, e ≠ expert_idx →
        cache_hit_rates self' !! e = cache_hit_rates self !! e ∧
        cache_usage_history self' !! e = cache_usage_history self !! e) ∧
     ((expert_idx < length (cache_hit_rates self))%nat →
        cache_hit_rates self' !! expert_idx = Some cache_hit_rate) ∧
     (∀ row, cache_usage_history self !! expert_idx = Some row →
        cache_usage_history self' !! expert_idx
        = Some (<[(cache_update_counter self mod 100)%nat := cache_hit_rate]> row))).
Proof.
  intros self'. unfold self', update_cache_usage.
  destruct (decide (expert_idx < BaseMoERouter.num_experts (base self))%nat) as [Hin|Hout];
    simpl.
  - split; [done|]. split; [done|]. split; [done|]. split; [lia|]. intros _.
    split; [|split].
    + intros e He. rewrite list_lookup_insert_ne by done.
      by rewrite list_lookup_alter_ne by done.
    + intros Hlen. by rewrite list_lookup_insert_eq.
    + intros row Hrow. by rewrite list_lookup_alter_eq, Hrow.
  - split; [done|]. split; [done|]. split; [done|]. split; [done|]. lia.
Qed.

End CacheUsageTheorems.

(** ** The load balancing of [EPLBRouter] *)

Module EPLBTheorems.
Import EPLBRouter.






Lemma qn_nonneg (n : nat) : 0 ≤ qn n.
Proof.
  destruct n as [|n]; [by vm_compute|]. apply Qclt_le_weak, qn_pos. lia.
Qed.



End EPLBTheorems.

(** ** The experts no group reaches *)

Module GroupReachTheorems.
Import HierarchicalRouter Observe MaskFacts.

Lemma scatter_is_Some (t : Tensor3) (positions : list (nat * nat)) (e : nat)
    (values : Tensor1) (b s : nat) :
  is_Some (tok_at (scatter t positions e values) b s) ↔ is_Some (tok_at t b s).
Proof.
  unfold scatter. revert t values.
  induction positions as [|[b' s'] ps IH]; intros t values; [done|].
  destruct values as [|v values]; [done|]. simpl. rewrite IH, tok_at_set3.
  case_decide; [|done]. by rewrite fmap_is_Some.
Qed.

Lemma route_group_is_Some `{!Transcendental} (self : t) (hidden_states : Tensor3)
    (cgi : list (list nat)) (cgp : Tensor2) (g : nat) (final final' : Tensor3) (b s : nat) :
  route_group self hidden_states cgi cgp g final = Ok final' →
  is_Some (tok_at final' b s) ↔ is_Some (tok_at final b s).
Proof.
  unfold route_group. intros Hrun.
  case_decide; [by inversion Hrun|].
  inv_bind Hrun. case_decide; [by inversion Hrun|].
  inv_bind Hrun. inv_bind Hrun. inv_bind Hrun.
  revert Hrun.
  apply (for_each_inv (λ f, is_Some (tok_at f b s) ↔ is_Some (tok_at final b s))); [|done].
  intros i f f' _ Hf Hbody.
  case_decide; [|by inversion Hbody; subst]. case_decide; [|by inversion Hbody; subst].
  inv_bind Hbody. inversion Hbody; subst. by rewrite scatter_is_Some.
Qed.

(** A token's row after the body of the loop over the groups: as it was, or
    with the experts of the group written. *)
Lemma route_group_row `{!Transcendental} (self : t) (hidden_states : Tensor3)
    (cgi : list (list nat)) (cgp : Tensor2) (g : nat) (final final' : Tensor3)
    (b s : nat) (row' : Tensor1) :
  route_group self hidden_states cgi cgp g final = Ok final' →
  tok_at final' b s = Some row' →
  ∃ row, tok_at final b s = Some row ∧
    (row' = row ∨
     ∃ values, row' = write_group (BaseMoERouter.num_experts (base self))
                        (g * experts_per_group self) (experts_per_group self) values row).
Proof.
  intros Hrun Hrow'.
  destruct (proj1 (route_group_is_Some _ _ _ _ _ _ _ b s Hrun)) as [row Hrow];
    [by rewrite Hrow'|].
  exists row. split; [done|].
  destruct (decide (tok_at cgi b s = Some g)) as [Hg|Hg].
  - destruct (HierarchicalTheorems.route_group_same _ _ _ _ _ _ _ Hrun b s row Hg Hrow)
      as (x & router_g & logits & p & _ & _ & _ & _ & Heq).
    rewrite Hrow' in Heq. inversion Heq; subst. right. by eexists.
  - rewrite (HierarchicalTheorems.route_group_other _ _ _ _ _ _ _ Hrun b s Hg) in Hrow'.
    left. congruence.
Qed.

Lemma write_group_beyond (E start epg : nat) (values row : Tensor1) (e : nat) :
  (start + epg ≤ e)%nat →
  length (write_group E start epg values row) = length row ∧
  write_group E start epg values row !!! e = row !!! e.
Proof.
  intros He. unfold write_group.
  assert (Forall (λ i, i < epg)%nat (range epg)) as Hids.
  { apply list.Forall_forall. intros i Hi. by apply elem_of_range. }
  revert Hids row. generalize (range epg). intros ids Hids.
  induction Hids as [|i ids Hi _ IH]; intros row; [done|]. simpl.
  destruct (IH (if decide (start + i < E)%nat
                then <[(start + i)%nat := values !!! i]> row else row)) as [Hlen Hval].
  rewrite Hlen, Hval. case_decide; [|done].
  rewrite length_insert. split; [done|]. apply list_lookup_total_insert_ne. lia.
Qed.

(** X15.  The hierarchical router writes probabilities only at the experts
    of its groups: in the probabilities [forward] returns every token has
    one entry per expert, and the entry of an expert from
    [num_groups * experts_per_group] on is 0.  When the number of experts is
    not a multiple of the number of groups, the last experts are never
    routed to. *)
Theorem experts_beyond_the_groups_get_no_probability `{!Transcendental} (self self' : t)
    (hidden_states : Tensor3) (expert_mask : option Tensor1)
    (keep : nat → nat → nat → bool) (d c : Tensor4) (final : Tensor3) (aux : Qc)
    (b s : nat) (row : Tensor1) :
  forward self hidden_states expert_mask keep = Ok (d, c, final, aux, self') →
  tok_at final b s = Some row →
  length row = BaseMoERouter.num_experts (base self) ∧
  ∀ e, (num_groups self * experts_per_group self ≤ e)%nat →
       (e < BaseMoERouter.num_experts (base self))%nat →
       row !! e = Some 0.
Proof.
  intros Hfwd Hrow. unfold forward in Hfwd.
  apply bind_Ok in Hfwd as ([[gp tgp] tgi] & _ & Hfwd).
  apply bind_Ok in Hfwd as (final0 & Hcompose & Hfwd).
  apply bind_Ok in Hfwd as ([tkp tki] & _ & Hfwd).
  apply bind_Ok in Hfwd as ([d0 c0] & _ & Hfwd).
  apply bind_Ok in Hfwd as (gl & _ & Hfwd).
  apply bind_Ok in Hfwd as (el & _ & Hfwd).
  inversion Hfwd; subst; clear Hfwd.
  set (E := BaseMoERouter.num_experts (base self')) in *.
  set (bound := (num_groups self' * experts_per_group self')%nat).
  set (P := λ f : Tensor3, ∀ b s row, tok_at f b s = Some row →
              length row = E ∧ ∀ e, (bound ≤ e)%nat → row !!! e = 0).
  assert (P final) as HP.
  { unfold compose in Hcompose. revert Hcompose. apply (for_each_inv P).
    - intros group_idx f f' _ Hf Hbody.
      apply bind_Ok in Hbody as (cgi & _ & Hbody).
      apply bind_Ok in Hbody as (cgp & _ & Hbody).
      revert Hbody. apply (for_each_inv P); [|done].
      intros g f1 f1' Hg%elem_of_range Hf1 Hroute b1 s1 row1 Hrow1.
      destruct (route_group_row _ _ _ _ _ _ _ _ _ _ Hroute Hrow1)
        as (row0 & Hrow0 & [->|[values ->]]); [by apply (Hf1 b1 s1)|].
      destruct (Hf1 b1 s1 row0 Hrow0) as [Hlen Hzero]. unfold E in *. split.
      + assert (g * experts_per_group self' + experts_per_group self' ≤ bound)%nat as Hle.
        { unfold bound.
          replace (g * experts_per_group self' + experts_per_group self')%nat
            with (S g * experts_per_group self')%nat by lia.
          apply Nat.mul_le_mono_r. lia. }
        by destruct (write_group_beyond (BaseMoERouter.num_experts (base self')) _ _ values row0 bound Hle) as [-> _].
      + intros e He.
        assert (g * experts_per_group self' + experts_per_group self' ≤ e)%nat as Hle.
        { unfold bound in He.
          assert (S g * experts_per_group self' ≤ num_groups self' * experts_per_group self')%nat
            by (apply Nat.mul_le_mono_r; lia). lia. }
        destruct (write_group_beyond (BaseMoERouter.num_experts (base self')) _ _ values row0 e Hle) as [_ ->]. by apply Hzero.
    - intros b1 s1 row1 Hrow1. unfold tok_at, zeros3, zeros2, zeros1 in Hrow1.
      destruct (replicate (dim0 hidden_states) _ !! b1) as [r|] eqn:Hr; [|done].
      apply lookup_replicate in Hr as [-> _]. simpl in Hrow1.
      apply lookup_replicate in Hrow1 as [-> _]. rewrite length_replicate. split; [done|].
      intros e _. rewrite list_lookup_total_alt.
      destruct (replicate _ (Q2Qc 0) !! e) as [v|] eqn:Hv; [|reflexivity].
      by apply lookup_replicate in Hv as [-> _]. }
  destruct (HP b s row Hrow) as [Hlen Hzero]. split; [done|].
  intros e He HeE. rewrite <-(Hzero e He). apply list_lookup_lookup_total_lt. lia.
Qed.

(** Ten experts in four groups of two: the experts 8 and 9 get nothing. *)
Lemma experts_beyond_the_groups_get_no_probability_witness :
  ∃ self out row,
    __init__ mixed_rng 4 10 2 1.5%float 0 4 1 = Ok self ∧
    forward (H:=dyadic) self sample_hidden None all_kept = Ok out ∧
    tok_at out.1.1.2 0 0 = Some row ∧
    length row = 10%nat ∧ row !! 8%nat = Some 0 ∧ row !! 9%nat = Some 0.
Proof.
  destruct (__init__ mixed_rng 4 10 2 1.5%float 0 4 1) as [self|e] eqn:Hself;
    [|vm_compute in Hself; discriminate].
  assert (num_groups self = 4%nat ∧ BaseMoERouter.num_experts (base self) = 10%nat ∧
          experts_per_group self = 2%nat) as (Hng & HE & Hepg).
  { unfold __init__ in Hself. rewrite decide_False in Hself by done.
    inversion Hself; subst. done. }
  destruct (forward (H:=dyadic) self sample_hidden None all_kept)
    as [[[[[d c] final] aux] self']|e] eqn:Hfwd;
    [|vm_compute in Hself; inversion Hself; subst; vm_compute in Hfwd; discriminate].
  destruct (tok_at final 0 0) as [row|] eqn:Hrow;
    [|vm_compute in Hself; inversion Hself; subst; vm_compute in Hfwd;
      inversion Hfwd; subst; vm_compute in Hrow; discriminate].
  destruct (experts_beyond_the_groups_get_no_probability (H:=dyadic) _ _ _ _ _ _ _ _ _
              0 0 row Hfwd Hrow) as [Hlen Hzero].
  rewrite Hng, Hepg, HE in Hzero. rewrite HE in Hlen.
  exists self, (d, c, final, aux, self'), row.
  split; [reflexivity|]. split; [exact Hfwd|]. split; [exact Hrow|]. split; [exact Hlen|].
  split; apply Hzero; lia.
Defined.

End GroupReachTheorems.

(** ** The press: routers per layer *)

Module RouterTableTheorems.
Import MoERouterPress Observe.

(** X16.  [_get_router] builds the router of a layer once.  After a call
    that returns, the layer holds the router returned; a later call for the
    layer returns the same router and changes nothing, whatever hidden size
    it is given; and the routers and the statistics of the other layers are
    as before. *)
Theorem router_is_built_once (g g' : nn.Rng) (self self1 : t)
    (layer_idx hidden_size hidden_size' : nat) (router : Router) :
  _get_router g self layer_idx hidden_size = Ok (router, self1) →
  routers self1 !! layer_idx = Some router ∧
  _get_router g' self1 layer_idx hidden_size' = Ok (router, self1) ∧
  (∀ l, l ≠ layer_idx →
     routers self1 !! l = routers self !! l ∧
     expert_compression_stats self1 !! l = expert_compression_stats self !! l) ∧
  (routers self !! layer_idx = None →
   expert_compression_stats self1 !! layer_idx
   = Some {| expert_usage := zeros1 (num_experts self);
             compression_ratios := zeros1 (num_experts self);
             cache_hit_rates := zeros1 (num_experts self) |}).
Proof.
  unfold _get_router. intros Hrun.
  destruct (routers self !! layer_idx) as [r|] eqn:Hr.
  - inversion Hrun; subst. rewrite Hr. done.
  - inv_bind Hrun. inversion Hrun; subst; clear Hrun.
    cbn [routers expert_compression_stats with_state].
    rewrite !lookup_insert_eq. split; [done|]. split; [done|]. split; [|done].
    intros l Hl. by rewrite !lookup_insert_ne by done.
Qed.

Lemma router_is_built_once_witness :
  ∃ router self1,
    _get_router ramp_rng (sample_press "eplb" 4) 0 4 = Ok (router, self1) ∧
    _get_router mixed_rng self1 0 8 = Ok (router, self1).
Proof.
  destruct (_get_router ramp_rng (sample_press "eplb" 4) 0 4) as [[router self1]|e] eqn:Hrun;
    [|vm_compute in Hrun; discriminate].
  exists router, self1. split; [reflexivity|].
  by destruct (router_is_built_once ramp_rng mixed_rng _ _ _ _ 8 _ Hrun) as (_ & Hagain & _).
Defined.

(** X17.  A press configured with the hierarchical router and no group
    cannot build the router of a new layer: [_get_router], and with it
    [compress], raises [ZeroDivisionError]. *)
Theorem hierarchical_without_groups_raises `{!Transcendental} (g : nn.Rng) (self : t)
    (layer_idx : nat) (hidden_states : Tensor3) (keys values : Tensor4) (noise : Noise) :
  router_type self = "hierarchical" → num_groups self = 0%nat →
  routers self !! layer_idx = None →
  (∀ hidden_size, _get_router g self layer_idx hidden_size = Raise ZeroDivisionError) ∧
  compress g self layer_idx hidden_states keys values noise = Raise ZeroDivisionError.
Proof.
  intros Htype Hgroups Hnew.
  assert (∀ hidden_size, _get_router g self layer_idx hidden_size = Raise ZeroDivisionError)
    as Hraise.
  { intros h. unfold _get_router. rewrite Hnew, Htype.
    rewrite !decide_False by done. rewrite decide_True by done.
    unfold HierarchicalRouter.__init__. rewrite Hgroups. by rewrite decide_True. }
  split; [done|]. unfold compress. by rewrite Hraise.
Qed.

Lemma hierarchical_without_groups_raises_witness :
  compress (H:=dyadic) ramp_rng (with_num_groups 0 (sample_press "hierarchical" 8)) 0
    sample_hidden (sample_cache 10) (sample_cache 10) no_noise = Raise ZeroDivisionError.
Proof.
  apply (hierarchical_without_groups_raises (H:=dyadic) ramp_rng
           (with_num_groups 0 (sample_press "hierarchical" 8)) 0 sample_hidden
           (sample_cache 10) (sample_cache 10) no_noise); reflexivity.
Defined.

End RouterTableTheorems.

(** ** The press: compression *)

Module CompressTheorems.
Import MoERouterPress Observe TopkFacts.

Lemma rows_map_tokens (f : Tensor2 → Tensor2) (n m : nat) (t : Tensor4) :
  rows_of_length n t → (∀ row, length row = n → length (f row) = m) →
  rows_of_length m (map_tokens f t).
Proof.
  unfold rows_of_length, map_tokens. intros Hrows Hf.
  apply Forall_fmap. eapply list.Forall_impl; [exact Hrows|]. intros heads Hheads. simpl.
  apply Forall_fmap. eapply list.Forall_impl; [exact Hheads|]. intros row Hrow. simpl.
  by apply Hf.
Qed.

Lemma keep_ends_rows (keys values keys' values' : Tensor4) (front back : float) (n : nat) :
  rows_of_length n keys → rows_of_length n values → dim2 keys = n →
  keep_ends keys values front back = Ok (keys', values') →
  ∃ m, (m ≤ n)%nat ∧ rows_of_length m keys' ∧ rows_of_length m values'.
Proof.
  intros Hk Hv Hdim Hrun. unfold keep_ends in Hrun. rewrite Hdim in Hrun.
  inv_bind Hrun. rename a into kf. inv_bind Hrun. rename a into kb.
  case_decide as Hlt; inversion Hrun as [[Hk' Hv']]; clear Hrun;
    [|exists n; subst keys' values'; split; [lia|done]].
  exists (kf + kb)%nat. split; [lia|]. rewrite !CompressionTheorems.cat2_slices.
  split; (eapply rows_map_tokens; [done|]); intros row Hrow;
    rewrite length_app, length_take, length_drop; lia.
Qed.

Lemma important_indices_Ok (self : t) (router_probs : Tensor3) (seq_len : nat)
    (idx : list nat) :
  important_indices self router_probs seq_len = Ok idx →
  (length idx ≤ seq_len)%nat ∧ ∀ i, i ∈ idx → (i < seq_len)%nat.
Proof.
  unfold important_indices. intros Hrun.
  inv_bind Hrun. rename a into k. apply SelectiveTheorems.num_keep_le in Ha.
  inv_bind Hrun. destruct a as [vals ids]. inversion Hrun; subst; clear Hrun.
  pose proof (topk_length _ _ _ _ Ha0) as Hlen.
  pose proof (topk_in_range _ _ _ _ Ha0) as Hrange.
  rewrite SelectiveTheorems.length_importance_scores in Hrange.
  assert (sort_nat ids ≡ₚ ids) as Hperm by apply merge_sort_Permutation.
  split; [rewrite Hperm; lia|]. intros i Hi. rewrite Hperm in Hi. by apply Hrange.
Qed.

(** X18.  Whatever the strategy, [_apply_expert_compression] never makes the
    cache longer: when it returns, all rows of the keys and of the values it
    returns have one length, which is at most the length they had.  With a
    strategy that is none of the four names it returns the keys and the
    values as they are. *)
Theorem compression_never_lengthens (self : t) (keys values keys' values' : Tensor4)
    (strategy : string) (router_probs : Tensor3) (n : nat) :
  rows_of_length n keys → rows_of_length n values → dim2 keys = n →
  _apply_expert_compression self keys values strategy router_probs = Ok (keys', values') →
  (∃ m, (m ≤ n)%nat ∧ rows_of_length m keys' ∧ rows_of_length m values') ∧
  (strategy ≠ "aggressive" → strategy ≠ "moderate" → strategy ≠ "conservative" →
   strategy ≠ "selective" → keys' = keys ∧ values' = values).
Proof.
  intros Hk Hv Hdim Hrun. unfold _apply_expert_compression in Hrun.
  case_decide as H1.
  { split; [exact (keep_ends_rows _ _ _ _ _ _ _ Hk Hv Hdim Hrun)|]. intros Hne. by destruct Hne. }
  case_decide as H2.
  { split; [exact (keep_ends_rows _ _ _ _ _ _ _ Hk Hv Hdim Hrun)|]. intros _ Hne. by destruct Hne. }
  case_decide as H3.
  { split; [exact (keep_ends_rows _ _ _ _ _ _ _ Hk Hv Hdim Hrun)|].
    intros _ _ Hne. by destruct Hne. }
  case_decide as H4.
  - split; [|intros _ _ _ Hne; by destruct Hne]. rewrite Hdim in Hrun.
    inv_bind Hrun. rename a into idx. apply important_indices_Ok in Ha as [Hlen Hidx].
    rewrite (SelectiveTheorems.index_select_rows idx n keys Hk Hidx) in Hrun. cbn [bind] in Hrun.
    rewrite (SelectiveTheorems.index_select_rows idx n values Hv Hidx) in Hrun.
    inversion Hrun as [[Hk' Hv']]; clear Hrun. exists (length idx). split; [done|].
    split; (eapply rows_map_tokens; [done|]); intros row _; by rewrite length_fmap.
  - inversion Hrun as [[Hk' Hv']]. subst keys' values'.
    split; [exists n; split; [lia|done]|done].
Qed.

Lemma compression_never_lengthens_witness :
  ∃ keys' values' m,
    _apply_expert_compression (sample_press "base" 4) (sample_cache 10) (sample_cache 10)
      "moderate" sample_probs = Ok (keys', values') ∧
    (m ≤ 10)%nat ∧ rows_of_length m keys' ∧ rows_of_length m values'.
Proof.
  destruct (_apply_expert_compression (sample_press "base" 4) (sample_cache 10)
              (sample_cache 10) "moderate" sample_probs) as [[keys' values']|e] eqn:Hrun;
    [|vm_compute in Hrun; discriminate].
  destruct (compression_never_lengthens _ _ _ _ _ _ _ 10
              (CompressionTheorems.rows_of_length_sample_cache 10)
              (CompressionTheorems.rows_of_length_sample_cache 10) eq_refl Hrun)
    as [(m & Hm & Hk & Hv) _].
  exists keys', values', m. split; [reflexivity|]. split; [exact Hm|]. split; [exact Hk|exact Hv].
Defined.

(** X19.  The moderate strategy keeps the first [max(1, int(0.3 n))] and the
    last [max(1, int(0.2 n))] of [n] positions, the conservative one the
    first [max(1, int(0.5 n))] and the last [max(1, int(0.3 n))]; either
    returns the cache as it is when it is no longer than the two windows
    together. *)
Theorem moderate_and_conservative_keep_both_ends (self : t) (keys values : Tensor4)
    (router_probs : Tensor3) (strategy : string) (front back : float) (kf kb : nat) :
  (strategy = "moderate" ∧ front = 0.3%float ∧ back = 0.2%float) ∨
  (strategy = "conservative" ∧ front = 0.5%float ∧ back = 0.3%float) →
  keep_count (dim2 keys) front = Ok kf → keep_count (dim2 keys) back = Ok kb →
  let kept (row : Tensor2) := take kf row ++ drop (length row - kb) row in
  ((kf + kb < dim2 keys)%nat →
   _apply_expert_compression self keys values strategy router_probs
   = Ok (map_tokens kept keys, map_tokens kept values)) ∧
  ((dim2 keys ≤ kf + kb)%nat →
   _apply_expert_compression self keys values strategy router_probs = Ok (keys, values)) ∧
  (∀ row : Tensor2, (kf + kb < length row)%nat →
     length (kept row) = (kf + kb)%nat ∧
     (∀ i, (i < kf)%nat → kept row !! i = row !! i) ∧
     (∀ j, (j < kb)%nat → kept row !! (kf + j)%nat = row !! (length row - kb + j)%nat)).
Proof.
  intros Hstrategy Hf Hb kept.
  assert (_apply_expert_compression self keys values strategy router_probs
          = keep_ends keys values front back) as ->.
  { unfold _apply_expert_compression.
    destruct Hstrategy as [(-> & -> & ->)|(-> & -> & ->)].
    - rewrite decide_False by done. by rewrite decide_True.
    - rewrite decide_False by done. rewrite decide_False by done. by rewrite decide_True. }
  split; [|split].
  - intros Hlt. by apply CompressionTheorems.keep_ends_cut.
  - intros Hle. by eapply CompressionTheorems.keep_ends_unchanged.
  - intros row Hrow. unfold kept. split; [|split].
    + rewrite length_app, length_take, length_drop. lia.
    + intros i Hi. rewrite lookup_app_l by (rewrite length_take; lia).
      by rewrite lookup_take_lt.
    + intros j Hj. rewrite lookup_app_r by (rewrite length_take; lia).
      rewrite length_take, lookup_drop. f_equal. lia.
Qed.

(** A cache of 100 positions under the conservative strategy: the positions
    [0, 50) and [70, 100). *)
Lemma moderate_and_conservative_keep_both_ends_witness :
  _apply_expert_compression (sample_press "base" 4) (sample_cache 100) (sample_cache 100)
    "conservative" []
  = Ok (map_tokens (λ row : Tensor2, take 50 row ++ drop (length row - 30) row)
          (sample_cache 100),
        map_tokens (λ row : Tensor2, take 50 row ++ drop (length row - 30) row)
          (sample_cache 100)).
Proof.
  apply (moderate_and_conservative_keep_both_ends (sample_press "base" 4)
           (sample_cache 100) (sample_cache 100) [] "conservative" 0.5%float 0.3%float 50 30).
  - right. done.
  - vm_compute. reflexivity.
  - vm_compute. reflexivity.
  - change (50 + 30 < 100)%nat. lia.
Defined.

Lemma qn_le (n m : nat) : (n ≤ m)%nat ↔ qn n ≤ qn m.
Proof. unfold Qcle, qn. simpl. unfold Qle. simpl. lia. Qed.

(** X20.  The cache hit rate is the share [seq_len / 1000] of the ideal
    length, capped at 1: it lies in [[0, 1]], and it is 1 exactly for the
    caches of 1000 positions and more. *)
Theorem cache_hit_rate_is_a_capped_share (keys values : Tensor4) :
  0 ≤ _compute_cache_hit_rate keys values ∧ _compute_cache_hit_rate keys values ≤ 1 ∧
  (_compute_cache_hit_rate keys values = 1 ↔ (1000 ≤ dim2 keys)%nat) ∧
  ((dim2 keys < 1000)%nat →
   _compute_cache_hit_rate keys values = qn (dim2 keys) / qz 1000).
Proof.
  unfold _compute_cache_hit_rate. generalize (dim2 keys). intros n.
  assert (0 < qz 1000) as Hpos by (by vm_compute).
  assert (qn n / qz 1000 * qz 1000 = qn n) as Hmul.
  { field. apply Qclt_not_eq in Hpos. congruence. }
  assert (1 ≤ qn n / qz 1000 ↔ (1000 ≤ n)%nat) as Hone.
  { rewrite (Qcmult_le_mono_pos_r _ _ (qz 1000) Hpos), Hmul, Qcmult_1_l.
    change (qz 1000) with (qn 1000). by rewrite <-qn_le. }
  assert (0 ≤ qn n / qz 1000) as Hnonneg.
  { unfold Qcdiv. apply Qcmult_nonneg_nonneg; [apply EPLBTheorems.qn_nonneg|].
    by apply Qclt_le_weak, Qcinv_pos. }
  unfold qmin. destruct (decide (1 ≤ qn n / qz 1000)) as [Hge|Hlt].
  - apply Hone in Hge. split; [by vm_compute|]. split; [apply Qcle_refl|].
    split; [done|lia].
  - split; [done|]. split; [by apply Qclt_le_weak, Qcnot_le_lt|]. split; [|done].
    split.
    + intros Heq. exfalso. apply Hlt. rewrite Heq. apply Qcle_refl.
    + intros Hn. exfalso. apply Hlt. by apply Hone.
Qed.

(** X21.  On a cache with no position [compress] never returns: whatever the
    router and the strategy, the call raises. *)
Theorem compress_of_empty_cache_raises `{!Transcendental} (g : nn.Rng) (self : t)
    (layer_idx : nat) (hidden_states : Tensor3) (keys values : Tensor4) (noise : Noise) :
  dim2 keys = 0%nat →
  ∃ e, compress g self layer_idx hidden_states keys values noise = Raise e.
Proof.
  intros Hdim.
  destruct (compress g self layer_idx hidden_states keys values noise) as [out|e] eqn:Hrun;
    [exfalso|by exists e].
  unfold compress in Hrun.
  apply bind_Ok in Hrun as ([router self1] & _ & Hrun).
  apply bind_Ok in Hrun as ([[probs aux] router'] & _ & Hrun).
  apply bind_Ok in Hrun as (dominant & _ & Hrun).
  apply bind_Ok in Hrun as (strategy & _ & Hrun).
  apply bind_Ok in Hrun as ([ck cv] & _ & Hrun).
  apply bind_Ok in Hrun as (stats & _ & Hrun).
  apply bind_Ok in Hrun as (usage & _ & Hrun).
  by rewrite decide_True in Hrun.
Qed.

Lemma compress_of_empty_cache_raises_witness :
  compress (H:=dyadic) mixed_rng (sample_press "base" 4) 0 sample_hidden
    (sample_cache 0) (sample_cache 0) no_noise = Raise ZeroDivisionError.
Proof.
  destruct (compress_of_empty_cache_raises (H:=dyadic) mixed_rng (sample_press "base" 4) 0
              sample_hidden (sample_cache 0) (sample_cache 0) no_noise) as [e He];
    [reflexivity|].
  rewrite He. vm_compute in He. inversion He. reflexivity.
Defined.

(** X22.  A [compress] call that returns has counted itself: [forward_count]
    is one more, the strategy table and the configuration are as before,
    the layer has a router and a statistics record, the other layers are
    untouched, and the keys and values returned are what
    [_apply_expert_compression] gives for a strategy of the table. *)
Theorem compress_counts_the_call `{!Transcendental} (g : nn.Rng) (self self' : t)
    (layer_idx : nat) (hidden_states : Tensor3) (keys values keys' values' : Tensor4)
    (noise : Noise) :
  compress g self layer_idx hidden_states keys values noise = Ok (keys', values', self') →
  forward_count self' = S (forward_count self) ∧
  expert_strategies self' = expert_strategies self ∧
  compression_ratio self' = compression_ratio self ∧
  router_type self' = router_type self ∧
  is_Some (routers self' !! layer_idx) ∧
  is_Some (expert_compression_stats self' !! layer_idx) ∧
  (∀ l, l ≠ layer_idx →
     routers self' !! l = routers self !! l ∧
     expert_compression_stats self' !! l = expert_compression_stats self !! l) ∧
  ∃ dominant_expert strategy router_probs,
    expert_strategies self !! dominant_expert = Some strategy ∧
    _apply_expert_compression self keys values strategy router_probs = Ok (keys', values').
Proof.
  intros Hrun. unfold compress in Hrun.
  apply bind_Ok in Hrun as ([router self1] & Hget & Hrun).
  apply bind_Ok in Hrun as ([[probs aux] router'] & _ & Hrun).
  apply bind_Ok in Hrun as (dominant & _ & Hrun).
  apply bind_Ok in Hrun as (strategy & Hstrategy & Hrun).
  apply bind_Ok in Hrun as ([ck cv] & Hcut & Hrun).
  apply bind_Ok in Hrun as (stats & _ & Hrun).
  apply bind_Ok in Hrun as (usage & _ & Hrun).
  case_decide; [discriminate|].
  apply bind_Ok in Hrun as (ratios & _ & Hrun).
  apply bind_Ok in Hrun as (rates & _ & Hrun).
  inversion Hrun; subst; clear Hrun.
  cbn [forward_count expert_strategies compression_ratio router_type routers
       expert_compression_stats with_state].
  rewrite !lookup_insert_eq.
  assert (forward_count self1 = forward_count self ∧
          expert_strategies self1 = expert_strategies self ∧
          compression_ratio self1 = compression_ratio self ∧
          router_type self1 = router_type self ∧
          (∀ l, l ≠ layer_idx →
             routers self1 !! l = routers self !! l ∧
             expert_compression_stats self1 !! l = expert_compression_stats self !! l) ∧
          _apply_expert_compression self1 keys values strategy probs
          = _apply_expert_compression self keys values strategy probs)
    as (Hcount & Htable & Hratio & Htype & Hother & Happly).
  { unfold _get_router in Hget. destruct (routers self !! layer_idx).
    - by inversion Hget; subst.
    - inv_bind Hget. inversion Hget; subst; clear Hget.
      cbn [forward_count expert_strategies compression_ratio router_type routers
           expert_compression_stats with_state].
      repeat split; try done; by rewrite lookup_insert_ne. }
  rewrite Hcount, Htable, Hratio, Htype. repeat split; try done; try by eauto.
  - rewrite lookup_insert_ne by done. by apply Hother.
  - rewrite lookup_insert_ne by done. by apply Hother.
  - exists dominant, strategy, probs. rewrite <-Happly, <-Htable. split; [|done].
    by destruct (expert_strategies self1 !! dominant); inversion Hstrategy.
Qed.

Lemma compress_counts_the_call_witness :
  ∃ keys' values' self',
    compress (H:=dyadic) mixed_rng (sample_press "base" 4) 0 sample_hidden
      (sample_cache 10) (sample_cache 10) no_noise = Ok (keys', values', self') ∧
    forward_count self' = 1%nat.
Proof.
  destruct (compress (H:=dyadic) mixed_rng (sample_press "base" 4) 0 sample_hidden
              (sample_cache 10) (sample_cache 10) no_noise)
    as [[[keys' values'] self']|e] eqn:Hrun; [|vm_compute in Hrun; discriminate].
  exists keys', values', self'. split; [reflexivity|].
  by destruct (compress_counts_the_call (H:=dyadic) _ _ _ _ _ _ _ _ _ _ Hrun) as [-> _].
Defined.

End CompressTheorems.

(** ** The press: reading the statistics *)

Module GetStatsTheorems.
Import MoERouterPress Observe.

Lemma map_result_raises {A B : Type} (f : A → result B) (xs : list A) (e : exn) (x : A) :
  x ∈ xs → f x = Raise e → (∀ y, y ∈ xs → f y = Raise e ∨ ∃ b, f y = Ok b) →
  map_result f xs = Raise e.
Proof.
  intros Hx Hfx Hall. induction xs as [|y xs IH]; [by apply elem_of_nil in Hx|].
  simpl. destruct (Hall y) as [Hy|[b Hy]]; [by left|by rewrite Hy|].
  rewrite Hy. simpl. rewrite IH; [done| |].
  - apply elem_of_cons in Hx as [->|Hx]; [congruence|done].
  - intros z Hz. apply Hall. by right.
Qed.

(** X23.  [get_stats] returns exactly when every layer that has a router has
    its statistics record, which is what [__post_init__] establishes and
    every [compress] call that returns preserves.  It then reports the total
    loss, the number of calls, their quotient with the divisor
    [max(1, forward_count)], and for every layer with a router the router's
    routing statistics next to the layer's compression statistics.  When a
    layer with a router has no record it raises [KeyError]. *)
Theorem get_stats_reports_every_layer `{!Transcendental} :
  (∀ self : t, registered self →
     ∃ s, get_stats self = Ok s ∧
       stats_total_aux_loss s = total_aux_loss self ∧
       stats_forward_count s = forward_count self ∧
       stats_avg_aux_loss s = total_aux_loss self / qn (Nat.max 1 (forward_count self)) ∧
       ∀ l, stats_layer_stats s !! l =
            routers self !! l ≫= λ r, expert_compression_stats self !! l ≫= λ cs,
              Some {| router_stats := router_get_routing_stats r;
                      layer_compression_stats := cs |}) ∧
  (∀ (self : t) l r, routers self !! l = Some r →
     expert_compression_stats self !! l = None → get_stats self = Raise KeyError) ∧
  (∀ self : t, registered (__post_init__ self)) ∧
  (∀ g (self self' : t) l hs keys values keys' values' noise,
     registered self → compress g self l hs keys values noise = Ok (keys', values', self') →
     registered self').
Proof.
  split; [|split; [|split]].
  - intros self Hreg. unfold get_stats.
    set (f := λ '(layer_idx, router),
      match expert_compression_stats self !! layer_idx with
      | Some cs => Ok (layer_idx, {| router_stats := router_get_routing_stats router;
                                     layer_compression_stats := cs |})
      | None => Raise KeyError
      end).
    assert (∀ l r, routers self !! l = Some r →
      ∃ cs, expert_compression_stats self !! l = Some cs ∧
        f (l, r) = Ok (l, {| router_stats := router_get_routing_stats r;
                             layer_compression_stats := cs |})) as Hf.
    { intros l r Hr. destruct (Hreg l) as [cs Hcs]; [by rewrite Hr|].
      exists cs. split; [done|]. unfold f. by rewrite Hcs. }
    destruct (map_result_total f (map_to_list (routers self))) as [layers Hlayers].
    { apply list.Forall_forall. intros [l r] Hin. apply elem_of_map_to_list in Hin.
      destruct (Hf l r Hin) as (cs & _ & Heq). eauto. }
    rewrite Hlayers. cbn [bind]. eexists. split; [done|].
    cbn [stats_total_aux_loss stats_forward_count stats_avg_aux_loss stats_layer_stats].
    split; [done|]. split; [done|]. split; [done|].
    apply map_result_Ok in Hlayers.
    assert (layers.*1 = (map_to_list (routers self)).*1) as Hkeys.
    { assert (Forall (λ x, routers self !! x.1 = Some x.2) (map_to_list (routers self)))
        as Hall.
      { apply list.Forall_forall. intros [l r] Hin. by apply elem_of_map_to_list in Hin. }
      revert Hall Hlayers. generalize (map_to_list (routers self)). intros xs Hall Hlayers.
      induction Hlayers as [|[l r] y xs ys Hxy _ IH]; [done|].
      inversion Hall as [|? ? Hlr Hall']; subst. simpl in Hlr.
      destruct (Hf l r Hlr) as (cs & _ & Heq).
      rewrite Heq in Hxy. inversion Hxy; subst. simpl. f_equal. by apply IH. }
    intros l. destruct (routers self !! l) as [r|] eqn:Hr; simpl.
    + destruct (Hf l r Hr) as (cs & Hcs & Heq). rewrite Hcs. simpl.
      apply elem_of_list_to_map_1; [rewrite Hkeys; apply NoDup_fst_map_to_list|].
      apply elem_of_map_to_list, list_elem_of_lookup in Hr as [i Hi].
      destruct (Forall2_lookup_l _ _ _ _ _ Hlayers Hi) as (y & Hy & Hfy).
      rewrite Heq in Hfy. inversion Hfy; subst. by eapply list_elem_of_lookup_2.
    + apply not_elem_of_list_to_map_1. rewrite Hkeys. intros Hin.
      apply list_elem_of_fmap in Hin as ([l' r] & -> & Hin).
      apply elem_of_map_to_list in Hin. simpl in Hr. congruence.
  - intros self l r Hr Hnone. unfold get_stats.
    rewrite (map_result_raises _ _ KeyError (l, r)); [done| | |].
    + by apply elem_of_map_to_list.
    + by rewrite Hnone.
    + intros [l' r'] _. destruct (expert_compression_stats self !! l'); eauto.
  - apply StatsTheorems.registered_post_init.
  - intros g self self' l hs keys values keys' values' noise.
    apply StatsTheorems.registered_compress.
Qed.

End GetStatsTheorems.

(** ** Accounting of the selections *)

Module AccountingTheorems.
Import BaseMoERouter CounterTheorems MaskFacts.

(** Two [[B, S, ...]] tensors with the same number of tokens in every batch
    entry. *)
Lemma concat_same_shape {A B : Type} (t : list (list A)) (t' : list (list B)) :
  Forall2 (λ r r', length r = length r') t t' → length (concat t) = length (concat t').
Proof.
  induction 1 as [|r r' t t' Hr _ IH]; [done|]. simpl. rewrite !length_app. lia.
Qed.

Lemma sequence_length {A : Type} (xs : list (result A)) (ys : list A) :
  sequence xs = Ok ys → length ys = length xs.
Proof.
  unfold sequence. intros H. apply map_result_Ok, Forall2_length in H. done.
Qed.

Lemma sequence_rows_shape {A B : Type} (f : list A → result (list B)) (t : list (list A))
    (t' : list (list B)) :
  (∀ r r', f r = Ok r' → length r' = length r) →
  sequence (f <$> t) = Ok t' → Forall2 (λ r r', length r = length r') t t'.
Proof.
  intros Hf H. apply sequence_fmap_inv in H.
  eapply Forall2_impl; [|exact H]. intros r r' Hr. simpl in Hr. symmetry. by apply Hf.
Qed.

Lemma forward3_shape `{!Transcendental} (training : bool) (keep : nat → nat → nat → bool)
    (net : nn.Sequential) (t t' : Tensor3) :
  nn.Sequential_forward3 training keep net t = Ok t' →
  Forall2 (λ r r', length r = length r') t t'.
Proof.
  unfold nn.Sequential_forward3, sequence. intros Hall. apply map_result_Ok in Hall.
  apply Forall2_same_length_lookup. split.
  - apply Forall2_length in Hall. by rewrite length_imap in Hall.
  - intros b r r' Hr Hr'.
    assert (imap (λ b row, map_result id (imap (λ s x,
              nn.Sequential_forward training (keep b s) net x) row)) t !! b
            = Some (map_result id (imap (λ s x,
                nn.Sequential_forward training (keep b s) net x) r))) as Hb.
    { by rewrite list_lookup_imap, Hr. }
    destruct (Forall2_lookup_l _ _ _ _ _ Hall Hb) as (r'' & Hr'' & Hrun).
    rewrite Hr' in Hr''. inversion Hr''; subst. unfold id in Hrun at 1.
    apply map_result_Ok, Forall2_length in Hrun. by rewrite length_imap in Hrun.
Qed.

Lemma apply_expert_mask_shape (expert_mask : option Tensor1) (t t' : Tensor3) :
  apply_expert_mask expert_mask t = Ok t' → Forall2 (λ r r', length r = length r') t t'.
Proof.
  destruct expert_mask as [mask|]; simpl.
  - apply sequence_rows_shape. intros r r' Hr. apply sequence_length in Hr.
    by rewrite length_fmap in Hr.
  - intros [= <-]. apply Forall_Forall2_diag, list.Forall_forall. done.
Qed.

(** The selection [topk3] returns has the tokens of its argument, each with
    [k] entries. *)
Lemma topk3_shape (probs : Tensor3) (k : nat) (vals : Tensor3)
    (idx : list (list (list nat))) :
  topk3 probs k = Ok (vals, idx) →
  Forall2 (λ r r', length r = length r') probs idx ∧
  Forall (λ ids, length ids = k) (concat idx).
Proof.
  unfold topk3. intros H. inv_bind H. rename a into sel. inversion H; subst; clear H.
  apply sequence_fmap_inv in Ha. unfold map_tokens. split.
  - apply Forall2_fmap_r. eapply Forall2_impl; [|exact Ha]. intros r r' Hr. simpl in *.
    apply sequence_length in Hr. rewrite length_fmap in Hr. rewrite length_fmap. done.
  - apply Forall_concat, Forall_fmap, list.Forall_forall. intros r' Hr'.
    apply list_elem_of_lookup in Hr' as [b Hb].
    destruct (Forall2_lookup_r _ _ _ _ _ Ha Hb) as (r & _ & Hseq). simpl in *.
    apply sequence_fmap_inv in Hseq. apply Forall_fmap, list.Forall_forall.
    intros [v ids] Hin. apply list_elem_of_lookup in Hin as [s Hs].
    destruct (Forall2_lookup_r _ _ _ _ _ Hseq Hs) as (p & _ & Htopk). simpl in *.
    by apply (TopkFacts.topk_length _ _ _ _ Htopk).
Qed.

Lemma length_concat_const {A : Type} (ls : list (list A)) (k : nat) :
  Forall (λ l, length l = k) ls → length (concat ls) = (k * length ls)%nat.
Proof.
  induction 1 as [|l ls Hl _ IH]; simpl; [lia|]. rewrite length_app, IH, Hl. lia.
Qed.

Lemma qsum_zip_plus (u v : Tensor1) :
  length u = length v → qsum (zip_with Qcplus u v) = qsum u + qsum v.
Proof.
  revert v. induction u as [|x u IH]; intros [|y v] Hlen; simpl in Hlen; try lia.
  - simpl. by rewrite Qcplus_0_l.
  - csimpl. rewrite IH by lia. ring.
Qed.

(** The buffer after the counting loop is the buffer plus the counts. *)
Lemma counted_buffer (f : nat → Qc) (u u' : Tensor1) :
  (∀ e, u' !! e = if decide (e < length u)%nat then (λ v, v + f e) <$> u !! e else u !! e) →
  qsum u' = qsum u + qsum (f <$> range (length u)).
Proof.
  intros Hu.
  assert (u' = zip_with Qcplus u (f <$> range (length u))) as ->.
  { apply list_eq. intros e. rewrite Hu, lookup_zip_with, list_lookup_fmap.
    destruct (u !! e) as [v|] eqn:Hv.
    - pose proof (lookup_lt_Some _ _ _ Hv) as Hlt. rewrite decide_True by done.
      unfold range. by rewrite lookup_seq_lt.
    - by case_decide. }
  apply qsum_zip_plus. unfold range. by rewrite length_fmap, length_seq.
Qed.

(** X24.  Every [forward] call that returns adds exactly [top_k] selections
    per token to the usage counters: the sum of [expert_usage_count] grows by
    [top_k] times the number of tokens of the input, and so does the sum of
    [routing_decisions]. *)
Theorem forward_adds_top_k_selections_per_token `{!Transcendental} (self self' : t)
    (hidden_states : Tensor3) (expert_mask : option Tensor1)
    (keep : nat → nat → nat → bool) (d c : Tensor4) (probs : Tensor3) (aux : Qc) :
  forward self hidden_states expert_mask keep = Ok (d, c, probs, aux, self') →
  (length (expert_usage_count self) = num_experts self →
   qsum (expert_usage_count self')
   = qsum (expert_usage_count self) + qn (top_k self * length (concat hidden_states))) ∧
  (length (routing_decisions self) = num_experts self →
   qsum (routing_decisions self')
   = qsum (routing_decisions self) + qn (top_k self * length (concat hidden_states))).
Proof.
  unfold forward. intros Hrun.
  apply bind_Ok in Hrun as (logits0 & Hnet & Hrun).
  apply bind_Ok in Hrun as (logits & Hmask & Hrun).
  apply bind_Ok in Hrun as ([tkp tki] & Htopk & Hrun).
  apply bind_Ok in Hrun as ([d0 c0] & _ & Hrun).
  apply bind_Ok in Hrun as (aux0 & Haux & Hrun).
  apply bind_Ok in Hrun as (self0 & Hstats & Hrun).
  inversion Hrun; subst; clear Hrun.
  apply update_stats_Ok in Hstats as (_ & _ & _ & _ & Hu & Hd).
  (* the selections name experts of the router *)
  assert (Forall (λ i, i < num_experts self)%nat (concat (concat tki))) as Hvalid.
  { unfold _compute_load_balancing_loss, one_hot_mean in Haux.
    by destruct (decide (Forall (λ i, i < num_experts self)%nat (concat (concat tki)))). }
  (* there are [top_k] of them per token *)
  apply topk3_shape in Htopk as [Hshape Hk].
  assert (length (concat (concat tki)) = (top_k self * length (concat hidden_states))%nat)
    as Hcount.
  { rewrite (length_concat_const _ _ Hk). f_equal.
    rewrite <-(concat_same_shape _ _ Hshape). unfold map_tokens.
    rewrite <-(concat_same_shape logits ((λ row : Tensor2, nn.softmax <$> row) <$> logits)).
    2:{ apply Forall2_fmap_r, Forall_Forall2_diag, list.Forall_forall. intros r _.
        unfold compose. by rewrite length_fmap. }
    rewrite <-(concat_same_shape _ _ (apply_expert_mask_shape _ _ _ Hmask)).
    by rewrite <-(concat_same_shape _ _ (forward3_shape _ _ _ _ _ Hnet)). }
  assert (qsum ((λ e, qn (count_expert tki e)) <$> range (num_experts self))
          = qn (top_k self * length (concat hidden_states))) as Hsum.
  { by rewrite BalanceLossTheorems.count_expert_sum, BalanceLossTheorems.filter_all, Hcount. }
  split; intros Hlen.
  - rewrite (counted_buffer (λ e, qn (count_expert tki e)) (expert_usage_count self)).
    + by rewrite Hlen, Hsum.
    + intros e. by rewrite Hlen.
  - rewrite (counted_buffer (λ e, qn (count_expert tki e)) (routing_decisions self)).
    + by rewrite Hlen, Hsum.
    + intros e. by rewrite Hlen.
Qed.

(** Three tokens, one selection each, on a router that has counted
    nothing. *)
Lemma forward_adds_top_k_selections_per_token_witness :
  ∃ out,
    forward (H:=dyadic) sample_router sample_hidden None all_kept = Ok out ∧
    qsum (expert_usage_count out.2) = qn 3.
Proof.
  destruct (forward (H:=dyadic) sample_router sample_hidden None all_kept)
    as [[[[[d c] probs] aux] self']|e] eqn:Hrun; [|vm_compute in Hrun; discriminate].
  exists (d, c, probs, aux, self'). split; [reflexivity|].
  destruct (forward_adds_top_k_selections_per_token (H:=dyadic) _ _ _ _ _ _ _ _ _ Hrun)
    as [Husage _].
  cbn [snd]. rewrite Husage by reflexivity. apply Qc_is_canon. vm_compute. reflexivity.
Defined.

End AccountingTheorems.

(** ** The weights of important tokens *)

Module ImportanceWeightTheorems.
Import AdaptiveRouter MaskFacts.

Lemma entry4_scale_tokens (combine_tensor : Tensor4) (importance_weight : Tensor2)
    (b s e p : nat) :
  entry4 (scale_tokens combine_tensor importance_weight) b s e p =
    tok_at importance_weight b s ≫= λ w,
      (λ v, v * (1 + w)) <$> entry4 combine_tensor b s e p.
Proof.
  unfold entry4, tok_at, scale_tokens. rewrite lookup_zip_with.
  destruct (combine_tensor !! b) as [row|]; simpl.
  2:{ by destruct (importance_weight !! b) as [wrow|]; simpl; [destruct (wrow !! s)|]. }
  destruct (importance_weight !! b) as [wrow|]; simpl; [|done].
  rewrite lookup_zip_with.
  destruct (row !! s) as [tok|]; simpl; [|by destruct (wrow !! s)].
  destruct (wrow !! s) as [w|]; simpl; [|done].
  rewrite list_lookup_fmap. destruct (tok !! e) as [slots|]; simpl; [|done].
  by rewrite list_lookup_fmap.
Qed.

(** X25.  The adaptive router returns the dispatch tensor of the base
    routing as it is, and its combine tensor reweighted by token: every
    combine weight of a token whose importance is above the threshold is
    doubled, and the weights of the other tokens are unchanged. *)
Theorem important_tokens_get_double_weight `{!Transcendental} (self self' : t)
    (hidden_states : Tensor3) (expert_mask : option Tensor1)
    (keep keep_importance : nat → nat → nat → bool) (d c : Tensor4) (probs : Tensor3)
    (aux : Qc) (importance : Tensor2) :
  forward self hidden_states expert_mask keep keep_importance
  = Ok (d, c, probs, aux, importance, self') →
  ∃ current_top_k c0 base',
    BaseMoERouter.forward (BaseMoERouter.with_top_k current_top_k (base self))
      hidden_states expert_mask keep = Ok (d, c0, probs, aux, base') ∧
    ∀ b s e p imp, tok_at importance b s = Some imp →
      entry4 c b s e p =
        if decide (importance_threshold self < imp)
        then (λ v, v + v) <$> entry4 c0 b s e p
        else entry4 c0 b s e p.
Proof.
  unfold forward. intros Hrun.
  apply bind_Ok in Hrun as (imp0 & _ & Hrun).
  apply bind_Ok in Hrun as (k & _ & Hrun).
  apply bind_Ok in Hrun as ([[[[d0 c0] p0] a0] base'] & Hbase & Hrun).
  inversion Hrun; subst; clear Hrun.
  exists k, c0, base'. split; [done|].
  intros b s e p imp Himp. rewrite entry4_scale_tokens, tok_at_map_tokens, Himp.
  cbn [with_base importance_threshold]. simpl.
  destruct (decide (importance_threshold self < imp)).
  - destruct (entry4 c0 b s e p) as [v|]; simpl; [|done]. f_equal. ring.
  - destruct (entry4 c0 b s e p) as [v|]; simpl; [|done]. f_equal. ring.
Qed.

Lemma important_tokens_get_double_weight_witness :
  ∃ out current_top_k c0 base',
    forward (H:=dyadic) sample_adaptive sample_hidden None all_kept all_kept = Ok out ∧
    BaseMoERouter.forward (H:=dyadic)
      (BaseMoERouter.with_top_k current_top_k (base sample_adaptive))
      sample_hidden None all_kept = Ok (out.1.1.1.1.1, c0, out.1.1.1.2, out.1.1.2, base').
Proof.
  destruct (forward (H:=dyadic) sample_adaptive sample_hidden None all_kept all_kept)
    as [[[[[[d c] probs] aux] importance] self']|e] eqn:Hrun;
    [|vm_compute in Hrun; discriminate].
  destruct (important_tokens_get_double_weight (H:=dyadic) _ _ _ _ _ _ _ _ _ _ _ Hrun)
    as (k & c0 & base' & Hbase & _).
  exists (d, c, probs, aux, importance, self'), k, c0, base'.
  split; [reflexivity|exact Hbase].
Defined.

End ImportanceWeightTheorems.
